(** * openrasp-iast: the request queue and the HTTP probe session

    A shallow embedding of
      - core/model/new_request_model.py  (class NewRequestModel), and
      - core/components/audit_tools/session.py  (class Session),
    together with the properties of the queue cursor [start_id], of the
    dispatch and completion protocol, and of the retry loop of
    [send_request].

    Python integers are [Z]; the relational table is the list of its rows
    in primary-key order; the code's effects (table updates, the in-memory
    cursor, exceptions raised by the driver) are threaded through a small
    state-and-exception monad in which the state survives a raise, as the
    database and the Python object do. *)

From Stdlib Require Import ZArith List String Bool Lia FunInd Recdef.
Import ListNotations.
Open Scope Z_scope.

(** ** Exceptions *)

(** The constraint a [peewee.IntegrityError] reports. *)
Inductive constraint : Type :=
| UniqueDataHash      (* the unique index on data_hash *)
| PrimaryKey
| NotNull
| ForeignKey
| CheckConstraint.

(** The exception classes the two source files see.  [DatabaseError] is
    core.components.exceptions.DatabaseError (not peewee's class of that
    name); [UnknownHTTPMethod] is the error kind named by the design
    document; no [raise] of the two source files produces it. *)
Inductive exn : Type :=
| IntegrityError (c : constraint)   (* peewee.IntegrityError *)
| OperationalError                  (* peewee: connection lost, lock timeout *)
| ProgrammingError                  (* peewee *)
| InterfaceError                    (* peewee *)
| DataError                         (* peewee *)
| TimeoutError                      (* asyncio.TimeoutError *)
| ClientError                       (* aiohttp.client_exceptions.ClientError *)
| AttributeError                    (* builtin, raised by getattr *)
| TypeError                         (* builtin *)
| RuntimeError                      (* any other subclass of Exception *)
| DatabaseError                     (* exceptions.DatabaseError *)
| ScanRequestFailed                 (* exceptions.ScanRequestFailed *)
| UnboundLocalError                 (* builtin: a local read while unbound *)
| UnknownHTTPMethod.

(** [except peewee.IntegrityError] *)
Definition is_IntegrityError (e : exn) : bool :=
  match e with IntegrityError _ => true | _ => false end.

(** [except (asyncio.TimeoutError, aiohttp.client_exceptions.ClientError)] *)
Definition is_transport_error (e : exn) : bool :=
  match e with TimeoutError | ClientError => true | _ => false end.

(** ** The state-and-exception monad *)

Inductive result (A : Type) : Type :=
| Return (a : A)
| Raise (e : exn).
Arguments Return {A} a.
Arguments Raise {A} e.

Definition M (S A : Type) : Type := S -> result A * S.

Definition ret {S A} (a : A) : M S A := fun s => (Return a, s).

Definition raise {S A} (e : exn) : M S A := fun s => (Raise e, s).

Definition bind {S A B} (c : M S A) (k : A -> M S B) : M S B :=
  fun s => match c s with
           | (Return a, s') => k a s'
           | (Raise e, s') => (Raise e, s')
           end.

(** [try: c  except Exception as e: handler e] *)
Definition try_except {S A} (c : M S A) (handler : exn -> M S A) : M S A :=
  fun s => match c s with
           | (Return a, s') => (Return a, s')
           | (Raise e, s') => handler e s'
           end.

(** [try: c  except Exception as e: handler e  else: orelse] *)
Definition try_except_else {S A B} (c : M S A) (handler : exn -> M S B)
  (orelse : M S B) : M S B :=
  fun s => match c s with
           | (Return _, s') => orelse s'
           | (Raise e, s') => handler e s'
           end.

Definition get {S} : M S S := fun s => (Return s, s).

Definition modify {S} (f : S -> S) : M S unit := fun s => (Return tt, f s).

Declare Scope monad_scope.
Delimit Scope monad_scope with monad.
Notation "x <- c ;; k" := (bind c (fun x => k))
  (at level 61, c at next level, right associativity) : monad_scope.
Notation "c ;; k" := (bind c (fun _ => k))
  (at level 61, right associativity) : monad_scope.
Open Scope monad_scope.

Definition outcome {S A} (p : result A * S) : result A := fst p.
Definition final {S A} (p : result A * S) : S := snd p.

(** ** The request queue: core/model/new_request_model.py *)

Module NewRequestModel.

(** *** Data model *)

(** The codec object handed to [put]: [dump()] and [get_hash()] of
    core.components.rasp_result.RaspResult, which lives outside the two
    files; both are taken as total, and the hash as fitting the 63
    character column. *)
Record RaspResult : Type := {
  dump : string;
  get_hash : string
}.

(** One row of the table "<prefix>_ResultList" ([_create_model]). *)
Record ResultList : Type := {
  id : Z;                (* peewee.AutoField() *)
  data : string;         (* LongTextField() *)
  data_hash : string;    (* CharField(unique=True, max_length=63) *)
  scan_status : Z;       (* IntegerField(default=0) *)
  time : Z               (* IntegerField(default=common.get_timestamp) *)
}.

(** scan_status: 0 not scanned, 1 scanned, 2 being scanned, 3 error
    during the scan (the comment in [_create_model]). *)
Definition UNSCANNED : Z := 0.
Definition SCANNED : Z := 1.
Definition IN_PROGRESS : Z := 2.
Definition FAILED : Z := 3.

(** The model instance and what it talks to: the rows of the table in
    primary-key order, the table's AUTO_INCREMENT counter, the in-memory
    cursor [self.start_id], and the driver's pending faults: the n-th
    statement sent to the database raises [e] when the n-th entry is
    [Some e] and executes when it is [None] or when the list has run out. *)
Record state : Type := {
  rows : list ResultList;
  auto_increment : Z;
  start_id : Z;
  faults : list (option exn)
}.

Definition set_rows (t : list ResultList) (s : state) : state :=
  {| rows := t; auto_increment := auto_increment s;
     start_id := start_id s; faults := faults s |}.

Definition set_start_id (v : Z) (s : state) : state :=
  {| rows := rows s; auto_increment := auto_increment s;
     start_id := v; faults := faults s |}.

Definition set_faults (f : list (option exn)) (s : state) : state :=
  {| rows := rows s; auto_increment := auto_increment s;
     start_id := start_id s; faults := f |}.

Definition set_status (v : Z) (r : ResultList) : ResultList :=
  {| id := id r; data := data r; data_hash := data_hash r;
     scan_status := v; time := time r |}.

(** *** The SQL statements the model issues, on the list of rows *)

(** SELECT ... WHERE p *)
Definition select_where (p : ResultList -> bool) (t : list ResultList)
  : list ResultList := filter p t.

Definition opt_min (x : Z) (acc : option Z) : option Z :=
  match acc with None => Some x | Some m => Some (Z.min x m) end.

Definition opt_max (x : Z) (acc : option Z) : option Z :=
  match acc with None => Some x | Some m => Some (Z.max x m) end.

(** SELECT MIN(id) WHERE p: NULL (None) when no row matches. *)
Definition select_min_id (p : ResultList -> bool) (t : list ResultList)
  : option Z :=
  fold_right (fun r acc => opt_min (id r) acc) None (filter p t).

(** SELECT MAX(id) WHERE p *)
Definition select_max_id (p : ResultList -> bool) (t : list ResultList)
  : option Z :=
  fold_right (fun r acc => opt_max (id r) acc) None (filter p t).

(** UPDATE SET scan_status = v WHERE p *)
Definition update_where (p : ResultList -> bool) (v : Z)
  (t : list ResultList) : list ResultList :=
  map (fun r => if p r then set_status v r else r) t.

(** UPDATE SET scan_status = v WHERE p ORDER BY id LIMIT n, with the
    number of rows it changed. *)
Fixpoint update_limit (p : ResultList -> bool) (v : Z) (n : nat)
  (t : list ResultList) : nat * list ResultList :=
  match n, t with
  | O, _ => (O, t)
  | _, [] => (O, [])
  | S n', r :: t' =>
      if p r then
        let (k, u) := update_limit p v n' t' in (S k, set_status v r :: u)
      else
        let (k, u) := update_limit p v n t' in (k, r :: u)
  end.

(** [id << failed_list], SQL's IN *)
Definition mem (x : Z) (l : list Z) : bool := existsb (Z.eqb x) l.

(** *** Talking to the driver *)

(** The exception the next statement will meet in the driver, if any. *)
Definition pending (s : state) : option exn :=
  match faults s with
  | Some e :: _ => Some e
  | _ => None
  end.

(** The driver has dealt with one statement. *)
Definition next_statement (s : state) : state :=
  set_faults (tl (faults s)) s.

(** One statement sent to the database: it raises the pending fault, if
    there is one, and otherwise runs [q] on the rows. *)
Definition execute {A} (q : list ResultList -> A * list ResultList)
  : M state A :=
  fun s =>
    match pending s with
    | Some e => (Raise e, next_statement s)
    | None => let (a, t) := q (rows s) in
              (Return a, set_rows t (next_statement s))
    end.

(** [peewee_async.execute] of a SELECT: the rows it yields. *)
Definition execute_select (q : list ResultList -> list ResultList)
  : M state (list ResultList) :=
  execute (fun t => (q t, t)).

(** [peewee_async.scalar] and [query.scalar()]: the one value of an
    aggregate SELECT. *)
Definition scalar {A} (q : list ResultList -> A) : M state A :=
  execute (fun t => (q t, t)).

(** [peewee_async.execute] of an UPDATE whose row count is not read. *)
Definition execute_update (q : list ResultList -> list ResultList)
  : M state unit :=
  execute (fun t => (tt, q t)).

(** The unique index on data_hash holds a row with hash [h]. *)
Definition has_hash (h : string) (t : list ResultList) : bool :=
  existsb (fun r => String.eqb (data_hash r) h) t.

(** [peewee_async.create_object(self.ResultList, data=..., data_hash=...)]:
    the INSERT.  The unique index on data_hash refuses a second row with
    the same hash; the new row takes the AUTO_INCREMENT value, the default
    scan_status 0 and the default time [timestamp]. *)
Definition create_object (d h : string) (timestamp : Z) : M state unit :=
  fun s =>
    match pending s with
    | Some e => (Raise e, next_statement s)
    | None =>
        if has_hash h (rows s) then
          (Raise (IntegrityError UniqueDataHash), next_statement s)
        else
          (Return tt,
           {| rows := rows s ++
                [{| id := auto_increment s; data := d; data_hash := h;
                    scan_status := 0; time := timestamp |}];
              auto_increment := auto_increment s + 1;
              start_id := start_id s;
              faults := tl (faults s) |})
    end.

(** *** The methods of NewRequestModel *)

(** [_init_start_id] (lines 65-83) *)
Definition _init_start_id : M state unit :=
  result <- try_except
              (scalar (select_min_id
                         (fun r => negb (scan_status r =? 1))))
              (fun _ => raise DatabaseError) ;;
  match result with
  | None => modify (set_start_id 0)
  | Some m => modify (set_start_id (m - 1))
  end.

(** [__init__] (lines 35-40); the table is the one [super().__init__] has
    opened. *)
Definition __init__ : M state unit := _init_start_id.

(** [reset_unscanned_item] (lines 85-96) *)
Definition reset_unscanned_item : M state unit :=
  try_except
    (execute_update (update_where (fun r => scan_status r >? 1) 0))
    (fun _ => raise DatabaseError).

(** [get_start_id] (lines 98-105) *)
Definition get_start_id : M state Z :=
  s <- get ;; ret (start_id s).

(** [put] (lines 107-129); [timestamp] is what common.get_timestamp
    answers when the row is created. *)
Definition put (rasp_result_ins : RaspResult) (timestamp : Z)
  : M state bool :=
  try_except_else
    (create_object (dump rasp_result_ins) (get_hash rasp_result_ins)
       timestamp)
    (fun e => if is_IntegrityError e then ret false
              else raise DatabaseError)
    (ret true).

(** One item of the list [get_new_scan] returns:
    {"id": line.id, "data": RaspResult(line.data)}. *)
Record scan_item : Type := {
  item_id : Z;
  item_data : string
}.

(** [get_new_scan] (lines 131-186); [count] is the LIMIT of the claiming
    UPDATE, a natural number. *)
Definition get_new_scan (count : nat) : M state (list scan_item) :=
  self_start_id <- get_start_id ;;
  try_except
    (data0 <- execute_select (fun t =>
         firstn 1 (select_where
                     (fun r => (id r >? self_start_id)
                               && (scan_status r =? 0)) t)) ;;
     match data0 with
     | [] => ret []
     | first :: _ =>
         let fetch_star_id := id first in
         row_count <- execute (update_limit
                         (fun r => (scan_status r =? 0)
                                   && (id r >? self_start_id))
                         2 count) ;;
         if Nat.eqb row_count 0 then ret []
         else
           data1 <- execute_select (fun t =>
               firstn row_count
                 (select_where
                    (fun r => (id r >=? fetch_star_id)
                              && (scan_status r =? 2)) t)) ;;
           ret (map (fun line =>
                       {| item_id := id line; item_data := data line |})
                    data1)
     end)
    (fun _ => raise DatabaseError).

(** [mark_result] (lines 188-237) *)
Definition mark_result (last_id : Z) (failed_list : list Z)
  : M state unit :=
  self_start_id <- get_start_id ;;
  if last_id >? self_start_id then
    try_except
      (execute_update (update_where
         (fun r => (id r <=? last_id) && (id r >? self_start_id)
                   && mem (id r) failed_list) 3))
      (fun _ => raise DatabaseError) ;;
    try_except
      (execute_update (update_where
         (fun r => (id r <=? last_id) && (id r >? self_start_id)
                   && (scan_status r =? 2)) 1))
      (fun _ => raise DatabaseError) ;;
    result <- try_except
                (scalar (select_max_id
                           (fun r => (id r >? self_start_id)
                                     && (scan_status r =? 1))))
                (fun _ => raise DatabaseError) ;;
    match result with
    | Some m => modify (set_start_id m)
    | None => ret tt
    end
  else ret tt.

(** *** Sequences of calls *)

(** The calls a client makes on one instance. *)
Inductive op : Type :=
| Put (rasp_result_ins : RaspResult) (timestamp : Z)
| GetNewScan (count : nat)
| MarkResult (last_id : Z) (failed_list : list Z)
| ResetUnscannedItem.

(** The state one call leaves behind, whether it returned or raised. *)
Definition step (o : op) (s : state) : state :=
  match o with
  | Put r ts => final (put r ts s)
  | GetNewScan count => final (get_new_scan count s)
  | MarkResult last_id failed_list => final (mark_result last_id failed_list s)
  | ResetUnscannedItem => final (reset_unscanned_item s)
  end.

Definition run (ops : list op) (s : state) : state :=
  fold_left (fun s o => step o s) ops s.

Definition is_reset (o : op) : bool :=
  match o with ResetUnscannedItem => true | _ => false end.

(** An instance about to be constructed over the table [t]: [start_id]
    does not exist before [__init__] assigns it; the field holds 0 until
    then. *)
Definition connect (t : list ResultList) (auto : Z)
  (f : list (option exn)) : state :=
  {| rows := t; auto_increment := auto; start_id := 0; faults := f |}.

(** Modelled from the spec: the call site of [reset_unscanned_item] is
    outside the two files; section 4.2 has the owner of the queue construct
    the model (step 2, [_init_start_id]) and then call
    [reset_unscanned_item] once (step 3). *)
Definition startup : M state unit :=
  __init__ ;; reset_unscanned_item.

(** *** The scenarios of the design document *)

Definition sample (h : string) : RaspResult :=
  {| dump := String.append "request " h; get_hash := h |}.

(** A queue opened on an empty table, the driver healthy. *)
Definition empty_queue : state := final (startup (connect [] 1 [])).

(** S2: ids 1-5 inserted. *)
Definition S2_inserted : state :=
  run [Put (sample "a") 100; Put (sample "b") 101; Put (sample "c") 102;
       Put (sample "d") 103; Put (sample "e") 104] empty_queue.

(** S3: ids 1-4 inserted and all dispatched. *)
Definition S3_dispatched : state :=
  run [Put (sample "a") 100; Put (sample "b") 101; Put (sample "c") 102;
       Put (sample "d") 103; GetNewScan 4] empty_queue.

(** S4: ids 1-3 dispatched, then the process dies; the table it leaves. *)
Definition S4_crashed : state :=
  run [Put (sample "a") 100; Put (sample "b") 101; Put (sample "c") 102;
       GetNewScan 3] empty_queue.

(** Three records dispatched; 1 and 2 failed, 3 was scanned. *)
Definition two_failed_one_scanned : state :=
  run [Put (sample "a") 100; Put (sample "b") 101; Put (sample "c") 102;
       GetNewScan 3; MarkResult 3 [1; 2]] empty_queue.

(** *** Well-formed tables *)

(** The primary key: ids are positive and the rows are held in ascending
    id order. *)
Fixpoint ascending (lo : Z) (l : list Z) : Prop :=
  match l with
  | [] => True
  | x :: l' => lo < x /\ ascending x l'
  end.

(** What the schema and AUTO_INCREMENT guarantee of a table: positive,
    ascending ids below the counter, and a scan_status among the four
    documented codes. *)
Definition wf_rows (t : list ResultList) (auto : Z) : Prop :=
  ascending 0 (map id t) /\
  0 < auto /\
  (forall r, In r t -> id r < auto) /\
  (forall r, In r t -> 0 <= scan_status r <= 3).

Definition wf (s : state) : Prop := wf_rows (rows s) (auto_increment s).

(** The same, as a test that computes. *)
Fixpoint ascendingb (lo : Z) (l : list Z) : bool :=
  match l with
  | [] => true
  | x :: l' => (lo <? x) && ascendingb x l'
  end.

Definition wf_rowsb (t : list ResultList) (auto : Z) : bool :=
  ascendingb 0 (map id t) && (0 <? auto) &&
  forallb (fun r => id r <? auto) t &&
  forallb (fun r => (0 <=? scan_status r) && (scan_status r <=? 3)) t.

(** No statement sent from now on fails in the driver. *)
Definition healthy (s : state) : Prop :=
  Forall (fun f => f = None) (faults s).

(** Two rows that differ at most in scan_status. *)
Definition same_record (r r' : ResultList) : Prop :=
  id r' = id r /\ data r' = data r /\ data_hash r' = data_hash r /\
  time r' = time r.

(** A call keeps every record, in place, and may add records at the end. *)
Definition keeps (t t' : list ResultList) : Prop :=
  exists kept added, t' = kept ++ added /\ Forall2 same_record t kept.

(** [m] is the largest id above [start] that carries SCANNED. *)
Definition max_scanned_above (t : list ResultList) (start m : Z) : Prop :=
  (exists r, In r t /\ id r = m /\ start < m /\ scan_status r = SCANNED) /\
  (forall r, In r t -> start < id r -> scan_status r = SCANNED ->
             id r <= m).

(** The batch up to [last_id] ends in a run of failures that starts at the
    record [r]: every record with an id from [id r] to [last_id] is named
    in [failed_list]. *)
Definition failed_tail (t : list ResultList) (last_id : Z)
  (failed_list : list Z) (r : ResultList) : Prop :=
  In r t /\ id r <= last_id /\
  forall u, In u t -> id r <= id u <= last_id -> In (id u) failed_list.

(** No record above [last_id] carries SCANNED. *)
Definition none_scanned_above (t : list ResultList) (last_id : Z) : Prop :=
  forall u, In u t -> last_id < id u -> scan_status u <> SCANNED.

(** [m] is the smallest id whose record is not SCANNED. *)
Definition min_not_scanned (t : list ResultList) (m : Z) : Prop :=
  (exists r, In r t /\ id r = m /\ scan_status r <> SCANNED) /\
  (forall r, In r t -> scan_status r <> SCANNED -> m <= id r).

(** *** The cursor property and what keeps it *)

(** Every record at or below the cursor is SCANNED or FAILED. *)
Definition cursor_closed (t : list ResultList) (start : Z) : Prop :=
  forall r, In r t -> id r <= start ->
            scan_status r = SCANNED \/ scan_status r = FAILED.

(** Every record at or below a SCANNED record is SCANNED or FAILED. *)
Definition settled_below_scanned (t : list ResultList) : Prop :=
  forall u r, In u t -> In r t -> scan_status r = SCANNED ->
              id u <= id r ->
              scan_status u = SCANNED \/ scan_status u = FAILED.

(** Records are claimed in id order: every IN_PROGRESS record has a
    smaller id than every UNSCANNED one. *)
Definition claimed_before_unscanned (t : list ResultList) : Prop :=
  forall u p, In u t -> In p t -> scan_status u = UNSCANNED ->
              scan_status p = IN_PROGRESS -> id p < id u.

Definition table_inv (t : list ResultList) (auto start : Z) : Prop :=
  wf_rows t auto /\ start < auto /\
  cursor_closed t start /\
  settled_below_scanned t /\
  claimed_before_unscanned t.

Definition queue_inv (s : state) : Prop :=
  table_inv (rows s) (auto_increment s) (start_id s).

(** The SCANNED records of the table form a prefix: every record at or
    below a SCANNED record is SCANNED. *)
Definition scanned_prefix (t : list ResultList) : Prop :=
  forall u r, In u t -> In r t -> scan_status r = SCANNED ->
              id u <= id r -> scan_status u = SCANNED.

(** *** The remaining methods of NewRequestModel *)

(** [_create_model] (lines 42-63): the name of the table behind a model,
    [table_prefix + "_" + "ResultList"]. *)
Definition table_name (table_prefix : string) : string :=
  String.append (String.append table_prefix "_") "ResultList".

(** SELECT COUNT(id) WHERE p *)
Definition select_count (p : ResultList -> bool) (t : list ResultList)
  : option Z :=
  Some (Z.of_nat (List.length (filter p t))).

(** [get_scan_count] (lines 239-272): the pair (total, scanned). *)
Definition get_scan_count : M state (Z * Z) :=
  result <- try_except
              (scalar (select_count (fun r => scan_status r =? 1)))
              (fun _ => raise DatabaseError) ;;
  let scanned := match result with None => 0 | Some n => n end in
  result <- try_except
              (scalar (select_count (fun _ => true)))
              (fun _ => raise DatabaseError) ;;
  let total := match result with None => 0 | Some n => n end in
  ret (total, scanned).

(** ORDER BY time DESC: rows with equal time stay in storage order. *)
Fixpoint insert_by_time_desc (r : ResultList) (l : list ResultList)
  : list ResultList :=
  match l with
  | [] => [r]
  | x :: l' =>
      if time x <=? time r then r :: x :: l'
      else x :: insert_by_time_desc r l'
  end.

Definition order_by_time_desc (t : list ResultList) : list ResultList :=
  fold_right insert_by_time_desc [] t.

(** [get_last_time] (lines 274-296): the query is executed twice inside
    one [try]; the rows of the second execution are used. *)
Definition get_last_time : M state Z :=
  data <- try_except
            (result <- execute_select
                         (fun t => firstn 1 (order_by_time_desc t)) ;;
             data <- execute_select
                       (fun t => firstn 1 (order_by_time_desc t)) ;;
             ret data)
            (fun _ => raise DatabaseError) ;;
  match data with
  | [] => ret 0
  | first :: _ => ret (time first)
  end.

(** *** What a call may do to the status of a record *)

(** The status changes a call can make: [put] none; [get_new_scan]
    UNSCANNED to IN_PROGRESS; [mark_result] anything to FAILED, or
    IN_PROGRESS to SCANNED; [reset_unscanned_item] IN_PROGRESS, FAILED (any
    code above 1) to UNSCANNED. *)
Definition transition (o : op) (v v' : Z) : Prop :=
  v' = v \/
  match o with
  | Put _ _ => False
  | GetNewScan _ => v = UNSCANNED /\ v' = IN_PROGRESS
  | MarkResult _ _ => v' = FAILED \/ (v = IN_PROGRESS /\ v' = SCANNED)
  | ResetUnscannedItem => 1 < v /\ v' = UNSCANNED
  end.

(** What one call may do to one record: no field but scan_status changes,
    the status changes as [transition] allows, and [get_new_scan] and
    [mark_result] leave a record at or below the cursor [start] alone. *)
Definition row_step (o : op) (start : Z) (r r' : ResultList) : Prop :=
  same_record r r' /\
  transition o (scan_status r) (scan_status r') /\
  match o with
  | GetNewScan _ | MarkResult _ _ => id r <= start -> r' = r
  | _ => True
  end.

(** No two rows share a data_hash. *)
Definition unique_hashes (t : list ResultList) : Prop :=
  NoDup (map data_hash t).

End NewRequestModel.

(** ** The HTTP probe session: core/components/audit_tools/session.py *)

Module Session.

(** What [getattr(self.session, name)] finds on the aiohttp.ClientSession
    object: a coroutine method that issues a request with that verb,
    another bound method, or an attribute that is not callable. *)
Inductive attribute : Type :=
| HttpVerb
| BoundMethod
| DataAttribute.

Definition one_of (name : string) (l : list string) : bool :=
  existsb (String.eqb name) l.

(** The public attributes of aiohttp.ClientSession (the library is outside
    the repository). *)
Definition ClientSession (name : string) : option attribute :=
  if one_of name ["get"; "post"; "put"; "delete"; "head"; "options";
                  "patch"]%string
  then Some HttpVerb
  else if one_of name ["request"; "ws_connect"; "close"; "detach"]%string
  then Some BoundMethod
  else if one_of name ["closed"; "connector"; "cookie_jar"; "version";
                       "loop"; "timeout"; "headers"; "auth"]%string
  then Some DataAttribute
  else None.

(** The dict [send_request] returns. *)
Record response_dict : Type := {
  status : Z;
  headers : list (string * string);
  body : string
}.

(** request_data.RequestData, as far as [send_request] uses it. *)
Record RequestData : Type := {
  get_method : string;
  get_aiohttp_param : list (string * string)
}.

(** How one call of a verb coroutine ends: the response arrives and its
    body is read to the end, or the [async with] block raises. *)
Inductive wire : Type :=
| Responds (r : response_dict)
| Breaks (e : exn).

Inductive level : Type := Debug | Info | Error.

(** The session object and its surroundings: the attributes of
    [self.session], the configured "scanner.retry_times", what aiohttp and
    the network make of the n-th call of [http_func] when it is a verb
    (how the call ends, and how many requests it puts on the wire on the
    way: none when it raises before any I/O, more than one when aiohttp
    sends the request again), and what has happened so far: calls of
    [http_func], requests put on the wire, seconds slept, log records. *)
Record world : Type := {
  session : string -> option attribute;
  retry_times_config : Z;
  transport : nat -> wire;
  on_wire : nat -> nat;
  attempts : nat;
  requests_sent : nat;
  slept : Z;
  log : list level
}.

(** [getattr(self.session, name)] *)
Definition getattr (name : string) : M world attribute :=
  fun w => match session w name with
           | Some a => (Return a, w)
           | None => (Raise AttributeError, w)
           end.

(** [Config().get_config("scanner.retry_times")] *)
Definition get_config_retry_times : M world Z :=
  w <- get ;; ret (retry_times_config w).

Definition Logger (l : level) : M world unit :=
  modify (fun w =>
    {| session := session w; retry_times_config := retry_times_config w;
       transport := transport w; on_wire := on_wire w;
       attempts := attempts w;
       requests_sent := requests_sent w; slept := slept w;
       log := log w ++ [l] |}).

(** [await asyncio.sleep(n)] *)
Definition sleep (n : Z) : M world unit :=
  modify (fun w =>
    {| session := session w; retry_times_config := retry_times_config w;
       transport := transport w; on_wire := on_wire w;
       attempts := attempts w;
       requests_sent := requests_sent w; slept := slept w + n;
       log := log w |}).

(** The body of the [try] (lines 78-84):
    [http_func] called with the request's parameters, allow_redirects=False
    and ssl=False, and the read of the body.  How the call of a verb ends,
    and what it puts on the wire before it does, is for aiohttp and the
    network to decide; any other attribute cannot be called with these
    keyword arguments and raises TypeError without touching the network. *)
Definition call (http_func : attribute) : M world response_dict :=
  fun w =>
    match http_func with
    | HttpVerb =>
        let w' :=
          {| session := session w;
             retry_times_config := retry_times_config w;
             transport := transport w; on_wire := on_wire w;
             attempts := S (attempts w);
             requests_sent := requests_sent w + on_wire w (attempts w);
             slept := slept w; log := log w |} in
        match transport w (attempts w) with
        | Responds r => (Return r, w')
        | Breaks e => (Raise e, w')
        end
    | _ =>
        (Raise TypeError,
         {| session := session w;
            retry_times_config := retry_times_config w;
            transport := transport w; on_wire := on_wire w;
            attempts := S (attempts w);
            requests_sent := requests_sent w; slept := slept w;
            log := log w |})
    end.

(** The two [except] clauses (lines 86-93) up to [retry_times -= 1]:
    a transport error is logged at INFO, anything else at ERROR; both
    sleep one second. *)
Definition except_clause (e : exn) : M world unit :=
  (if is_transport_error e then Logger Info else Logger Error) ;;
  sleep 1.

(** The [while retry_times >= 0] loop (lines 76-93); it yields the loop
    variables [retry_times] and [response] as they are when the loop is
    left ([response] is None while the name is unbound). *)
Function while_retry (http_func : attribute) (retry_times : Z)
  (response : option response_dict) (w : world)
  {measure (fun rt => Z.to_nat (rt + 1)) retry_times}
  : result (Z * option response_dict) * world :=
  if retry_times >=? 0 then
    match call http_func w with
    | (Return r, w1) => (Return (retry_times, Some r), w1)      (* break *)
    | (Raise e, w1) =>
        match except_clause e w1 with
        | (Return _, w2) =>
            while_retry http_func (retry_times - 1) response w2
        | (Raise e', w2) => (Raise e', w2)
        end
    end
  else (Return (retry_times, response), w).
Proof. intros. apply Z.geb_le in teq. lia. Defined.

(** [send_request] (lines 55-97) *)
Definition send_request (request_data_ins : RequestData)
  : M world response_dict :=
  http_func <- getattr (get_method request_data_ins) ;;
  Logger Debug ;;
  retry_times <- get_config_retry_times ;;
  p <- while_retry http_func retry_times None ;;
  if fst p >=? 0 then
    match snd p with
    | Some response => ret response
    | None => raise UnboundLocalError
    end
  else raise ScanRequestFailed.

(** The world after one failed pass through the loop body: the call,
    which put [sent] requests on the wire, the log record, the sleep. *)
Definition failed_attempt (sent : nat) (e : exn) (w : world) : world :=
  {| session := session w; retry_times_config := retry_times_config w;
     transport := transport w; on_wire := on_wire w;
     attempts := S (attempts w);
     requests_sent := requests_sent w + sent;
     slept := slept w + 1;
     log := log w ++ [if is_transport_error e then Info else Error] |}.

(** The level of the log record a failed pass leaves: INFO for a timeout
    or client error of the call of a verb, ERROR otherwise. *)
Definition level_of (a : attribute) (x : wire) : level :=
  match a, x with
  | HttpVerb, Breaks e => if is_transport_error e then Info else Error
  | _, _ => Error
  end.

(** The session object, the configuration and the network are the same. *)
Definition same_surroundings (w w' : world) : Prop :=
  session w' = session w /\
  retry_times_config w' = retry_times_config w /\
  transport w' = transport w /\
  on_wire w' = on_wire w.

(** The requests that the [k] calls of a verb from call number [n] on put
    on the wire. *)
Definition requests_of (w : world) (n k : nat) : nat :=
  list_sum (map (fun j => on_wire w (n + j)%nat) (seq 0 k)).

(** *** The scenarios of the design document *)

Definition ok_200 : response_dict :=
  {| status := 200; headers := [("Content-Type", "text/html")]%string;
     body := "<html></html>"%string |}.

(** S5: the first two calls time out, the third is answered with 200;
    each puts its one request on the wire. *)
Definition S5_transport (n : nat) : wire :=
  match n with
  | O | S O => Breaks TimeoutError
  | _ => Responds ok_200
  end.

Definition S5_world (retry_times : Z) : world :=
  {| session := ClientSession; retry_times_config := retry_times;
     transport := S5_transport; on_wire := fun _ => 1%nat;
     attempts := 0; requests_sent := 0;
     slept := 0; log := [] |}.

(** A call that raises while its arguments are bound, before anything is
    sent, and then a call whose request aiohttp sends twice before the
    answer arrives. *)
Definition uneven_world : world :=
  {| session := ClientSession; retry_times_config := 2;
     transport := fun n => match n with
                           | O => Breaks TypeError
                           | _ => Responds ok_200
                           end;
     on_wire := fun n => match n with O => 0 | _ => 2 end%nat;
     attempts := 0; requests_sent := 0; slept := 0; log := [] |}.

Definition request (method : string) : RequestData :=
  {| get_method := method;
     get_aiohttp_param := [("url", "http://127.0.0.1/")]%string |}.

End Session.

(** ** Properties of the request queue *)

Module NewRequestModelFacts.
Import NewRequestModel.

(** The WHERE clauses of [mark_result] and of [get_new_scan], as the
    methods write them. *)
Abbreviation failed_in_range start last failed :=
  (fun r => (id r <=? last) && (id r >? start) && mem (id r) failed).
Abbreviation in_progress_in_range start last :=
  (fun r => (id r <=? last) && (id r >? start) && (scan_status r =? 2)).
Abbreviation scanned_above start :=
  (fun r => (id r >? start) && (scan_status r =? 1)).
Abbreviation unscanned_above start :=
  (fun r => (id r >? start) && (scan_status r =? 0)).
Abbreviation claimable start :=
  (fun r => (scan_status r =? 0) && (id r >? start)).
Abbreviation claimed_from fetch_star_id :=
  (fun r => (id r >=? fetch_star_id) && (scan_status r =? 2)).
Abbreviation not_scanned := (fun r => negb (scan_status r =? 1)).
Abbreviation beyond_scanned := (fun r => scan_status r >? 1).

(** *** Facts about ascending lists *)

Lemma ascending_weaken lo lo' l :
  lo' <= lo -> ascending lo l -> ascending lo' l.
Proof.
  destruct l as [|x l]; simpl; [trivial|].
  intros Hle [Hlt Hasc]. split; [lia | assumption].
Qed.

Lemma ascending_In lo l x : ascending lo l -> In x l -> lo < x.
Proof.
  revert lo. induction l as [|y l IH]; simpl; intros lo Hasc Hin.
  - contradiction.
  - destruct Hasc as [Hlt Hasc]. destruct Hin as [->|Hin]; [assumption|].
    specialize (IH y Hasc Hin). lia.
Qed.

Lemma ascending_app lo l1 l2 :
  ascending lo (l1 ++ l2) ->
  ascending lo l1 /\ ascending lo l2 /\
  forall x y, In x l1 -> In y l2 -> x < y.
Proof.
  revert lo. induction l1 as [|a l1 IH]; simpl; intros lo H.
  - repeat split; [assumption | intros x y []].
  - destruct H as [Hlt H]. destruct (IH a H) as (H1 & H2 & H3).
    repeat split; try assumption.
    + apply ascending_weaken with a; [lia | assumption].
    + intros x y [<-|Hx] Hy.
      * apply ascending_In with l2; assumption.
      * apply H3; assumption.
Qed.

Lemma ascending_snoc lo l x :
  ascending lo l -> lo < x -> (forall y, In y l -> y < x) ->
  ascending lo (l ++ [x]).
Proof.
  revert lo. induction l as [|a l IH]; simpl; intros lo Hasc Hlo Hall.
  - split; [assumption | exact I].
  - destruct Hasc as [Hlt Hasc]. split; [assumption|].
    apply IH; [assumption | apply Hall; now left |].
    intros y Hy. apply Hall. now right.
Qed.

Lemma ascending_lower lo lo' l :
  ascending lo l -> (forall x, In x l -> lo' < x) -> ascending lo' l.
Proof.
  destruct l as [|a l]; simpl; [trivial|].
  intros [_ H] Hall. split; [apply Hall; now left | assumption].
Qed.

Lemma ascendingb_sound lo l : ascendingb lo l = true -> ascending lo l.
Proof.
  revert lo. induction l as [|a l IH]; simpl; intros lo H; [exact I|].
  apply andb_true_iff in H. destruct H as [H1 H2].
  split; [now apply Z.ltb_lt | now apply IH].
Qed.

Lemma wf_rowsb_sound t auto : wf_rowsb t auto = true -> wf_rows t auto.
Proof.
  unfold wf_rowsb, wf_rows. rewrite !andb_true_iff.
  intros [[[H1 H2] H3] H4]. rewrite forallb_forall in H3, H4.
  split; [now apply ascendingb_sound|].
  split; [now apply Z.ltb_lt|]. split.
  - intros r Hr. apply Z.ltb_lt. now apply H3.
  - intros r Hr. specialize (H4 r Hr). apply andb_true_iff in H4.
    destruct H4 as [Ha Hb]. apply Z.leb_le in Ha, Hb. lia.
Qed.

(** *** Facts about the statements *)

Lemma select_min_id_None p t :
  select_min_id p t = None <-> forall r, In r t -> p r = false.
Proof.
  unfold select_min_id. induction t as [|a t IH]; simpl.
  - split; [intros _ r [] | reflexivity].
  - destruct (p a) eqn:Ea; simpl.
    + split.
      * destruct (fold_right _ _ _); discriminate.
      * intros H. specialize (H a (or_introl eq_refl)). congruence.
    + rewrite IH. split.
      * intros H r [<-|Hr]; [assumption | now apply H].
      * intros H r Hr. apply H. now right.
Qed.

Lemma select_min_id_Some p t m :
  select_min_id p t = Some m ->
  (exists r, In r t /\ p r = true /\ id r = m) /\
  (forall r, In r t -> p r = true -> m <= id r).
Proof.
  unfold select_min_id. revert m. induction t as [|a t IH]; simpl; intros m.
  - discriminate.
  - destruct (p a) eqn:Ea; simpl.
    + destruct (fold_right _ _ _) as [m'|] eqn:Ef; simpl; intros [= <-].
      * destruct (IH m' eq_refl) as [(r & Hr & Hp & Hid) Hmin]. split.
        -- destruct (Z.min_spec (id a) m') as [[_ ->]|[_ ->]].
           ++ exists a. auto.
           ++ exists r. auto.
        -- intros r' [<-|Hr'] Hp'; [lia|].
           specialize (Hmin r' Hr' Hp'). lia.
      * split; [exists a; auto|].
        intros r' [<-|Hr'] Hp'; [lia|].
        assert (Hn : select_min_id p t = None) by exact Ef.
        rewrite select_min_id_None in Hn. rewrite (Hn r' Hr') in Hp'.
        discriminate.
    + intros H. destruct (IH m H) as [(r & Hr & Hp & Hid) Hmin]. split.
      * exists r. auto.
      * intros r' [<-|Hr'] Hp'; [congruence | now apply Hmin].
Qed.

Lemma select_max_id_None p t :
  select_max_id p t = None <-> forall r, In r t -> p r = false.
Proof.
  unfold select_max_id. induction t as [|a t IH]; simpl.
  - split; [intros _ r [] | reflexivity].
  - destruct (p a) eqn:Ea; simpl.
    + split.
      * destruct (fold_right _ _ _); discriminate.
      * intros H. specialize (H a (or_introl eq_refl)). congruence.
    + rewrite IH. split.
      * intros H r [<-|Hr]; [assumption | now apply H].
      * intros H r Hr. apply H. now right.
Qed.

Lemma select_max_id_Some p t m :
  select_max_id p t = Some m ->
  (exists r, In r t /\ p r = true /\ id r = m) /\
  (forall r, In r t -> p r = true -> id r <= m).
Proof.
  unfold select_max_id. revert m. induction t as [|a t IH]; simpl; intros m.
  - discriminate.
  - destruct (p a) eqn:Ea; simpl.
    + destruct (fold_right _ _ _) as [m'|] eqn:Ef; simpl; intros [= <-].
      * destruct (IH m' eq_refl) as [(r & Hr & Hp & Hid) Hmax]. split.
        -- destruct (Z.max_spec (id a) m') as [[_ ->]|[_ ->]].
           ++ exists r. auto.
           ++ exists a. auto.
        -- intros r' [<-|Hr'] Hp'; [lia|].
           specialize (Hmax r' Hr' Hp'). lia.
      * split; [exists a; auto|].
        intros r' [<-|Hr'] Hp'; [lia|].
        assert (Hn : select_max_id p t = None) by exact Ef.
        rewrite select_max_id_None in Hn. rewrite (Hn r' Hr') in Hp'.
        discriminate.
    + intros H. destruct (IH m H) as [(r & Hr & Hp & Hid) Hmax]. split.
      * exists r. auto.
      * intros r' [<-|Hr'] Hp'; [congruence | now apply Hmax].
Qed.

Lemma mem_In x l : mem x l = true <-> In x l.
Proof.
  unfold mem. rewrite existsb_exists. split.
  - intros (y & Hy & Heq). apply Z.eqb_eq in Heq. now subst.
  - intros H. exists x. split; [assumption | apply Z.eqb_refl].
Qed.

Lemma update_where_ids p v t : map id (update_where p v t) = map id t.
Proof.
  unfold update_where. rewrite map_map. apply map_ext.
  intros r. now destruct (p r).
Qed.

Lemma update_where_In p v t r' :
  In r' (update_where p v t) <->
  exists r, In r t /\ r' = (if p r then set_status v r else r).
Proof.
  unfold update_where. rewrite in_map_iff. split.
  - intros (r & <- & Hr). eauto.
  - intros (r & Hr & ->). eauto.
Qed.

Lemma update_where_same p v t :
  Forall2 same_record t (update_where p v t).
Proof.
  induction t as [|a t IH]; simpl; constructor; [|assumption].
  unfold same_record. destruct (p a); simpl; auto.
Qed.

Lemma update_limit_ids p v n t :
  map id (snd (update_limit p v n t)) = map id t.
Proof.
  revert n. induction t as [|a t IH]; intros [|n]; simpl; try reflexivity.
  destruct (p a).
  - specialize (IH n). destruct (update_limit p v n t) as [k u].
    simpl in *. now rewrite IH.
  - specialize (IH (S n)). destruct (update_limit p v (S n) t) as [k u].
    simpl in *. now rewrite IH.
Qed.

Lemma same_record_refl r : same_record r r.
Proof. unfold same_record. auto. Qed.

Lemma Forall2_same_refl t : Forall2 same_record t t.
Proof. induction t; constructor; auto using same_record_refl. Qed.

Lemma update_limit_same p v n t :
  Forall2 same_record t (snd (update_limit p v n t)).
Proof.
  revert n. induction t as [|a t IH]; intros [|n]; simpl;
    try apply Forall2_same_refl.
  destruct (p a).
  - specialize (IH n). destruct (update_limit p v n t) as [k u].
    simpl in *. constructor; [|assumption]. unfold same_record. simpl. auto.
  - specialize (IH (S n)). destruct (update_limit p v (S n) t) as [k u].
    simpl in *. constructor; [apply same_record_refl | assumption].
Qed.

(** The limited update is the unlimited one on a prefix of the table; it
    stops short of [n] rows only when the table is exhausted. *)
Lemma update_limit_shape p v n t :
  exists t1 t2,
    t = t1 ++ t2 /\
    snd (update_limit p v n t) = update_where p v t1 ++ t2 /\
    fst (update_limit p v n t) = List.length (filter p t1) /\
    (fst (update_limit p v n t) <= n)%nat /\
    ((fst (update_limit p v n t) < n)%nat -> t2 = []).
Proof.
  revert n. induction t as [|a t IH]; intros n.
  - exists [], []. destruct n; simpl; repeat split; auto; lia.
  - destruct n as [|n].
    + exists [], (a :: t). simpl. repeat split; auto; lia.
    + simpl. destruct (p a) eqn:Ea.
      * destruct (IH n) as (t1 & t2 & Ht & Hu & Hk & Hle & Hlt).
        destruct (update_limit p v n t) as [k u]. simpl in *.
        exists (a :: t1), t2. simpl. rewrite Ea. simpl.
        repeat split; try congruence; try lia.
        intros H. apply Hlt. lia.
      * destruct (IH (S n)) as (t1 & t2 & Ht & Hu & Hk & Hle & Hlt).
        destruct (update_limit p v (S n) t) as [k u]. simpl in *.
        exists (a :: t1), t2. simpl. rewrite Ea. simpl.
        repeat split; try congruence; try lia; assumption.
Qed.

Lemma update_limit_In p v n t r' :
  In r' (snd (update_limit p v n t)) ->
  exists r, In r t /\ (r' = r \/ (p r = true /\ r' = set_status v r)).
Proof.
  destruct (update_limit_shape p v n t) as (t1 & t2 & Ht & Hu & _).
  rewrite Hu, Ht. intros H. apply in_app_or in H. destruct H as [H|H].
  - apply update_where_In in H. destruct H as (r & Hr & ->).
    exists r. split; [apply in_or_app; now left|].
    destruct (p r); auto.
  - exists r'. split; [apply in_or_app; now right | now left].
Qed.

Lemma ascending_filter {A} (f : A -> Z) p lo (t : list A) :
  ascending lo (map f t) -> ascending lo (map f (filter p t)).
Proof.
  revert lo. induction t as [|a t IH]; simpl; intros lo H; [exact I|].
  destruct H as [Hlt H]. destruct (p a); simpl.
  - split; [assumption | now apply IH].
  - apply IH. apply ascending_weaken with (f a); [lia | assumption].
Qed.

Lemma ascending_firstn lo n l : ascending lo l -> ascending lo (firstn n l).
Proof.
  revert lo n. induction l as [|a l IH]; intros lo [|n]; simpl; auto.
  intros [Hlt H]. split; [assumption | now apply IH].
Qed.

(** When nothing IN_PROGRESS lies at or above [f], and everything
    claimable does, the fetch of [get_new_scan] reads back exactly the rows
    its claim has just marked. *)
Lemma fetch_after_claim start f n t :
  (forall r, In r t -> claimable start r = true -> f <= id r) ->
  (forall r, In r t -> scan_status r = 2 -> id r < f) ->
  firstn (fst (update_limit (claimable start) 2 n t))
    (filter (claimed_from f) (snd (update_limit (claimable start) 2 n t)))
  = map (set_status 2) (firstn n (filter (claimable start) t)) /\
  fst (update_limit (claimable start) 2 n t)
  = List.length (firstn n (filter (claimable start) t)).
Proof.
  revert n. induction t as [|a t IH]; intros n Hlow Hnone.
  - destruct n; simpl; auto.
  - destruct n as [|n]; [simpl; auto|].
    assert (Hlow' : forall r, In r t -> claimable start r = true ->
                              f <= id r)
      by (intros r Hr; apply Hlow; now right).
    assert (Hnone' : forall r, In r t -> scan_status r = 2 -> id r < f)
      by (intros r Hr; apply Hnone; now right).
    simpl. destruct ((scan_status a =? 0) && (id a >? start)) eqn:Ea.
    + specialize (IH n Hlow' Hnone'). destruct IH as [IH1 IH2].
      destruct (update_limit (claimable start) 2 n t) as [k u].
      simpl in *.
      assert (Hge : (id a >=? f) = true).
      { specialize (Hlow a (or_introl eq_refl) Ea).
        destruct (Z.geb_spec (id a) f); [reflexivity | lia]. }
      rewrite Hge. simpl. rewrite IH1, IH2. auto.
    + specialize (IH (S n) Hlow' Hnone'). destruct IH as [IH1 IH2].
      destruct (update_limit (claimable start) 2 (S n) t) as [k u].
      simpl in *.
      assert (Hcf : (id a >=? f) && (scan_status a =? 2) = false).
      { destruct (Z.eqb_spec (scan_status a) 2) as [E|E];
          [|apply andb_false_r].
        specialize (Hnone a (or_introl eq_refl) E).
        destruct (Z.geb_spec (id a) f); [lia | reflexivity]. }
      rewrite Hcf. auto.
Qed.

Lemma filter_map_swap {A B} (p : B -> bool) (g : A -> B) (l : list A) :
  filter p (map g l) = map g (filter (fun x => p (g x)) l).
Proof.
  induction l as [|a l IH]; simpl; [reflexivity|].
  destruct (p (g a)); simpl; now rewrite IH.
Qed.

Lemma ascending_head_least lo x l y :
  ascending lo (x :: l) -> In y (x :: l) -> x <= y.
Proof.
  simpl. intros [_ H] [->|Hy]; [lia|].
  pose proof (ascending_In _ _ _ H Hy). lia.
Qed.

(** *** The invariant is kept by each statement *)

Ltac statuses := unfold UNSCANNED, SCANNED, IN_PROGRESS, FAILED in *.

(** One goal for each of the five parts of [table_inv]. *)
Ltac split_inv := split; [|split; [|split; [|split]]].

Lemma wf_rows_restatus t t' auto :
  map id t' = map id t ->
  (forall r', In r' t' -> 0 <= scan_status r' <= 3) ->
  wf_rows t auto -> wf_rows t' auto.
Proof.
  intros Hids Hst (Hasc & Hauto & Hlt & _).
  repeat split; try apply Hst; try assumption.
  - now rewrite Hids.
  - intros r' Hr'. apply (in_map id) in Hr'. rewrite Hids in Hr'.
    apply in_map_iff in Hr'. destruct Hr' as (r & <- & Hr). now apply Hlt.
Qed.

Lemma wf_rows_update_where p v t auto :
  0 <= v <= 3 -> wf_rows t auto -> wf_rows (update_where p v t) auto.
Proof.
  intros Hv Hwf. apply wf_rows_restatus with t; [| |assumption].
  - apply update_where_ids.
  - intros r' Hr'. apply update_where_In in Hr'.
    destruct Hr' as (r & Hr & ->). destruct Hwf as (_ & _ & _ & Hst).
    destruct (p r); simpl; [lia | now apply Hst].
Qed.

Lemma wf_rows_update_limit p v n t auto :
  0 <= v <= 3 -> wf_rows t auto ->
  wf_rows (snd (update_limit p v n t)) auto.
Proof.
  intros Hv Hwf. apply wf_rows_restatus with t; [| |assumption].
  - apply update_limit_ids.
  - intros r' Hr'. apply update_limit_In in Hr'.
    destruct Hwf as (_ & _ & _ & Hst).
    destruct Hr' as (r & Hr & [->|[_ ->]]); simpl; [now apply Hst | lia].
Qed.

Lemma id_cond (b : bool) v r : id (if b then set_status v r else r) = id r.
Proof. now destruct b. Qed.

Lemma id_cond_status r :
  negb (scan_status (if scan_status r >? 1 then set_status 0 r else r)
        =? 1)
  = negb (scan_status r =? 1).
Proof.
  destruct (Z.gtb_spec (scan_status r) 1); cbn; [|reflexivity].
  destruct (Z.eqb_spec (scan_status r) 1); [lia | reflexivity].
Qed.

(** Step 1 of [mark_result]: the FAILED update. *)
Lemma table_inv_mark_failed t auto start last failed :
  table_inv t auto start ->
  table_inv
    (update_where (fun r => (id r <=? last) && (id r >? start)
                            && mem (id r) failed) 3 t)
    auto start.
Proof.
  intros (Hwf & Hlt & Hcur & Hset & Hclm).
  split_inv.
  - apply wf_rows_update_where; [lia | assumption].
  - assumption.
  - intros r' Hr' Hid. apply update_where_In in Hr'.
    destruct Hr' as (r & Hr & ->).
    destruct ((id r <=? last) && (id r >? start) && mem (id r) failed)
      eqn:E; simpl in *.
    + statuses. now right.
    + now apply Hcur.
  - intros u' r' Hu' Hr' Hst Hid.
    apply update_where_In in Hu'. destruct Hu' as (u & Hu & ->).
    apply update_where_In in Hr'. destruct Hr' as (r & Hr & ->).
    destruct ((id r <=? last) && (id r >? start) && mem (id r) failed);
      simpl in Hst; [statuses; discriminate|].
    destruct ((id u <=? last) && (id u >? start) && mem (id u) failed);
      simpl in *; [statuses; now right|].
    now apply (Hset u r).
  - intros u' p' Hu' Hp' Hsu Hsp.
    apply update_where_In in Hu'. destruct Hu' as (u & Hu & ->).
    apply update_where_In in Hp'. destruct Hp' as (p & Hp & ->).
    destruct ((id u <=? last) && (id u >? start) && mem (id u) failed);
      simpl in *; [statuses; discriminate|].
    destruct ((id p <=? last) && (id p >? start) && mem (id p) failed);
      simpl in *; [statuses; discriminate|].
    now apply Hclm.
Qed.

(** Step 2 of [mark_result]: the SCANNED update. *)
Lemma table_inv_mark_scanned t auto start last :
  table_inv t auto start ->
  table_inv
    (update_where (fun r => (id r <=? last) && (id r >? start)
                            && (scan_status r =? 2)) 1 t)
    auto start.
Proof.
  intros (Hwf & Hlt & Hcur & Hset & Hclm).
  split_inv.
  - apply wf_rows_update_where; [lia | assumption].
  - assumption.
  - intros r' Hr' Hid. apply update_where_In in Hr'.
    destruct Hr' as (r & Hr & ->).
    destruct ((id r <=? last) && (id r >? start) && (scan_status r =? 2))
      eqn:E; simpl in *.
    + statuses. now left.
    + now apply Hcur.
  - intros u' r' Hu' Hr' Hst Hid.
    apply update_where_In in Hu'. destruct Hu' as (u & Hu & ->).
    apply update_where_In in Hr'. destruct Hr' as (r & Hr & ->).
    rewrite !id_cond in Hid.
    destruct ((id u <=? last) && (id u >? start) && (scan_status u =? 2))
      eqn:Eu; simpl; [statuses; now left|].
    destruct ((id r <=? last) && (id r >? start) && (scan_status r =? 2))
      eqn:Er; simpl in Hst.
    + (* r was IN_PROGRESS inside the range *)
      apply andb_true_iff in Er. destruct Er as [Er Er2].
      apply andb_true_iff in Er. destruct Er as [Er0 Er1].
      apply Z.leb_le in Er0. apply Z.gtb_lt in Er1. apply Z.eqb_eq in Er2.
      destruct Hwf as (_ & _ & _ & Hrange).
      specialize (Hrange u Hu).
      assert (Hcases : scan_status u = 0 \/ scan_status u = 1 \/
                       scan_status u = 2 \/ scan_status u = 3) by lia.
      destruct Hcases as [H0|[H1|[H2|H3]]]; statuses; auto.
      * specialize (Hclm u r Hu Hr H0 Er2). lia.
      * destruct (Z_le_gt_dec (id u) start) as [Hle|Hgt].
        -- now apply Hcur.
        -- exfalso.
           assert (Hu' : (id u <=? last) && (id u >? start)
                         && (scan_status u =? 2) = true).
           { rewrite !andb_true_iff. repeat split.
             - apply Z.leb_le. lia.
             - apply Z.gtb_lt. lia.
             - now apply Z.eqb_eq. }
           congruence.
    + now apply (Hset u r).
  - intros u' p' Hu' Hp' Hsu Hsp.
    apply update_where_In in Hu'. destruct Hu' as (u & Hu & ->).
    apply update_where_In in Hp'. destruct Hp' as (p & Hp & ->).
    destruct ((id u <=? last) && (id u >? start) && (scan_status u =? 2));
      simpl in *; [statuses; discriminate|].
    destruct ((id p <=? last) && (id p >? start) && (scan_status p =? 2));
      simpl in *; [statuses; discriminate|].
    now apply Hclm.
Qed.

(** Step 3 of [mark_result]: the cursor moves to the largest SCANNED id
    above it. *)
Lemma table_inv_advance t auto start m :
  table_inv t auto start ->
  select_max_id (fun r => (id r >? start) && (scan_status r =? 1)) t
    = Some m ->
  start < m /\ table_inv t auto m.
Proof.
  intros (Hwf & Hlt & Hcur & Hset & Hclm) Hmax.
  apply select_max_id_Some in Hmax.
  destruct Hmax as [(rm & Hrm & Hp & Hid) _].
  apply andb_true_iff in Hp. destruct Hp as [Hgt Hst].
  apply Z.gtb_lt in Hgt. apply Z.eqb_eq in Hst. subst m.
  split; [assumption|]. split_inv; try assumption.
  - destruct Hwf as (_ & _ & Hauto & _). now apply Hauto.
  - intros u Hu Hle. now apply (Hset u rm).
Qed.

(** Step 2 of [get_new_scan]: the claim. *)
Lemma table_inv_claim t auto start n :
  table_inv t auto start ->
  table_inv
    (snd (update_limit (fun r => (scan_status r =? 0) && (id r >? start))
            2 n t))
    auto start.
Proof.
  intros (Hwf & Hlt & Hcur & Hset & Hclm).
  split_inv.
  - apply wf_rows_update_limit; [lia | assumption].
  - assumption.
  - intros r' Hr' Hid. apply update_limit_In in Hr'.
    destruct Hr' as (r & Hr & [->|[Hp ->]]); [now apply Hcur|].
    simpl in Hid. apply andb_true_iff in Hp. destruct Hp as [_ Hp].
    apply Z.gtb_lt in Hp. lia.
  - intros u' r' Hu' Hr' Hst Hid.
    apply update_limit_In in Hr'.
    destruct Hr' as (r & Hr & [->|[_ ->]]); [|statuses; discriminate].
    apply update_limit_In in Hu'.
    destruct Hu' as (u & Hu & [->|[Hp ->]]); [now apply (Hset u r)|].
    simpl in Hid. apply andb_true_iff in Hp. destruct Hp as [Hp _].
    apply Z.eqb_eq in Hp. specialize (Hset u r Hu Hr Hst Hid).
    statuses. lia.
  - destruct (update_limit_shape
                (fun r => (scan_status r =? 0) && (id r >? start)) 2 n t)
      as (t1 & t2 & Ht & Hu & _).
    rewrite Hu. intros u' p' Hu' Hp' Hsu Hsp.
    assert (Hasc : forall x y, In x t1 -> In y t2 -> id x < id y).
    { destruct Hwf as (Hasc & _). rewrite Ht, map_app in Hasc.
      apply ascending_app in Hasc. destruct Hasc as (_ & _ & Hasc).
      intros x y Hx Hy. apply Hasc; now apply in_map. }
    assert (Hu2 : In u' t2).
    { apply in_app_or in Hu'. destruct Hu' as [Hu'|Hu']; [|assumption].
      exfalso. apply update_where_In in Hu'. destruct Hu' as (u & Hu0 & ->).
      assert (Hut : In u t) by (rewrite Ht; apply in_or_app; now left).
      destruct ((scan_status u =? 0) && (id u >? start)) eqn:E;
        simpl in Hsu; [statuses; discriminate|].
      apply andb_false_iff in E. destruct E as [E|E].
      - apply Z.eqb_neq in E. statuses. lia.
      - assert (Hle : id u <= start)
          by (destruct (Z.gtb_spec (id u) start); [discriminate | lia]).
        specialize (Hcur u Hut Hle). statuses. lia. }
    assert (Hut : In u' t) by (rewrite Ht; apply in_or_app; now right).
    apply in_app_or in Hp'. destruct Hp' as [Hp'|Hp'].
    + apply update_where_In in Hp'. destruct Hp' as (p & Hp0 & ->).
      rewrite id_cond.
      destruct ((scan_status p =? 0) && (id p >? start)) eqn:E.
      * now apply Hasc.
      * apply Hclm; try assumption. rewrite Ht. apply in_or_app. now left.
    + apply Hclm; try assumption. rewrite Ht. apply in_or_app. now right.
Qed.

(** The INSERT of [put]. *)
Lemma table_inv_insert t auto start d h ts :
  table_inv t auto start ->
  table_inv
    (t ++ [{| id := auto; data := d; data_hash := h; scan_status := 0;
              time := ts |}])
    (auto + 1) start.
Proof.
  intros (Hwf & Hlt & Hcur & Hset & Hclm).
  destruct Hwf as (Hasc & Hauto & Hids & Hrange).
  split_inv.
  - repeat split.
    + rewrite map_app. simpl. apply ascending_snoc; [assumption | lia |].
      intros y Hy. apply in_map_iff in Hy. destruct Hy as (r & <- & Hr).
      now apply Hids.
    + lia.
    + intros r Hr. apply in_app_or in Hr. destruct Hr as [Hr|[<-|[]]].
      * specialize (Hids r Hr). lia.
      * simpl. lia.
    + apply in_app_or in H. destruct H as [H|[<-|[]]].
      * now apply Hrange.
      * simpl. lia.
    + apply in_app_or in H. destruct H as [H|[<-|[]]].
      * now apply Hrange.
      * simpl. lia.
  - lia.
  - intros r Hr Hle. apply in_app_or in Hr. destruct Hr as [Hr|[<-|[]]].
    + now apply Hcur.
    + simpl in Hle. lia.
  - intros u r Hu Hr Hst Hle.
    apply in_app_or in Hr. destruct Hr as [Hr|[<-|[]]];
      [|statuses; simpl in Hst; discriminate].
    apply in_app_or in Hu. destruct Hu as [Hu|[<-|[]]].
    + now apply (Hset u r).
    + simpl in Hle. specialize (Hids r Hr). lia.
  - intros u p Hu Hp Hsu Hsp.
    apply in_app_or in Hp. destruct Hp as [Hp|[<-|[]]];
      [|statuses; simpl in Hsp; discriminate].
    apply in_app_or in Hu. destruct Hu as [Hu|[<-|[]]].
    + now apply Hclm.
    + simpl. now apply Hids.
Qed.

(** [_init_start_id] followed by [reset_unscanned_item], on a table whose
    SCANNED records form a prefix. *)
Lemma table_inv_startup t auto :
  wf_rows t auto -> scanned_prefix t ->
  table_inv
    (update_where (fun r => scan_status r >? 1) 0 t) auto
    (match select_min_id (fun r => negb (scan_status r =? 1)) t with
     | None => 0
     | Some m => m - 1
     end).
Proof.
  intros Hwf Hpre.
  assert (Hbelow : forall r, In r t ->
            id r <= match select_min_id
                            (fun r => negb (scan_status r =? 1)) t with
                    | None => 0
                    | Some m => m - 1
                    end -> scan_status r = 1).
  { intros r Hr Hle.
    destruct (Z.eq_dec (scan_status r) 1) as [|Hne]; [assumption|].
    exfalso.
    assert (Hp : negb (scan_status r =? 1) = true)
      by (apply negb_true_iff; now apply Z.eqb_neq).
    destruct (select_min_id _ t) as [m|] eqn:E.
    - apply select_min_id_Some in E. destruct E as [_ Hmin].
      specialize (Hmin r Hr Hp). lia.
    - rewrite select_min_id_None in E. rewrite (E r Hr) in Hp.
      discriminate. }
  split_inv.
  - apply wf_rows_update_where; [lia | assumption].
  - destruct Hwf as (_ & Hauto & Hids & _).
    destruct (select_min_id _ t) as [m|] eqn:E; [|assumption].
    apply select_min_id_Some in E. destruct E as [(r & Hr & _ & <-) _].
    specialize (Hids r Hr). lia.
  - intros r' Hr' Hle. apply update_where_In in Hr'.
    destruct Hr' as (r & Hr & ->). rewrite id_cond in Hle.
    rewrite (Hbelow r Hr Hle). simpl. statuses. left.
    apply (Hbelow r Hr Hle).
  - intros u' r' Hu' Hr' Hst Hle.
    apply update_where_In in Hu'. destruct Hu' as (u & Hu & ->).
    apply update_where_In in Hr'. destruct Hr' as (r & Hr & ->).
    rewrite !id_cond in Hle.
    destruct (Z.gtb_spec (scan_status r) 1) as [Hgt|Hngt];
      simpl in Hst; [statuses; discriminate|].
    rewrite (Hpre u r Hu Hr Hst Hle). simpl. left.
    apply (Hpre u r Hu Hr Hst Hle).
  - intros u' p' _ Hp' _ Hsp. exfalso.
    apply update_where_In in Hp'. destruct Hp' as (p & Hp & ->).
    destruct (Z.gtb_spec (scan_status p) 1) as [Hgt|Hngt];
      simpl in Hsp; statuses; lia.
Qed.

(** *** Running the methods *)

#[local] Arguments select_max_id : simpl never.
#[local] Arguments select_min_id : simpl never.
#[local] Arguments update_where : simpl never.
#[local] Arguments update_limit : simpl never.

Ltac unfold_method :=
  unfold startup, __init__, _init_start_id, reset_unscanned_item, put,
    get_new_scan, mark_result, get_start_id, execute_update,
    execute_select, scalar, try_except, try_except_else, bind, get, ret,
    raise, modify.

Lemma healthy_pending s : healthy s -> pending s = None.
Proof.
  unfold healthy, pending. intros H.
  destruct (faults s) as [|[e|] f]; try reflexivity.
  inversion H; discriminate.
Qed.

Lemma healthy_next s : healthy s -> healthy (next_statement s).
Proof.
  unfold healthy, next_statement. simpl. intros H.
  destruct (faults s); simpl; [constructor | now inversion H].
Qed.

Lemma healthy_set_rows s t : healthy s -> healthy (set_rows t s).
Proof. trivial. Qed.

Lemma healthy_set_start_id s v : healthy s -> healthy (set_start_id v s).
Proof. trivial. Qed.

Ltac healthy_tac :=
  intros;
  repeat first [ assumption
               | apply healthy_set_rows
               | apply healthy_set_start_id
               | apply healthy_next ].

Lemma execute_healthy {A} (q : list ResultList -> A * list ResultList) s :
  healthy s ->
  execute q s =
    (Return (fst (q (rows s))),
     set_rows (snd (q (rows s))) (next_statement s)).
Proof.
  intros H. unfold execute. rewrite (healthy_pending s H).
  now destruct (q (rows s)).
Qed.

(** Whatever the driver does, a statement either raises and leaves the
    rows alone or runs. *)
Lemma execute_cases {A} (q : list ResultList -> A * list ResultList) s :
  (exists e, pending s = Some e /\
             execute q s = (Raise e, next_statement s)) \/
  (pending s = None /\
   execute q s =
     (Return (fst (q (rows s))),
      set_rows (snd (q (rows s))) (next_statement s))).
Proof.
  unfold execute. destruct (pending s) as [e|].
  - left. eauto.
  - right. split; [reflexivity|]. now destruct (q (rows s)).
Qed.

(** [mark_result] when the driver is healthy. *)
Lemma mark_result_healthy s last failed :
  healthy s -> start_id s < last ->
  exists s',
    mark_result last failed s = (Return tt, s') /\
    healthy s' /\
    auto_increment s' = auto_increment s /\
    rows s' =
      update_where (in_progress_in_range (start_id s) last) 1
        (update_where (failed_in_range (start_id s) last failed) 3
           (rows s)) /\
    start_id s' =
      match select_max_id (scanned_above (start_id s)) (rows s') with
      | Some m => m
      | None => start_id s
      end.
Proof.
  intros Hh Hlt. unfold_method.
  destruct (Z.gtb_spec last (start_id s)) as [_|]; [|lia].
  rewrite (execute_healthy _ s Hh). cbn [fst snd].
  pose proof (healthy_set_rows _
    (update_where (failed_in_range (start_id s) last failed) 3 (rows s))
    (healthy_next s Hh)) as H1.
  rewrite (execute_healthy _ _ H1). cbn [fst snd].
  match goal with
  | |- context [execute _ (set_rows ?t (next_statement ?s1))] =>
      pose proof (healthy_set_rows _ t (healthy_next s1 H1)) as H2
  end.
  rewrite (execute_healthy _ _ H2). cbn [fst snd rows set_rows].
  destruct (select_max_id _ _) as [m|] eqn:E;
    eexists; (split; [reflexivity|]); cbn; rewrite ?E;
    repeat split; try reflexivity; now apply healthy_next.
Qed.

Lemma pending_not_healthy s e : pending s = Some e -> ~ healthy s.
Proof. intros H Hh. rewrite (healthy_pending s Hh) in H. discriminate. Qed.

Lemma not_healthy_next s : ~ healthy (next_statement s) -> ~ healthy s.
Proof. intros H Hh. apply H. now apply healthy_next. Qed.

(** [mark_result] under any behaviour of the driver: it stops after any
    of its three statements, and the cursor moves only after the third. *)
Lemma mark_result_run s last failed :
  let p := mark_result last failed s in
  let t1 := update_where (failed_in_range (start_id s) last failed) 3
              (rows s) in
  let t2 := update_where (in_progress_in_range (start_id s) last) 1 t1 in
  auto_increment (final p) = auto_increment s /\
  (healthy s -> healthy (final p)) /\
  ((outcome p = Return tt /\ last <= start_id s /\ final p = s) \/
   (start_id s < last /\ outcome p = Raise DatabaseError /\ ~ healthy s /\
    start_id (final p) = start_id s /\
    (rows (final p) = rows s \/ rows (final p) = t1 \/
     rows (final p) = t2)) \/
   (start_id s < last /\ outcome p = Return tt /\ rows (final p) = t2 /\
    start_id (final p) =
      match select_max_id (scanned_above (start_id s)) t2 with
      | Some m => m
      | None => start_id s
      end)).
Proof.
  unfold final, outcome. unfold_method.
  destruct (Z.gtb_spec last (start_id s)) as [Hgt|Hle].
  2:{ cbn. split; [reflexivity|]. split; [trivial|]. left. auto. }
  destruct (execute_cases
              (fun t => (tt, update_where
                               (failed_in_range (start_id s) last failed)
                               3 t)) s)
    as [(e1 & Hp1 & ->)|(Hp1 & ->)]; cbn [fst snd].
  { split; [reflexivity|]. split; [apply healthy_next|]. right. left.
    repeat split; eauto using pending_not_healthy. }
  match goal with |- context [execute ?q ?s1] =>
    destruct (execute_cases q s1) as [(e2 & Hp2 & ->)|(Hp2 & ->)] end;
    cbn [fst snd rows set_rows].
  { split; [reflexivity|].
    split; [intros H; now apply healthy_next, healthy_next|].
    right. left. repeat split; auto.
    apply not_healthy_next. eapply pending_not_healthy, Hp2. }
  match goal with |- context [execute ?q ?s1] =>
    destruct (execute_cases q s1) as [(e3 & Hp3 & ->)|(Hp3 & ->)] end;
    cbn [fst snd rows set_rows].
  { split; [reflexivity|].
    split; [intros H; now apply healthy_next, healthy_next, healthy_next|].
    right. left. repeat split; auto.
    apply not_healthy_next.
    match type of Hp3 with pending (set_rows ?t ?x) = _ =>
      change (pending x = Some e3) in Hp3 end.
    apply not_healthy_next. eapply pending_not_healthy, Hp3. }
  destruct (select_max_id _ _) as [m|] eqn:E; cbn;
    (split; [reflexivity|]);
    (split; [intros H; now apply healthy_next, healthy_next, healthy_next|]);
    right; right; cbv zeta; rewrite ?E; repeat split; auto.
Qed.

(** [reset_unscanned_item] under any behaviour of the driver. *)
Lemma reset_unscanned_item_run s :
  let p := reset_unscanned_item s in
  auto_increment (final p) = auto_increment s /\
  start_id (final p) = start_id s /\
  (healthy s -> healthy (final p)) /\
  ((outcome p = Raise DatabaseError /\ ~ healthy s /\
    rows (final p) = rows s) \/
   (outcome p = Return tt /\
    rows (final p) = update_where beyond_scanned 0 (rows s))).
Proof.
  unfold final, outcome. unfold_method.
  match goal with |- context [execute ?q ?s1] =>
    destruct (execute_cases q s1) as [(e & Hp & ->)|(Hp & ->)] end;
    cbn [fst snd].
  - repeat split; try (now healthy_tac). left.
    repeat split; eauto using pending_not_healthy.
  - repeat split; try (now healthy_tac). right. auto.
Qed.

(** [put] under any behaviour of the driver. *)
Lemma put_run r ts s :
  let p := put r ts s in
  let dup := has_hash (get_hash r) (rows s) in
  start_id (final p) = start_id s /\
  (healthy s -> healthy (final p)) /\
  match pending s with
  | Some e =>
      outcome p = (if is_IntegrityError e then Return false
                   else Raise DatabaseError) /\
      rows (final p) = rows s /\
      auto_increment (final p) = auto_increment s
  | None =>
      if dup then
        outcome p = Return false /\ rows (final p) = rows s /\
        auto_increment (final p) = auto_increment s
      else
        outcome p = Return true /\
        rows (final p) =
          rows s ++ [{| id := auto_increment s; data := dump r;
                        data_hash := get_hash r; scan_status := 0;
                        time := ts |}] /\
        auto_increment (final p) = auto_increment s + 1
  end.
Proof.
  unfold final, outcome. unfold_method. unfold create_object.
  destruct (pending s) as [e|] eqn:Hp.
  - destruct (is_IntegrityError e); cbn;
      repeat split; now healthy_tac.
  - destruct (has_hash _ (rows s)); cbn;
      repeat split; now healthy_tac.
Qed.

(** [get_new_scan] under any behaviour of the driver. *)
Lemma get_new_scan_run n s :
  let p := get_new_scan n s in
  let probe := select_where (unscanned_above (start_id s)) (rows s) in
  let k := fst (update_limit (claimable (start_id s)) 2 n (rows s)) in
  let u := snd (update_limit (claimable (start_id s)) 2 n (rows s)) in
  auto_increment (final p) = auto_increment s /\
  start_id (final p) = start_id s /\
  (healthy s -> healthy (final p)) /\
  ((outcome p = Raise DatabaseError /\ ~ healthy s /\
    (rows (final p) = rows s \/ rows (final p) = u)) \/
   (probe = [] /\ outcome p = Return [] /\ rows (final p) = rows s) \/
   (exists first rest,
      probe = first :: rest /\ rows (final p) = u /\
      outcome p =
        Return (if Nat.eqb k 0 then []
                else map (fun line => {| item_id := id line;
                                         item_data := data line |})
                       (firstn k (select_where (claimed_from (id first))
                                    u))))).
Proof.
  unfold final, outcome. unfold_method.
  match goal with |- context [execute ?q ?s1] =>
    destruct (execute_cases q s1) as [(e1 & Hp1 & ->)|(Hp1 & ->)] end;
    cbn [fst snd].
  { repeat split; try (now healthy_tac). left.
    repeat split; eauto using pending_not_healthy. }
  destruct (select_where (unscanned_above (start_id s)) (rows s))
    as [|first rest] eqn:Eprobe; cbn [firstn].
  { repeat split; try (now healthy_tac). right. left. auto. }
  match goal with |- context [execute ?q ?s1] =>
    destruct (execute_cases q s1) as [(e2 & Hp2 & ->)|(Hp2 & ->)] end;
    cbn [fst snd rows set_rows].
  { split; [reflexivity|]. split; [reflexivity|].
    split; [now healthy_tac|].
    left. repeat split; auto.
    apply not_healthy_next. eapply pending_not_healthy, Hp2. }
  destruct (Nat.eqb (fst (update_limit _ 2 n (rows s))) 0) eqn:Ek.
  { split; [reflexivity|]. split; [reflexivity|].
    split; [now healthy_tac|].
    right. right. exists first, rest. cbn. rewrite ?Ek. auto. }
  match goal with |- context [execute ?q ?s1] =>
    destruct (execute_cases q s1) as [(e3 & Hp3 & ->)|(Hp3 & ->)] end;
    cbn [fst snd rows set_rows].
  { split; [reflexivity|]. split; [reflexivity|].
    split; [now healthy_tac|].
    left. repeat split; auto.
    apply not_healthy_next.
    match type of Hp3 with pending (set_rows ?t ?x) = _ =>
      change (pending x = Some e3) in Hp3 end.
    apply not_healthy_next. eapply pending_not_healthy, Hp3. }
  split; [reflexivity|]. split; [reflexivity|].
  split; [now healthy_tac|].
  right. right. exists first, rest. cbn. rewrite ?Ek. auto.
Qed.

(** [_init_start_id] followed by [reset_unscanned_item], when the driver
    is healthy. *)
Lemma startup_healthy s :
  healthy s ->
  exists s',
    startup s = (Return tt, s') /\ healthy s' /\
    auto_increment s' = auto_increment s /\
    rows s' = update_where beyond_scanned 0 (rows s) /\
    start_id s' = match select_min_id not_scanned (rows s) with
                  | None => 0
                  | Some m => m - 1
                  end.
Proof.
  intros Hh. unfold_method.
  rewrite (execute_healthy _ s Hh). cbn [fst snd].
  destruct (select_min_id not_scanned (rows s)) as [m|] eqn:E;
    cbn [set_rows set_start_id next_statement rows start_id faults
         auto_increment set_faults].
  - match goal with |- context [execute ?q ?s1] =>
      assert (H1 : healthy s1) by (apply (healthy_next s Hh));
      rewrite (execute_healthy q s1 H1) end.
    eexists. split; [reflexivity|]. cbn.
    repeat split; auto. apply (healthy_next _ H1).
  - match goal with |- context [execute ?q ?s1] =>
      assert (H1 : healthy s1) by (apply (healthy_next s Hh));
      rewrite (execute_healthy q s1 H1) end.
    eexists. split; [reflexivity|]. cbn.
    repeat split; auto. apply (healthy_next _ H1).
Qed.

(** *** mark_result *)

Lemma Forall2_map_r {A B} (R : A -> B -> Prop) (f : A -> B) (l : list A) :
  (forall x, In x l -> R x (f x)) -> Forall2 R l (map f l).
Proof.
  induction l as [|a l IH]; simpl; intros H; constructor.
  - apply H. now left.
  - apply IH. intros x Hx. apply H. now right.
Qed.

(** What the two updates of [mark_result] do to one row. *)
Lemma mark_row start last failed r :
  let r1 := if failed_in_range start last failed r
            then set_status 3 r else r in
  let r2 := if in_progress_in_range start last r1
            then set_status 1 r1 else r1 in
  same_record r r2 /\
  (start < id r <= last /\ In (id r) failed -> scan_status r2 = FAILED) /\
  (start < id r <= last /\ ~ In (id r) failed /\
   scan_status r = IN_PROGRESS -> scan_status r2 = SCANNED) /\
  (~ (start < id r <= last /\
      (In (id r) failed \/ scan_status r = IN_PROGRESS)) ->
   scan_status r2 = scan_status r).
Proof.
  statuses. cbv zeta.
  destruct (mem (id r) failed) eqn:Em.
  - assert (Hin : In (id r) failed) by now apply mem_In.
    destruct (Z.leb_spec (id r) last), (Z.gtb_spec (id r) start);
      cbn; rewrite ?andb_false_r; cbn;
      unfold same_record; repeat split; cbn; intros; try tauto; try lia.
    all: destruct (Z.leb_spec (id r) last), (Z.gtb_spec (id r) start);
      try lia; cbn;
      destruct (Z.eqb_spec (scan_status r) 2); cbn; try tauto; try lia.
  - assert (Hin : ~ In (id r) failed).
    { intros H. apply mem_In in H. congruence. }
    rewrite andb_false_r.
    destruct (Z.leb_spec (id r) last), (Z.gtb_spec (id r) start),
      (Z.eqb_spec (scan_status r) 2);
      cbn; unfold same_record; repeat split; cbn; intros;
      try tauto; try lia.
Qed.

(** Where the MAX query of [mark_result] puts the cursor, seen from a
    failed tail of the batch: the cursor stops below the tail exactly when
    no record above [last] carried SCANNED before the call. *)
Lemma failed_tail_cursor start last failed t :
  start < last ->
  let t' := update_where (in_progress_in_range start last) 1
              (update_where (failed_in_range start last failed) 3 t) in
  let start' := match select_max_id (scanned_above start) t' with
                | Some m => m
                | None => start
                end in
  (none_scanned_above t last -> start' <= last) /\
  (forall r, start < id r -> failed_tail t last failed r ->
     (start' < id r <-> none_scanned_above t last)).
Proof.
  intros Hlt t' start'.
  assert (Hback : forall u', In u' t' ->
            exists u, In u t /\ id u' = id u /\
              (start < id u <= last /\ In (id u) failed ->
               scan_status u' = FAILED) /\
              (~ (start < id u <= last) -> scan_status u' = scan_status u)).
  { intros u' Hu'. unfold t', update_where in Hu'. rewrite map_map in Hu'.
    apply in_map_iff in Hu'. destruct Hu' as (u & <- & Hu).
    destruct (mark_row start last failed u) as ((Hid & _) & Hf & _ & Hk).
    exists u. repeat split; auto. intros Hout. apply Hk. tauto. }
  assert (Hfwd : forall u, In u t -> last < id u ->
            scan_status u = SCANNED ->
            exists m, select_max_id (scanned_above start) t' = Some m /\
                      id u <= m).
  { intros u Hu Hgt Hst.
    destruct (mark_row start last failed u) as ((Hid & _) & _ & _ & Hk).
    match type of Hk with _ -> scan_status ?x = _ => set (u' := x) in * end.
    assert (Hu' : In u' t').
    { unfold t', update_where. rewrite map_map.
      apply in_map_iff. exists u. split; [reflexivity | assumption]. }
    assert (Hp : scanned_above start u' = true).
    { apply andb_true_iff. split.
      - apply Z.gtb_lt. lia.
      - apply Z.eqb_eq. rewrite Hk; [exact Hst | lia]. }
    destruct (select_max_id (scanned_above start) t') as [m|] eqn:E.
    - exists m. split; [reflexivity|].
      apply select_max_id_Some in E. destruct E as [_ Hmax].
      rewrite <- Hid. now apply Hmax.
    - rewrite select_max_id_None in E. pose proof (E u' Hu') as E'.
      cbv beta in E', Hp. congruence. }
  assert (Hmax : forall m, select_max_id (scanned_above start) t' = Some m ->
            none_scanned_above t last ->
            exists u, In u t /\ id u = m /\ start < m <= last /\
                      ~ In m failed).
  { intros m E Hnone. apply select_max_id_Some in E.
    destruct E as [(u' & Hu' & Hp & Hm) _].
    apply andb_true_iff in Hp. destruct Hp as [Hgt Hst].
    apply Z.gtb_lt in Hgt. apply Z.eqb_eq in Hst.
    destruct (Hback u' Hu') as (u & Hu & Hid & Hf & Hk).
    exists u. split; [assumption|]. split; [congruence|].
    assert (Hle : m <= last).
    { destruct (Z.le_gt_cases m last) as [|Habove]; [assumption|].
      exfalso. apply (Hnone u Hu); [lia|].
      rewrite <- Hk by lia. exact Hst. }
    split; [lia|]. intros Hin.
    rewrite Hf in Hst; [discriminate | split; [lia | congruence]]. }
  split.
  - intros Hnone. unfold start'.
    destruct (select_max_id (scanned_above start) t') as [m|] eqn:E; [|lia].
    destruct (Hmax m eq_refl Hnone) as (_ & _ & _ & H & _). lia.
  - intros r Hr (Hin & Hle & Htail). split.
    + intros Hstop u Hu Hgt Hst.
      destruct (Hfwd u Hu Hgt Hst) as (m & E & Hm).
      unfold start' in Hstop. rewrite E in Hstop. lia.
    + intros Hnone. unfold start'.
      destruct (select_max_id (scanned_above start) t') as [m|] eqn:E; [|lia].
      destruct (Hmax m eq_refl Hnone) as (u & Hu & Hid & Hrange & Hnot).
      destruct (Z.lt_ge_cases m (id r)) as [|Hge]; [assumption|].
      exfalso. apply Hnot. rewrite <- Hid. apply Htail; [assumption | lia].
Qed.

(** C1, as the code has it.  [mark_result last_id failed_list] with
    [last_id > start_id], the driver healthy: every record in the range
    (start_id, last_id] whose id is in [failed_list] becomes FAILED; every
    IN_PROGRESS record in the range whose id is not in [failed_list]
    becomes SCANNED (so a failed id is never marked SCANNED); every other
    record keeps its status, and no other field changes.  Afterwards
    [start_id] is the largest id above the old cursor that carries SCANNED
    when there is one, and is unchanged otherwise.  That query is not
    bounded by [last_id]: the cursor stays at or below [last_id], and
    below a run of failures at the end of the batch, exactly when no
    record above [last_id] carried SCANNED before the call.  That is so
    whenever the queue invariant holds and a record of the batch is still
    IN_PROGRESS.  With [last_id <= start_id] the call changes nothing.
    In scenario S3 the records 1, 2 end SCANNED, 3, 4 end FAILED and the
    cursor stops at 2. *)
Theorem mark_result_spec s last_id failed_list :
  healthy s ->
  let p := mark_result last_id failed_list s in
  (start_id s < last_id ->
   outcome p = Return tt /\
   Forall2
     (fun r r' =>
        same_record r r' /\
        (start_id s < id r <= last_id /\ In (id r) failed_list ->
         scan_status r' = FAILED) /\
        (start_id s < id r <= last_id /\ ~ In (id r) failed_list /\
         scan_status r = IN_PROGRESS -> scan_status r' = SCANNED) /\
        (~ (start_id s < id r <= last_id /\
            (In (id r) failed_list \/ scan_status r = IN_PROGRESS)) ->
         scan_status r' = scan_status r))
     (rows s) (rows (final p)) /\
   ((exists m, max_scanned_above (rows (final p)) (start_id s) m /\
               start_id (final p) = m) \/
    ((forall r, In r (rows (final p)) -> start_id s < id r ->
                scan_status r <> SCANNED) /\
     start_id (final p) = start_id s)) /\
   (none_scanned_above (rows s) last_id -> start_id (final p) <= last_id) /\
   (forall r, start_id s < id r ->
      failed_tail (rows s) last_id failed_list r ->
      (start_id (final p) < id r <->
       none_scanned_above (rows s) last_id)) /\
   (queue_inv s ->
    (exists r, In r (rows s) /\ id r <= last_id /\
               scan_status r = IN_PROGRESS) ->
    start_id (final p) <= last_id /\
    forall r, start_id s < id r ->
      failed_tail (rows s) last_id failed_list r ->
      start_id (final p) < id r)) /\
  (last_id <= start_id s -> p = (Return tt, s)) /\
  (let q := mark_result 4 [3; 4] S3_dispatched in
   start_id S3_dispatched = 0 /\
   map scan_status (rows S3_dispatched) = [2; 2; 2; 2] /\
   outcome q = Return tt /\
   map id (rows (final q)) = [1; 2; 3; 4] /\
   map scan_status (rows (final q)) = [SCANNED; SCANNED; FAILED; FAILED] /\
   start_id (final q) = 2).
Proof.
  intros Hh p. split; [|split].
  - intros Hlt.
    destruct (mark_result_healthy s last_id failed_list Hh Hlt)
      as (s' & Hrun & _ & _ & Hrows & Hstart).
    destruct (failed_tail_cursor (start_id s) last_id failed_list (rows s)
                Hlt) as [Hbound Htail].
    rewrite <- Hrows, <- Hstart in Hbound, Htail.
    subst p. rewrite Hrun. unfold outcome, final. cbn [fst snd].
    split; [reflexivity|].
    split; [|split; [|split; [assumption|split; [assumption|]]]].
    3:{ intros (_ & _ & _ & Hsettled & _) (r & Hr & Hle & Hip).
        assert (Hnone : none_scanned_above (rows s) last_id).
        { intros u Hu Hgt Hst.
          destruct (Hsettled r u Hr Hu Hst) as [H|H]; [lia| |];
            statuses; lia. }
        split; [now apply Hbound|].
        intros r0 Hr0 Ht. now apply (Htail r0 Hr0 Ht). }
    + rewrite Hrows. unfold update_where. rewrite map_map.
      apply Forall2_map_r. intros r _. apply mark_row.
    + destruct (select_max_id (scanned_above (start_id s)) (rows s'))
        as [m|] eqn:E.
      * left. exists m. split; [|assumption].
        apply select_max_id_Some in E.
        destruct E as [(r & Hr & Hp & Hid) Hmax].
        apply andb_true_iff in Hp. destruct Hp as [Hgt Hst].
        apply Z.gtb_lt in Hgt. apply Z.eqb_eq in Hst.
        split.
        -- exists r. statuses. repeat split; auto; lia.
        -- intros r0 Hr0 Hgt0 Hst0. apply Hmax; [assumption|].
           apply andb_true_iff. split.
           ++ apply Z.gtb_lt. lia.
           ++ apply Z.eqb_eq. exact Hst0.
      * right. split; [|assumption].
        rewrite select_max_id_None in E. intros r Hr Hgt Hst.
        specialize (E r Hr). apply andb_false_iff in E.
        destruct E as [E|E].
        -- destruct (Z.gtb_spec (id r) (start_id s)); [discriminate|lia].
        -- apply Z.eqb_neq in E. statuses. contradiction.
  - intros Hle. subst p. unfold_method.
    destruct (Z.gtb_spec last_id (start_id s)); [lia | reflexivity].
  - vm_compute. repeat split; reflexivity.
Qed.

(** The theorem at the state of scenario S3: records 3 and 4 are the
    failed tail, nothing above 4 is SCANNED, and the cursor stops below
    record 3. *)
Lemma mark_result_spec_witness :
  healthy S3_dispatched /\
  start_id S3_dispatched < 4 /\
  outcome (mark_result 4 [3; 4] S3_dispatched) = Return tt /\
  forall r, In r (rows S3_dispatched) -> id r = 3 ->
            start_id (final (mark_result 4 [3; 4] S3_dispatched)) < id r.
Proof.
  assert (Hh : healthy S3_dispatched) by (vm_compute; constructor).
  assert (Hlt : start_id S3_dispatched < 4) by reflexivity.
  destruct (mark_result_spec S3_dispatched 4 [3; 4] Hh) as [H _].
  destruct (H Hlt) as (Hout & _ & _ & _ & Htail & _).
  split; [exact Hh|]. split; [exact Hlt|]. split; [exact Hout|].
  intros r Hr Hid. apply Htail.
  - rewrite Hid. reflexivity.
  - split; [exact Hr|]. split; [lia|].
    intros u _ Hu. rewrite Hid in Hu. cbn.
    assert (id u = 3 \/ id u = 4) as [->| ->] by lia; auto.
  - intros u Hu Hgt. vm_compute in Hu.
    destruct Hu as [<-|[<-|[<-|[<-|[]]]]]; vm_compute in Hgt;
      discriminate Hgt.
Defined.

(** C1 as stated fails: a failed tail does not always hold the cursor
    back.  The table of three records, 1 and 2 FAILED and 3 SCANNED, is
    opened again: the cursor starts at 0 and records 1 and 2 are
    dispatched.  [mark_result 2 [2]] marks record 1 SCANNED and record 2
    FAILED, and the MAX query, which is not bounded by [last_id], finds
    record 3: the cursor moves to 3, past the failed record 2. *)
Lemma mark_result_spec_counterexample :
  let s0 := final (startup (connect (rows two_failed_one_scanned)
                              (auto_increment two_failed_one_scanned)
                              [])) in
  let s := step (GetNewScan 2) s0 in
  let p := mark_result 2 [2] s in
  healthy s /\ start_id s = 0 /\
  map id (rows s) = [1; 2; 3] /\
  map scan_status (rows s) = [IN_PROGRESS; IN_PROGRESS; SCANNED] /\
  outcome p = Return tt /\
  map scan_status (rows (final p)) = [SCANNED; FAILED; SCANNED] /\
  start_id (final p) = 3 /\
  ~ (forall r, start_id s < id r -> failed_tail (rows s) 2 [2] r ->
               start_id (final p) < id r).
Proof.
  cbv zeta. split; [vm_compute; constructor|].
  repeat (split; [reflexivity|]).
  intros H.
  specialize (H {| id := 2; data := "request b"; data_hash := "b";
                   scan_status := 2; time := 101 |}).
  cbn [id] in H.
  assert (Hlt : 3 < 2); [|lia].
  change 3 with (start_id (final (mark_result 2 [2]
    (step (GetNewScan 2)
       (final (startup (connect (rows two_failed_one_scanned)
                          (auto_increment two_failed_one_scanned) [])))))))
    at 1.
  apply H.
  - reflexivity.
  - split; [vm_compute; auto|]. split; [cbn; lia|].
    intros u _ Hu. cbn in Hu |- *. left. lia.
Qed.

(** *** get_new_scan *)

Lemma firstn_incl {A} n (l : list A) x : In x (firstn n l) -> In x l.
Proof.
  revert n. induction l as [|a l IH]; intros [|n]; simpl; try tauto.
  intros [->|H]; [now left | right; eauto].
Qed.

(** When every IN_PROGRESS record lies below every claimable one, a
    healthy [get_new_scan n] hands out exactly the first [n] UNSCANNED
    records above the cursor. *)
Lemma get_new_scan_dispatch n s :
  wf s -> healthy s ->
  (forall r u, In r (rows s) -> In u (rows s) -> scan_status r = 2 ->
               claimable (start_id s) u = true -> id r < id u) ->
  exists l,
    outcome (get_new_scan n s) = Return l /\
    map item_id l =
      firstn n (map id (filter (claimable (start_id s)) (rows s))) /\
    map item_data l =
      firstn n (map data (filter (claimable (start_id s)) (rows s))).
Proof.
  intros Hwf Hh Hbelow.
  destruct (get_new_scan_run n s) as (_ & _ & _ & Hcases).
  assert (Hsame : filter (unscanned_above (start_id s)) (rows s)
                  = filter (claimable (start_id s)) (rows s))
    by (apply filter_ext; intros r; apply andb_comm).
  destruct Hcases
    as [(_ & Hnh & _)|[(Hprobe & Hout & _)
                      |(first & rest & Hprobe & _ & Hout)]].
  - contradiction.
  - exists []. split; [assumption|].
    unfold select_where in Hprobe. rewrite <- Hsame, Hprobe.
    now destruct n.
  - unfold select_where in Hprobe.
    edestruct (fetch_after_claim (start_id s) (id first) n (rows s))
      as [Hfetch Hk].
    + intros r Hr Hc.
      assert (Hin : In (id r)
                (map id (filter (unscanned_above (start_id s)) (rows s)))).
      { apply in_map. rewrite Hsame. apply filter_In. auto. }
      assert (Hasc : ascending 0
                (map id (filter (unscanned_above (start_id s)) (rows s))))
        by (apply ascending_filter; apply Hwf).
      rewrite Hprobe in Hin, Hasc.
      exact (ascending_head_least _ _ _ _ Hasc Hin).
    + intros r Hr Hst.
      assert (Hf : In first
                (filter (claimable (start_id s)) (rows s)))
        by (rewrite <- Hsame, Hprobe; now left).
      apply filter_In in Hf. destruct Hf as [Hf1 Hf2].
      now apply (Hbelow r first).
    + eexists. split; [exact Hout|].
      unfold select_where. rewrite Hfetch, Hk.
      destruct (firstn n (filter (claimable (start_id s)) (rows s)))
        as [|x l] eqn:E.
      * rewrite !firstn_map, E. auto.
      * cbn [List.length Nat.eqb].
        rewrite !map_map. cbn [item_id item_data set_status id data].
        rewrite !firstn_map, E. auto.
Qed.

Lemma update_limit_O p v t : update_limit p v 0 t = (O, t).
Proof. now destruct t. Qed.

Lemma update_limit_S p v n a t :
  update_limit p v (S n) (a :: t) =
  if p a then
    let (k, u) := update_limit p v n t in (S k, set_status v a :: u)
  else
    let (k, u) := update_limit p v (S n) t in (k, a :: u).
Proof. reflexivity. Qed.

Lemma mem_cons x y l : mem x (y :: l) = (x =? y) || mem x l.
Proof. reflexivity. Qed.

Lemma ascending_inj lo t r r' :
  ascending lo (map id t) -> In r t -> In r' t -> id r = id r' -> r = r'.
Proof.
  revert lo. induction t as [|a t IH]; intros lo Hasc Hr Hr' Hid; [easy|].
  destruct Hasc as [_ Hasc].
  assert (Hgt : forall x, In x t -> id a < id x).
  { intros x Hx. apply (ascending_In _ (map id t)); [assumption|].
    now apply in_map. }
  destruct Hr as [<-|Hr], Hr' as [<-|Hr']; try reflexivity.
  - specialize (Hgt r' Hr'). lia.
  - specialize (Hgt r Hr). lia.
  - eapply IH; eassumption.
Qed.

Lemma map_unchanged (l : list Z) v t :
  (forall r, In r t -> mem (id r) l = false) ->
  map (fun r => if mem (id r) l then set_status v r else r) t = t.
Proof.
  intros H. induction t as [|a t IH]; [reflexivity|]. cbn [map].
  rewrite (H a (or_introl eq_refl)). f_equal. apply IH.
  intros r Hr. apply H. now right.
Qed.

(** With a primary key, the limited update changes exactly the rows whose
    ids are those of the first [n] matching rows. *)
Lemma update_limit_by_ids p v n lo t :
  ascending lo (map id t) ->
  snd (update_limit p v n t) =
  map (fun r => if mem (id r) (map id (firstn n (filter p t)))
                then set_status v r else r) t.
Proof.
  revert n lo. induction t as [|a t IH]; intros n lo Hasc.
  - now destruct n.
  - destruct Hasc as [_ Hasc].
    assert (Hgt : forall x, In x t -> id a < id x).
    { intros x Hx. apply (ascending_In _ (map id t)); [assumption|].
      now apply in_map. }
    destruct n as [|n].
    + rewrite update_limit_O. cbn [snd firstn]. symmetry.
      apply (map_unchanged [] v (a :: t)). reflexivity.
    + rewrite update_limit_S. cbn [filter]. destruct (p a) eqn:Ea.
      * specialize (IH n (id a) Hasc).
        destruct (update_limit p v n t) as [k u]. cbn [snd] in *.
        cbn [firstn map]. rewrite mem_cons, Z.eqb_refl. cbn [orb].
        f_equal. rewrite IH. apply map_ext_in. intros r Hr.
        specialize (Hgt r Hr). rewrite mem_cons.
        destruct (Z.eqb_spec (id r) (id a)); [lia | reflexivity].
      * specialize (IH (S n) (id a) Hasc).
        destruct (update_limit p v (S n) t) as [k u]. cbn [snd] in *.
        cbn [map].
        assert (Hm : mem (id a) (map id (firstn (S n) (filter p t)))
                     = false).
        { destruct (mem _ _) eqn:E; [|reflexivity].
          apply mem_In, in_map_iff in E. destruct E as (x & Hid & Hx).
          apply firstn_incl, filter_In in Hx. destruct Hx as [Hx _].
          specialize (Hgt x Hx). lia. }
        rewrite Hm. now f_equal.
Qed.

(** The limited update changes [n] rows, or all the matching rows when
    there are fewer. *)
Lemma update_limit_count p v n t :
  fst (update_limit p v n t) = Nat.min n (List.length (filter p t)).
Proof.
  revert n. induction t as [|a t IH]; intros n.
  - destruct n; reflexivity.
  - destruct n as [|n]; [now rewrite update_limit_O|].
    rewrite update_limit_S. cbn [filter]. destruct (p a).
    + specialize (IH n). destruct (update_limit p v n t) as [k u].
      cbn [fst List.length] in *. now rewrite IH.
    + specialize (IH (S n)). destruct (update_limit p v (S n) t) as [k u].
      cbn [fst] in *. exact IH.
Qed.

(** A query that accepts every row the limited update changes finds at
    least as many rows as were changed. *)
Lemma update_limit_found p q v n t :
  (forall r, In r t -> p r = true -> q (set_status v r) = true) ->
  (fst (update_limit p v n t)
   <= List.length (filter q (snd (update_limit p v n t))))%nat.
Proof.
  revert n. induction t as [|a t IH]; intros n H.
  - destruct n; apply Nat.le_0_l.
  - assert (H' : forall r, In r t -> p r = true ->
                           q (set_status v r) = true)
      by (intros r Hr; apply H; now right).
    destruct n as [|n]; [rewrite update_limit_O; apply Nat.le_0_l|].
    rewrite update_limit_S. destruct (p a) eqn:Ea.
    + specialize (IH n H'). destruct (update_limit p v n t) as [k u].
      cbn [fst snd filter] in *. rewrite (H a (or_introl eq_refl) Ea).
      cbn [List.length]. lia.
    + specialize (IH (S n) H').
      destruct (update_limit p v (S n) t) as [k u].
      cbn [fst snd filter] in *. destruct (q a); cbn [List.length]; lia.
Qed.

(** A healthy [get_new_scan n] claims the first [n] claimable records, or
    all of them when there are fewer, and returns as many items. *)
Lemma get_new_scan_count n s :
  wf s -> healthy s ->
  exists l,
    outcome (get_new_scan n s) = Return l /\
    List.length l
    = Nat.min n (List.length (filter (claimable (start_id s)) (rows s))) /\
    rows (final (get_new_scan n s))
    = map (fun r =>
             if mem (id r)
                  (map id (firstn n (filter (claimable (start_id s))
                                       (rows s))))
             then set_status 2 r else r) (rows s).
Proof.
  intros Hwf Hh.
  destruct (get_new_scan_run n s) as (_ & _ & _ & Hcases).
  cbv zeta in Hcases.
  assert (Hsame : filter (unscanned_above (start_id s)) (rows s)
                  = filter (claimable (start_id s)) (rows s))
    by (apply filter_ext; intros r; apply andb_comm).
  pose proof (update_limit_by_ids (claimable (start_id s)) 2 n 0 (rows s))
    as Hu.
  pose proof (update_limit_count (claimable (start_id s)) 2 n (rows s))
    as Hk.
  destruct Hcases
    as [(_ & Hnh & _)|[(Hprobe & Hout & Hrows)
                      |(first & rest & Hprobe & Hrows & Hout)]].
  - contradiction.
  - unfold select_where in Hprobe. rewrite Hsame in Hprobe.
    exists []. split; [exact Hout|]. rewrite Hrows, Hprobe, firstn_nil.
    split; [cbn [List.length]; now rewrite Nat.min_0_r|].
    symmetry. apply (map_unchanged [] 2 (rows s)). reflexivity.
  - unfold select_where in Hprobe. rewrite Hsame in Hprobe.
    eexists. split; [exact Hout|]. rewrite Hrows.
    split; [|apply Hu; apply Hwf]. rewrite <- Hk.
    destruct (Nat.eqb _ 0) eqn:Ek;
      [apply Nat.eqb_eq in Ek; now rewrite Ek|].
    rewrite length_map, length_firstn. apply Nat.min_l.
    apply update_limit_found. intros r Hr Hc.
    apply andb_true_iff. split; [|reflexivity].
    assert (Hin : In (id r)
              (map id (filter (claimable (start_id s)) (rows s))))
      by (apply in_map; apply filter_In; auto).
    assert (Hasc : ascending 0
              (map id (filter (claimable (start_id s)) (rows s))))
      by (apply ascending_filter; apply Hwf).
    rewrite Hprobe in Hin, Hasc.
    pose proof (ascending_head_least _ _ _ _ Hasc Hin).
    cbn [set_status id]. apply Z.geb_le. lia.
Qed.

(** C2.  [get_new_scan count] on a well-formed table.  With a healthy
    driver it dispatches: it returns a list of as many items as there are
    claimable records (status UNSCANNED, id above [start_id]), up to
    [count], and exactly the first that many claimable records, in id
    order, are set to IN_PROGRESS while every other row stays as it was;
    when no IN_PROGRESS record has an id above a claimable one, the items
    are those records, with their ids and data.  Whenever it returns a
    list: if no record has an id above [start_id] and status UNSCANNED (as
    on the empty table) the list is empty and the table is as it was; the
    list has at most [count] items; the ids of its items are strictly
    increasing and all above the [start_id] of the moment of the call; and
    every item is a record of the table whose status is now IN_PROGRESS.
    The only exception it raises is DatabaseError, and only when the
    driver fails. *)
Theorem get_new_scan_spec count s :
  wf s ->
  let p := get_new_scan count s in
  (healthy s ->
   exists l,
     outcome p = Return l /\
     List.length l
     = Nat.min count
         (List.length (filter (claimable (start_id s)) (rows s))) /\
     rows (final p)
     = map (fun r =>
              if mem (id r)
                   (map id (firstn count
                              (filter (claimable (start_id s)) (rows s))))
              then set_status IN_PROGRESS r else r) (rows s) /\
     ((forall r u, In r (rows s) -> In u (rows s) ->
         scan_status r = IN_PROGRESS -> scan_status u = UNSCANNED ->
         start_id s < id u -> id r < id u) ->
      map item_id l
      = firstn count (map id (filter (claimable (start_id s)) (rows s))) /\
      map item_data l
      = firstn count
          (map data (filter (claimable (start_id s)) (rows s))))) /\
  (healthy s ->
   (forall r, In r (rows s) ->
              ~ (start_id s < id r /\ scan_status r = UNSCANNED)) ->
   outcome p = Return [] /\ rows (final p) = rows s) /\
  (forall e, outcome p = Raise e -> e = DatabaseError) /\
  (forall l, outcome p = Return l ->
     ((forall r, In r (rows s) ->
                 ~ (start_id s < id r /\ scan_status r = UNSCANNED)) ->
      l = [] /\ rows (final p) = rows s) /\
     (List.length l <= count)%nat /\
     ascending (start_id s) (map item_id l) /\
     (forall i, In i l -> start_id s < item_id i) /\
     (forall i, In i l ->
        exists r, In r (rows (final p)) /\ id r = item_id i /\
                  data r = item_data i /\ scan_status r = IN_PROGRESS)).
Proof.
  intros Hwf p.
  assert (Hdispatch : healthy s ->
    exists l,
      outcome p = Return l /\
      List.length l
      = Nat.min count
          (List.length (filter (claimable (start_id s)) (rows s))) /\
      rows (final p)
      = map (fun r =>
               if mem (id r)
                    (map id (firstn count
                               (filter (claimable (start_id s)) (rows s))))
               then set_status IN_PROGRESS r else r) (rows s) /\
      ((forall r u, In r (rows s) -> In u (rows s) ->
          scan_status r = IN_PROGRESS -> scan_status u = UNSCANNED ->
          start_id s < id u -> id r < id u) ->
       map item_id l
       = firstn count
           (map id (filter (claimable (start_id s)) (rows s))) /\
       map item_data l
       = firstn count
           (map data (filter (claimable (start_id s)) (rows s))))).
  { intros Hh.
    destruct (get_new_scan_count count s Hwf Hh) as (l & Hout & Hlen & Hrw).
    exists l. split; [exact Hout|]. split; [exact Hlen|].
    split; [exact Hrw|]. intros Hbelow.
    destruct (get_new_scan_dispatch count s Hwf Hh)
      as (l' & Hout' & Hids & Hdata).
    - intros r u Hr Hu Hst Hc. apply andb_true_iff in Hc.
      destruct Hc as [Hc1 Hc2]. apply Z.eqb_eq in Hc1.
      apply Z.gtb_lt in Hc2. apply (Hbelow r u); assumption.
    - assert (l' = l) as -> by (unfold p in *; congruence).
      split; assumption. }
  split; [exact Hdispatch|]. clear Hdispatch.
  destruct (get_new_scan_run count s) as (_ & _ & _ & Hcases).
  fold p in Hcases.
  destruct Hcases
    as [(Hout & Hnh & _)|[(Hprobe & Hout & Hrows)
                         |(first & rest & Hprobe & Hrows & Hout)]].
  - (* the driver failed *)
    split; [intros Hh; contradiction|]. rewrite Hout.
    split; [intros e [= <-]; reflexivity | intros l; discriminate].
  - (* the probe found nothing *)
    split; [auto|]. rewrite Hout.
    split; [intros e; discriminate|]. intros l [= <-].
    repeat split; auto; try (simpl; lia); intros i [].
  - (* the probe found [first] *)
    assert (Hfirst : In first (rows s) /\ start_id s < id first /\
                     scan_status first = UNSCANNED).
    { assert (H : In first (select_where (unscanned_above (start_id s))
                              (rows s)))
        by (rewrite Hprobe; now left).
      apply filter_In in H. destruct H as [Hin Hp].
      apply andb_true_iff in Hp. destruct Hp as [Hgt Hst].
      apply Z.gtb_lt in Hgt. apply Z.eqb_eq in Hst. auto. }
    destruct Hfirst as (Hin1 & Hgt1 & Hst1).
    split; [intros _ Hnone; exfalso; apply (Hnone first Hin1); auto|].
    rewrite Hout.
    split; [intros e; discriminate|]. intros l [= <-].
    split; [intros Hnone; exfalso; apply (Hnone first Hin1); auto|].
    set (k := fst (update_limit (claimable (start_id s)) 2 count (rows s)))
      in *.
    set (u := snd (update_limit (claimable (start_id s)) 2 count (rows s)))
      in *.
    assert (Hk : (k <= count)%nat).
    { destruct (update_limit_shape (claimable (start_id s)) 2 count
                  (rows s)) as (t1 & t2 & _ & _ & _ & Hle & _).
      exact Hle. }
    assert (Hitems : forall r,
               In r (firstn k (select_where (claimed_from (id first)) u)) ->
               In r u /\ start_id s < id r /\ scan_status r = IN_PROGRESS).
    { intros r Hr. apply firstn_incl in Hr. apply filter_In in Hr.
      destruct Hr as [Hin Hp]. apply andb_true_iff in Hp.
      destruct Hp as [Hge Hst]. apply Z.eqb_eq in Hst.
      assert (id first <= id r)
        by (destruct (Z.geb_spec (id r) (id first)); [lia | discriminate]).
      repeat split; auto. lia. }
    destruct (Nat.eqb k 0); [repeat split; simpl; auto; try lia;
                             intros i []|].
    rewrite map_map. cbn [item_id]. rewrite length_map.
    split; [|split; [|split]].
    + pose proof (firstn_le_length k
                    (select_where (claimed_from (id first)) u)). lia.
    + apply ascending_lower with 0.
      * change (fun x : ResultList => id x) with id.
        rewrite <- firstn_map.
        apply ascending_firstn. apply ascending_filter.
        unfold u. rewrite update_limit_ids. apply Hwf.
      * intros x Hx. apply in_map_iff in Hx.
        destruct Hx as (r & <- & Hr). now apply Hitems.
    + intros i Hi. apply in_map_iff in Hi. destruct Hi as (r & <- & Hr).
      cbn. now apply Hitems.
    + intros i Hi. apply in_map_iff in Hi. destruct Hi as (r & <- & Hr).
      exists r. cbn [item_id item_data]. rewrite Hrows.
      destruct (Hitems r Hr) as (H1 & _ & H3). auto.
Qed.

(** The theorem at scenario S2: five records inserted, three asked for,
    records 1, 2, 3 handed out. *)
Lemma get_new_scan_spec_witness :
  wf S2_inserted /\ healthy S2_inserted /\
  exists l, outcome (get_new_scan 3 S2_inserted) = Return l /\
            List.length l = 3%nat /\ map item_id l = [1; 2; 3].
Proof.
  assert (Hwf : wf S2_inserted)
    by (apply wf_rowsb_sound; vm_compute; reflexivity).
  assert (Hh : healthy S2_inserted) by (vm_compute; constructor).
  split; [exact Hwf|]. split; [exact Hh|].
  destruct (get_new_scan_spec 3 S2_inserted Hwf) as [H _].
  destruct (H Hh) as (l & Hout & Hlen & _ & Hexact).
  exists l. split; [exact Hout|]. split; [rewrite Hlen; reflexivity|].
  destruct Hexact as [Hids _].
  - intros r u Hr _ Hst. vm_compute in Hr.
    destruct Hr as [<-|[<-|[<-|[<-|[<-|[]]]]]]; discriminate Hst.
  - rewrite Hids. reflexivity.
Defined.

(** Scenario S2: dispatch three of five, complete them, dispatch the
    rest. *)
Example scenario_S2 :
  let p := get_new_scan 3 S2_inserted in
  map item_id
    match outcome p with Return l => l | Raise _ => [] end = [1; 2; 3] /\
  map scan_status (rows (final p)) = [2; 2; 2; 0; 0] /\
  let s1 := final (mark_result 3 [] (final p)) in
  map scan_status (rows s1) = [1; 1; 1; 0; 0] /\
  start_id s1 = 3 /\
  map item_id
    match outcome (get_new_scan 10 s1) with
    | Return l => l
    | Raise _ => []
    end = [4; 5].
Proof. vm_compute. repeat split; reflexivity. Qed.

(** *** Construction and start-up *)

Lemma not_scanned_above_start t r :
  In r t -> scan_status r <> 1 ->
  match select_min_id not_scanned t with
  | None => 0
  | Some m => m - 1
  end < id r.
Proof.
  intros Hr Hne.
  assert (Hp : not_scanned r = true)
    by (apply negb_true_iff; now apply Z.eqb_neq).
  destruct (select_min_id not_scanned t) as [m|] eqn:E.
  - apply select_min_id_Some in E. destruct E as [_ Hmin].
    specialize (Hmin r Hr Hp). lia.
  - rewrite select_min_id_None in E. specialize (E r Hr).
    cbv beta in *. congruence.
Qed.

(** The reset does not move the smallest id that is not SCANNED. *)
Lemma select_min_id_reset t :
  select_min_id not_scanned (update_where beyond_scanned 0 t)
  = select_min_id not_scanned t.
Proof.
  unfold select_min_id, update_where. induction t as [|a t IH];
    [reflexivity|].
  cbn [map filter]. rewrite id_cond_status.
  destruct (negb (scan_status a =? 1)); cbn [fold_right];
    rewrite ?id_cond, IH; reflexivity.
Qed.

(** After start-up the claimable records are the records that were not
    SCANNED. *)
Lemma claimable_after_startup t auto :
  wf_rows t auto ->
  let start := match select_min_id not_scanned t with
               | None => 0
               | Some m => m - 1
               end in
  filter (claimable start) (update_where beyond_scanned 0 t)
  = update_where beyond_scanned 0 (filter not_scanned t).
Proof.
  intros Hwf start. unfold update_where. rewrite filter_map_swap.
  f_equal. apply filter_ext_in. intros r Hr.
  destruct Hwf as (_ & _ & _ & Hrange). specialize (Hrange r Hr).
  destruct (Z.eqb_spec (scan_status r) 1) as [E1|E1].
  - rewrite E1. cbn. rewrite E1. reflexivity.
  - pose proof (not_scanned_above_start t r Hr E1) as Hgt. fold start in Hgt.
    destruct (Z.gtb_spec (scan_status r) 1); cbn [scan_status id set_status];
      destruct (Z.gtb_spec (id r) start); try lia;
      destruct (Z.eqb_spec (scan_status r) 0); try lia; reflexivity.
Qed.

(** C3.  A queue opened on an existing, well-formed table, the driver
    healthy.  [__init__] sets [start_id] to max(0, m - 1) (which is
    m - 1) where m is the smallest id among the records that are not
    SCANNED, and to 0 when every record is SCANNED; resetting before
    constructing would give the same cursor.  The start-up call of
    [reset_unscanned_item] then sets every IN_PROGRESS or FAILED record to
    UNSCANNED and changes nothing else; a second call would change nothing
    more.  After that [get_new_scan count] hands out again the first
    [count] records that were not SCANNED, so a batch that was dispatched
    and not finished before the restart is dispatched again, as in
    scenario S4. *)
Theorem startup_spec t auto f :
  wf_rows t auto ->
  Forall (fun x : option exn => x = None) f ->
  let s0 := connect t auto f in
  let p := startup s0 in
  outcome p = Return tt /\
  ((exists m, min_not_scanned t m /\
              start_id (final p) = Z.max 0 (m - 1) /\
              start_id (final p) = m - 1) \/
   ((forall r, In r t -> scan_status r = SCANNED) /\
    start_id (final p) = 0)) /\
  start_id (final (__init__ s0)) = start_id (final p) /\
  start_id (final ((reset_unscanned_item ;; __init__) s0))
  = start_id (final p) /\
  Forall2
    (fun r r' =>
       same_record r r' /\
       (scan_status r = IN_PROGRESS \/ scan_status r = FAILED ->
        scan_status r' = UNSCANNED) /\
       (scan_status r = UNSCANNED \/ scan_status r = SCANNED ->
        scan_status r' = scan_status r))
    t (rows (final p)) /\
  rows (final (reset_unscanned_item (final p))) = rows (final p) /\
  (forall count,
     exists l,
       outcome (get_new_scan count (final p)) = Return l /\
       map item_id l = firstn count (map id (filter not_scanned t))) /\
  (let q := startup (connect (rows S4_crashed)
                       (auto_increment S4_crashed) []) in
   map scan_status (rows S4_crashed) = [2; 2; 2] /\
   map scan_status (rows (final q)) = [0; 0; 0] /\
   start_id (final q) = 0 /\
   exists l, outcome (get_new_scan 3 (final q)) = Return l /\
             map item_id l = [1; 2; 3]).
Proof.
  intros Hwf Hf s0 p.
  assert (Hh : healthy s0) by exact Hf.
  destruct (startup_healthy s0 Hh) as (s' & Hrun & Hh' & Hauto & Hrows & Hst).
  subst p. rewrite Hrun. unfold outcome, final. cbn [fst snd].
  change (rows s0) with t in *.
  split; [reflexivity|].
  split; [|split; [|split; [|split; [|split; [|split]]]]].
  - (* the cursor *)
    rewrite Hst. destruct (select_min_id not_scanned t) as [m|] eqn:E.
    + left. exists m. apply select_min_id_Some in E.
      destruct E as [(r & Hr & Hp & Hid) Hmin].
      assert (Hpos : 0 < id r).
      { destruct Hwf as (Hasc & _).
        apply (ascending_In 0 (map id t)); [assumption | now apply in_map]. }
      split; [|lia]. split.
      * exists r. apply negb_true_iff, Z.eqb_neq in Hp. statuses. auto.
      * intros r0 Hr0 Hne. apply Hmin; [assumption|].
        apply negb_true_iff, Z.eqb_neq. exact Hne.
    + right. split; [|reflexivity]. rewrite select_min_id_None in E.
      intros r Hr. specialize (E r Hr).
      apply negb_false_iff, Z.eqb_eq in E. exact E.
  - (* it is set by the constructor *)
    rewrite Hst. unfold_method. rewrite (execute_healthy _ s0 Hh).
    cbn [fst snd]. change (rows s0) with t.
    now destruct (select_min_id not_scanned t).
  - (* resetting first gives the same cursor *)
    rewrite Hst. unfold_method. rewrite (execute_healthy _ s0 Hh).
    cbn [fst snd].
    rewrite (execute_healthy _ _ (healthy_set_rows _ _ (healthy_next s0 Hh))).
    cbn [fst snd rows set_rows]. change (rows s0) with t.
    rewrite select_min_id_reset.
    now destruct (select_min_id not_scanned t).
  - (* the reset *)
    rewrite Hrows. unfold update_where. apply Forall2_map_r.
    intros r Hr. destruct Hwf as (_ & _ & _ & Hrange).
    specialize (Hrange r Hr). statuses.
    destruct (Z.gtb_spec (scan_status r) 1); unfold same_record; cbn;
      repeat split; auto; lia.
  - (* once is enough *)
    pose proof (reset_unscanned_item_run s') as Hr.
    cbv zeta in Hr. unfold final, outcome in Hr.
    destruct Hr as (_ & _ & _ & [(_ & Hn & _)|[_ Hr]]); [contradiction|].
    rewrite Hr, Hrows. unfold update_where. rewrite map_map. apply map_ext.
    intros r. destruct (scan_status r >? 1) eqn:E; cbn; rewrite ?E;
      reflexivity.
  - (* the unfinished work is handed out again *)
    intros count.
    assert (Hwf' : wf s').
    { unfold wf. rewrite Hrows, Hauto.
      apply wf_rows_update_where; [lia | exact Hwf]. }
    destruct (get_new_scan_dispatch count s' Hwf' Hh') as (l & Hout & Hids & _).
    + intros r u Hr _ Hst2 _. exfalso. rewrite Hrows in Hr.
      apply update_where_In in Hr. destruct Hr as (r0 & _ & ->).
      destruct (Z.gtb_spec (scan_status r0) 1); cbn in Hst2; lia.
    + exists l. split; [exact Hout|]. rewrite Hids, Hrows, Hst.
      rewrite (claimable_after_startup t auto Hwf). f_equal.
      apply update_where_ids.
  - vm_compute. repeat split; try reflexivity. eexists. split; reflexivity.
Qed.

(** The theorem at the table scenario S4 leaves behind. *)
Lemma startup_spec_witness :
  wf_rows (rows S4_crashed) (auto_increment S4_crashed) /\
  outcome (startup (connect (rows S4_crashed)
                      (auto_increment S4_crashed) [])) = Return tt.
Proof.
  assert (Hwf : wf_rows (rows S4_crashed) (auto_increment S4_crashed))
    by (apply wf_rowsb_sound; vm_compute; reflexivity).
  split; [exact Hwf|].
  apply (startup_spec (rows S4_crashed) (auto_increment S4_crashed) []
           Hwf (Forall_nil _)).
Defined.

(** *** The cursor property *)

(** What a start-up that returns has done, whatever the driver had in
    store for later. *)
Lemma startup_returns s s' :
  startup s = (Return tt, s') ->
  auto_increment s' = auto_increment s /\
  rows s' = update_where beyond_scanned 0 (rows s) /\
  start_id s' = match select_min_id not_scanned (rows s) with
                | None => 0
                | Some m => m - 1
                end.
Proof.
  unfold_method.
  match goal with |- context [execute ?q ?s1] =>
    destruct (execute_cases q s1) as [(e1 & Hp1 & ->)|(Hp1 & ->)] end;
    cbn [fst snd]; [discriminate|].
  destruct (select_min_id not_scanned (rows s)) as [m|];
    cbn [set_rows set_start_id next_statement rows start_id faults
         auto_increment set_faults];
    match goal with |- context [execute ?q ?s1] =>
      destruct (execute_cases q s1) as [(e2 & Hp2 & ->)|(Hp2 & ->)] end;
    cbn [fst snd]; try discriminate;
    intros [= <-]; cbn; auto.
Qed.

Lemma constructor_returns s s' :
  __init__ s = (Return tt, s') ->
  rows s' = rows s /\
  start_id s' = match select_min_id not_scanned (rows s) with
                | None => 0
                | Some m => m - 1
                end.
Proof.
  unfold_method.
  match goal with |- context [execute ?q ?s1] =>
    destruct (execute_cases q s1) as [(e1 & Hp1 & ->)|(Hp1 & ->)] end;
    cbn [fst snd]; [discriminate|].
  destruct (select_min_id not_scanned (rows s)) as [m|];
    intros [= <-]; cbn; auto.
Qed.

(** Every call other than [reset_unscanned_item] keeps the invariant,
    whether it returns or raises. *)
Lemma queue_inv_step o s :
  is_reset o = false -> queue_inv s -> queue_inv (step o s).
Proof.
  unfold queue_inv. intros Hnr Hinv. destruct o as [r ts|n|last failed|];
    [| | |discriminate]; cbn [step].
  - (* put *)
    destruct (put_run r ts s) as (Hst & _ & Hcases). cbv zeta in Hcases.
    rewrite Hst.
    destruct (pending s);
      [|destruct (has_hash _ (rows s))];
      destruct Hcases as (_ & -> & ->); try assumption.
    now apply table_inv_insert.
  - (* get_new_scan *)
    destruct (get_new_scan_run n s) as (Hauto & Hst & _ & Hcases).
    cbv zeta in Hcases. rewrite Hauto, Hst.
    destruct Hcases as [(_ & _ & [->| ->])|[(_ & _ & ->)
                                           |(first & rest & _ & -> & _)]];
      try assumption; now apply table_inv_claim.
  - (* mark_result *)
    destruct (mark_result_run s last failed) as (Hauto & _ & Hcases).
    cbv zeta in Hcases. rewrite Hauto.
    pose proof (table_inv_mark_failed _ _ _ last failed Hinv) as H1.
    pose proof (table_inv_mark_scanned _ _ _ last H1) as H2.
    destruct Hcases as [(_ & _ & ->)
                       |[(_ & _ & _ & -> & [->|[->| ->]])
                        |(_ & _ & -> & ->)]]; try assumption.
    destruct (select_max_id _ _) as [m|] eqn:E; [|assumption].
    now apply (table_inv_advance _ _ _ _ H2).
Qed.

Lemma queue_inv_run ops s :
  forallb (fun o => negb (is_reset o)) ops = true ->
  queue_inv s -> queue_inv (run ops s).
Proof.
  revert s. induction ops as [|o ops IH]; intros s Hops Hinv; [assumption|].
  cbn in Hops. apply andb_true_iff in Hops. destruct Hops as [Ho Hops].
  apply negb_true_iff in Ho. cbn. apply IH; [assumption|].
  now apply queue_inv_step.
Qed.

(** C4, as the code has it.  Right after a queue is constructed over a
    well-formed table every record with id <= start_id is SCANNED, before
    and after the start-up reset.  When the SCANNED records of that table
    form a prefix of the ids (as on an empty table), every state reached
    from there through [put], [get_new_scan] and [mark_result], whatever
    the driver does, has every record with id <= start_id SCANNED or
    FAILED. *)
Theorem cursor_closed_reachable t auto f :
  wf_rows t auto ->
  (forall s1, __init__ (connect t auto f) = (Return tt, s1) ->
     forall r, In r (rows s1) -> id r <= start_id s1 ->
               scan_status r = SCANNED) /\
  (forall s0, startup (connect t auto f) = (Return tt, s0) ->
     (forall r, In r (rows s0) -> id r <= start_id s0 ->
                scan_status r = SCANNED) /\
     (scanned_prefix t ->
      forall ops, forallb (fun o => negb (is_reset o)) ops = true ->
        cursor_closed (rows (run ops s0)) (start_id (run ops s0)))).
Proof.
  intros Hwf.
  assert (Hbelow : forall r, In r t ->
            id r <= match select_min_id not_scanned t with
                    | None => 0
                    | Some m => m - 1
                    end -> scan_status r = 1).
  { intros r Hr Hle.
    destruct (Z.eq_dec (scan_status r) 1) as [|Hne]; [assumption|].
    pose proof (not_scanned_above_start t r Hr Hne). lia. }
  split.
  - intros s1 Hrun. apply constructor_returns in Hrun.
    destruct Hrun as [Hrows Hst]. cbn [connect rows] in *.
    rewrite Hrows, Hst. exact Hbelow.
  - intros s0 Hrun. apply startup_returns in Hrun.
    destruct Hrun as (Hauto & Hrows & Hst). cbn [connect rows] in *.
    split.
    + rewrite Hrows, Hst. intros r' Hr' Hle.
      apply update_where_In in Hr'. destruct Hr' as (r & Hr & ->).
      rewrite id_cond in Hle. specialize (Hbelow r Hr Hle).
      rewrite Hbelow. cbn. exact Hbelow.
    + intros Hpre ops Hops.
      assert (Hinv : queue_inv s0).
      { unfold queue_inv. rewrite Hrows, Hst, Hauto.
        now apply table_inv_startup. }
      apply (queue_inv_run ops s0 Hops Hinv).
Qed.

(** The theorem on an empty table, and on the calls of scenario S3. *)
Lemma cursor_closed_reachable_witness :
  wf_rows [] 1 /\
  cursor_closed
    (rows (run [Put (sample "a") 100; GetNewScan 1; MarkResult 1 []]
             empty_queue))
    (start_id (run [Put (sample "a") 100; GetNewScan 1; MarkResult 1 []]
                 empty_queue)).
Proof.
  assert (Hwf : wf_rows [] 1) by (apply wf_rowsb_sound; reflexivity).
  split; [exact Hwf|].
  destruct (cursor_closed_reachable [] 1 [] Hwf) as [_ H].
  destruct (H empty_queue eq_refl) as [_ H'].
  apply H'.
  - intros u r [].
  - reflexivity.
Defined.

(** C4 as stated fails.  (1) In mid-life [reset_unscanned_item] returns
    the FAILED records 1 and 2, which lie below the cursor 3, to
    UNSCANNED.  (2) After a restart over the same table the cursor is 0
    and records 1 and 2 are UNSCANNED; dispatching and completing record 1
    alone moves the cursor to 3, the largest SCANNED id, past record 2,
    which is still UNSCANNED. *)
Lemma cursor_closed_counterexample :
  cursor_closed (rows two_failed_one_scanned)
    (start_id two_failed_one_scanned) /\
  (let s := step ResetUnscannedItem two_failed_one_scanned in
   start_id s = 3 /\
   map scan_status (rows s) = [UNSCANNED; UNSCANNED; SCANNED] /\
   ~ cursor_closed (rows s) (start_id s)) /\
  (let s0 := final (startup (connect (rows two_failed_one_scanned)
                               (auto_increment two_failed_one_scanned)
                               [])) in
   let s := run [GetNewScan 1; MarkResult 1 []] s0 in
   start_id s0 = 0 /\ start_id s = 3 /\
   map id (rows s) = [1; 2; 3] /\
   map scan_status (rows s) = [SCANNED; UNSCANNED; SCANNED] /\
   ~ cursor_closed (rows s) (start_id s)).
Proof.
  split; [|split].
  - intros r Hr _. vm_compute in Hr.
    destruct Hr as [<-|[<-|[<-|[]]]]; vm_compute; auto.
  - cbv zeta. split; [reflexivity|]. split; [reflexivity|].
    intros H.
    destruct (H {| id := 1; data := "request a"; data_hash := "a";
                   scan_status := 0; time := 100 |}) as [Hs|Hs].
    + vm_compute. auto.
    + vm_compute. discriminate.
    + discriminate Hs.
    + discriminate Hs.
  - cbv zeta. repeat (split; [reflexivity|]).
    intros H.
    destruct (H {| id := 2; data := "request b"; data_hash := "b";
                   scan_status := 0; time := 101 |}) as [Hs|Hs].
    + vm_compute. auto.
    + vm_compute. discriminate.
    + discriminate Hs.
    + discriminate Hs.
Qed.

(** *** The cursor never moves back *)

Lemma start_id_mark_result last failed s :
  start_id (final (mark_result last failed s)) = start_id s \/
  start_id s < start_id (final (mark_result last failed s)).
Proof.
  destruct (mark_result_run s last failed) as (_ & _ & Hcases).
  cbv zeta in Hcases.
  destruct Hcases as [(_ & _ & ->)|[(_ & _ & _ & -> & _)|(_ & _ & _ & ->)]];
    auto.
  destruct (select_max_id _ _) as [m|] eqn:E; auto.
  right. apply select_max_id_Some in E.
  destruct E as [(r & _ & Hp & <-) _].
  apply andb_true_iff in Hp. destruct Hp as [Hgt _].
  now apply Z.gtb_lt in Hgt.
Qed.

Lemma start_id_step o s : start_id s <= start_id (step o s).
Proof.
  destruct o as [r ts|n|last failed|]; cbn [step].
  - destruct (put_run r ts s) as (-> & _). lia.
  - destruct (get_new_scan_run n s) as (_ & -> & _). lia.
  - destruct (start_id_mark_result last failed s) as [-> |]; lia.
  - destruct (reset_unscanned_item_run s) as (_ & -> & _). lia.
Qed.

Lemma run_app ops1 ops2 s : run (ops1 ++ ops2) s = run ops2 (run ops1 s).
Proof. unfold run. apply fold_left_app. Qed.

Lemma start_id_run ops s : start_id s <= start_id (run ops s).
Proof.
  revert s. induction ops as [|o ops IH]; intros s; cbn; [lia|].
  specialize (IH (step o s)). pose proof (start_id_step o s).
  unfold run in IH. lia.
Qed.

(** C5.  [start_id] never decreases: [put], [get_new_scan] and
    [reset_unscanned_item] leave it as it is; [mark_result] leaves it as
    it is or makes it strictly larger; hence along every sequence of calls,
    whatever the driver does, the cursor after a longer run is at least
    the cursor after a shorter one. *)
Theorem start_id_monotone :
  (forall r ts s, start_id (final (put r ts s)) = start_id s) /\
  (forall n s, start_id (final (get_new_scan n s)) = start_id s) /\
  (forall s, start_id (final (reset_unscanned_item s)) = start_id s) /\
  (forall last_id failed_list s,
     start_id (final (mark_result last_id failed_list s)) = start_id s \/
     start_id s < start_id (final (mark_result last_id failed_list s))) /\
  (forall o s, start_id s <= start_id (step o s)) /\
  (forall ops s, start_id s <= start_id (run ops s)) /\
  (forall ops more s,
     start_id (run ops s) <= start_id (run (ops ++ more) s)).
Proof.
  split; [|split; [|split; [|split; [|split; [|split]]]]].
  - intros r ts s. now destruct (put_run r ts s) as (-> & _).
  - intros n s. now destruct (get_new_scan_run n s) as (_ & -> & _).
  - intros s. now destruct (reset_unscanned_item_run s) as (_ & -> & _).
  - intros. apply start_id_mark_result.
  - apply start_id_step.
  - apply start_id_run.
  - intros ops more s. rewrite run_app. apply start_id_run.
Qed.

(** *** Only scan_status changes *)

Lemma same_record_trans r1 r2 r3 :
  same_record r1 r2 -> same_record r2 r3 -> same_record r1 r3.
Proof.
  unfold same_record. intros (A1 & A2 & A3 & A4) (B1 & B2 & B3 & B4).
  repeat split; congruence.
Qed.

Lemma Forall2_same_trans t1 t2 t3 :
  Forall2 same_record t1 t2 -> Forall2 same_record t2 t3 ->
  Forall2 same_record t1 t3.
Proof.
  intros H. revert t3. induction H as [|a b l1 l2 Hab H IH]; intros t3 H3.
  - inversion H3. constructor.
  - inversion H3; subst. constructor.
    + eapply same_record_trans; eassumption.
    + now apply IH.
Qed.

Lemma get_new_scan_same n s :
  Forall2 same_record (rows s) (rows (final (get_new_scan n s))).
Proof.
  destruct (get_new_scan_run n s) as (_ & _ & _ & Hcases).
  cbv zeta in Hcases.
  destruct Hcases as [(_ & _ & [->| ->])|[(_ & _ & ->)
                                         |(first & rest & _ & -> & _)]];
    auto using Forall2_same_refl, update_limit_same.
Qed.

Lemma mark_result_same last failed s :
  Forall2 same_record (rows s) (rows (final (mark_result last failed s))).
Proof.
  destruct (mark_result_run s last failed) as (_ & _ & Hcases).
  cbv zeta in Hcases.
  assert (H2 : Forall2 same_record (rows s)
            (update_where (in_progress_in_range (start_id s) last) 1
               (update_where (failed_in_range (start_id s) last failed) 3
                  (rows s))))
    by (eapply Forall2_same_trans; apply update_where_same).
  destruct Hcases as [(_ & _ & ->)
                     |[(_ & _ & _ & _ & [->|[->| ->]])|(_ & _ & -> & _)]];
    auto using Forall2_same_refl, update_where_same.
Qed.

Lemma reset_unscanned_item_same s :
  Forall2 same_record (rows s) (rows (final (reset_unscanned_item s))).
Proof.
  destruct (reset_unscanned_item_run s) as (_ & _ & _ & Hcases).
  destruct Hcases as [(_ & _ & ->)|(_ & ->)];
    auto using Forall2_same_refl, update_where_same.
Qed.

Lemma keeps_same t t' : Forall2 same_record t t' -> keeps t t'.
Proof. intros H. exists t', []. now rewrite app_nil_r. Qed.

Lemma keeps_trans t1 t2 t3 : keeps t1 t2 -> keeps t2 t3 -> keeps t1 t3.
Proof.
  intros (k1 & a1 & -> & H1) (k2 & a2 & -> & H2).
  apply Forall2_app_inv_l in H2.
  destruct H2 as (k21 & k22 & H21 & H22 & ->).
  exists k21, (k22 ++ a2). rewrite app_assoc. split; [reflexivity|].
  eapply Forall2_same_trans; eassumption.
Qed.

Lemma step_keeps o s : keeps (rows s) (rows (step o s)).
Proof.
  destruct o as [r ts|n|last failed|]; cbn [step].
  - destruct (put_run r ts s) as (_ & _ & Hcases). cbv zeta in Hcases.
    destruct (pending s); [|destruct (has_hash _ (rows s))];
      destruct Hcases as (_ & -> & _);
      try (apply keeps_same, Forall2_same_refl).
    eexists (rows s), _. split; [reflexivity | apply Forall2_same_refl].
  - apply keeps_same, get_new_scan_same.
  - apply keeps_same, mark_result_same.
  - apply keeps_same, reset_unscanned_item_same.
Qed.

Lemma run_keeps ops s : keeps (rows s) (rows (run ops s)).
Proof.
  revert s. induction ops as [|o ops IH]; intros s; cbn.
  - apply keeps_same, Forall2_same_refl.
  - eapply keeps_trans; [apply step_keeps | apply IH].
Qed.

(** C10.  [get_new_scan], [mark_result] and [reset_unscanned_item],
    whatever the driver does, leave the table with the same records in
    the same places, each with its id, data, data_hash and time unchanged,
    and leave the AUTO_INCREMENT counter alone: they write scan_status and
    the cursor only.  No sequence of calls deletes a record: the table it
    leaves consists of the records it found, in place and with those four
    fields unchanged, followed by the records [put] has added. *)
Theorem frame_spec :
  (forall n s,
     Forall2 same_record (rows s) (rows (final (get_new_scan n s))) /\
     auto_increment (final (get_new_scan n s)) = auto_increment s) /\
  (forall last_id failed_list s,
     Forall2 same_record (rows s)
       (rows (final (mark_result last_id failed_list s))) /\
     auto_increment (final (mark_result last_id failed_list s))
     = auto_increment s) /\
  (forall s,
     Forall2 same_record (rows s) (rows (final (reset_unscanned_item s))) /\
     auto_increment (final (reset_unscanned_item s)) = auto_increment s) /\
  (forall ops s,
     exists kept added,
       rows (run ops s) = kept ++ added /\
       Forall2 same_record (rows s) kept).
Proof.
  split; [|split; [|split]].
  - intros n s. split; [apply get_new_scan_same|].
    now destruct (get_new_scan_run n s) as (-> & _).
  - intros last failed s. split; [apply mark_result_same|].
    now destruct (mark_result_run s last failed) as (-> & _).
  - intros s. split; [apply reset_unscanned_item_same|].
    now destruct (reset_unscanned_item_run s) as (-> & _).
  - intros ops s. apply run_keeps.
Qed.

(** *** put *)

Lemma has_hash_false h t :
  has_hash h t = false <-> forall x, In x t -> data_hash x <> h.
Proof.
  unfold has_hash. split.
  - intros H x Hx Heq.
    assert (Ht : existsb (fun r => String.eqb (data_hash r) h) t = true).
    { apply existsb_exists. exists x. split; [assumption|].
      now apply String.eqb_eq. }
    congruence.
  - intros H. destruct (existsb _ t) eqn:E; [|reflexivity].
    apply existsb_exists in E. destruct E as (x & Hx & Heq).
    apply String.eqb_eq in Heq. now apply H in Hx.
Qed.

Lemma has_hash_app h t1 t2 :
  has_hash h (t1 ++ t2) = has_hash h t1 || has_hash h t2.
Proof. unfold has_hash. apply existsb_app. Qed.

(** [put] when the driver is healthy: the unique index decides. *)
Lemma put_healthy r ts s :
  healthy s ->
  healthy (final (put r ts s)) /\
  outcome (put r ts s) = Return (negb (has_hash (get_hash r) (rows s))) /\
  rows (final (put r ts s)) =
    (if has_hash (get_hash r) (rows s) then rows s
     else rows s ++ [{| id := auto_increment s; data := dump r;
                        data_hash := get_hash r; scan_status := 0;
                        time := ts |}]).
Proof.
  intros Hh. destruct (put_run r ts s) as (_ & Hh' & Hcases).
  cbv zeta in Hcases. rewrite (healthy_pending s Hh) in Hcases.
  split; [auto|].
  destruct (has_hash (get_hash r) (rows s));
    destruct Hcases as (-> & -> & _); auto.
Qed.

(** C6.  A record whose hash is not yet in the table, put twice while the
    driver is healthy: the first [put] returns True and appends one row
    (the next id, scan_status 0); the second returns False, raises
    nothing and leaves the table alone, so the row count grows by exactly
    one.  It is the data_hash that decides: the second record may be any
    record with the same hash, and in general [put] returns True exactly
    when no row carries the hash. *)
Theorem put_twice r r' ts ts' s :
  healthy s ->
  get_hash r' = get_hash r ->
  (forall x, In x (rows s) -> data_hash x <> get_hash r) ->
  let p1 := put r ts s in
  let p2 := put r' ts' (final p1) in
  outcome p1 = Return true /\
  outcome p2 = Return false /\
  rows (final p1) =
    rows s ++ [{| id := auto_increment s; data := dump r;
                  data_hash := get_hash r; scan_status := UNSCANNED;
                  time := ts |}] /\
  rows (final p2) = rows (final p1) /\
  List.length (rows (final p2)) = S (List.length (rows s)) /\
  (forall x tx s0, healthy s0 ->
     outcome (put x tx s0)
     = Return (negb (has_hash (get_hash x) (rows s0)))).
Proof.
  intros Hh Hhash Hfresh p1 p2.
  apply has_hash_false in Hfresh.
  destruct (put_healthy r ts s Hh) as (Hh1 & Hout1 & Hrows1).
  rewrite Hfresh in Hout1, Hrows1. fold p1 in Hh1, Hout1, Hrows1.
  destruct (put_healthy r' ts' (final p1) Hh1) as (_ & Hout2 & Hrows2).
  fold p2 in Hout2, Hrows2.
  assert (Hdup : has_hash (get_hash r') (rows (final p1)) = true).
  { rewrite Hrows1, has_hash_app, Hhash. apply orb_true_iff. right.
    unfold has_hash. cbn. now rewrite String.eqb_refl. }
  rewrite Hdup in Hout2, Hrows2.
  repeat split; try assumption.
  - rewrite Hrows2, Hrows1, length_app. cbn. lia.
  - intros x tx s0 H0. now destruct (put_healthy x tx s0 H0) as (_ & -> & _).
Qed.

(** The theorem at scenario S1: the same payload put twice into an empty
    table. *)
Lemma put_twice_witness :
  healthy empty_queue /\
  outcome (put (sample "a") 100 empty_queue) = Return true /\
  outcome (put (sample "a") 101
             (final (put (sample "a") 100 empty_queue))) = Return false.
Proof.
  assert (Hh : healthy empty_queue) by (vm_compute; constructor).
  split; [exact Hh|].
  destruct (put_twice (sample "a") (sample "a") 100 101 empty_queue Hh
              eq_refl)
    as (H1 & H2 & _).
  - intros x [].
  - split; assumption.
Defined.

(** C9.  Whatever exception the INSERT of [put] meets: when it is a
    peewee.IntegrityError, on whichever constraint, [put] returns False
    and raises nothing; when it is any other exception [put] raises
    DatabaseError; when the INSERT succeeds [put] returns True.  So [put]
    raises only DatabaseError, and raises it exactly when the INSERT
    raised something that is not an IntegrityError.  The driver can
    raise each of these: an exception pending in the driver is what the
    INSERT raises. *)
Theorem put_integrity r ts s :
  (forall e s', create_object (dump r) (get_hash r) ts s = (Raise e, s') ->
     put r ts s =
       (if is_IntegrityError e then Return false else Raise DatabaseError,
        s')) /\
  (forall s', create_object (dump r) (get_hash r) ts s = (Return tt, s') ->
     put r ts s = (Return true, s')) /\
  (forall c, pending s = Some (IntegrityError c) ->
     outcome (put r ts s) = Return false /\
     rows (final (put r ts s)) = rows s) /\
  (forall e, pending s = Some e ->
     outcome (create_object (dump r) (get_hash r) ts s) = Raise e) /\
  (forall x, outcome (put r ts s) = Raise x <->
     x = DatabaseError /\
     exists e, outcome (create_object (dump r) (get_hash r) ts s) = Raise e
               /\ is_IntegrityError e = false).
Proof.
  split; [|split; [|split; [|split]]].
  - intros e s' H. unfold_method. rewrite H.
    now destruct (is_IntegrityError e).
  - intros s' H. unfold_method. now rewrite H.
  - intros c Hp. destruct (put_run r ts s) as (_ & _ & Hcases).
    cbv zeta in Hcases. rewrite Hp in Hcases. cbn in Hcases. tauto.
  - intros e Hp. unfold create_object, outcome. now rewrite Hp.
  - intros x. unfold outcome. unfold_method.
    destruct (create_object (dump r) (get_hash r) ts s) as [[[]|e] s'];
      cbn [fst].
    + split; [discriminate|]. intros (_ & e & He & _). discriminate.
    + destruct (is_IntegrityError e) eqn:Ei; cbn [fst]; split.
      * discriminate.
      * intros (_ & e' & [= <-] & He'). congruence.
      * intros [= <-]. eauto.
      * intros (-> & _). reflexivity.
Qed.

(** The theorem at a NOT NULL violation, which is not a violation of the
    unique index on data_hash. *)
Lemma put_integrity_witness :
  pending (connect [] 1 [Some (IntegrityError NotNull)])
  = Some (IntegrityError NotNull) /\
  outcome (put (sample "a") 100
             (connect [] 1 [Some (IntegrityError NotNull)]))
  = Return false.
Proof.
  split; [reflexivity|].
  destruct (put_integrity (sample "a") 100
              (connect [] 1 [Some (IntegrityError NotNull)]))
    as (_ & _ & H & _).
  apply (H NotNull). reflexivity.
Defined.

(** *** get_scan_count *)

Lemma filter_all {A} (l : list A) : filter (fun _ => true) l = l.
Proof. induction l as [|a l IH]; simpl; congruence. Qed.

(** [get_scan_count] under any behaviour of the driver. *)
Lemma get_scan_count_run s :
  let p := get_scan_count s in
  rows (final p) = rows s /\
  start_id (final p) = start_id s /\
  auto_increment (final p) = auto_increment s /\
  (healthy s -> healthy (final p)) /\
  ((outcome p = Raise DatabaseError /\ ~ healthy s) \/
   outcome p =
     Return (Z.of_nat (List.length (rows s)),
             Z.of_nat (List.length
                         (filter (fun r => scan_status r =? 1) (rows s))))).
Proof.
  unfold final, outcome, get_scan_count. unfold_method.
  match goal with |- context [execute ?q ?s1] =>
    destruct (execute_cases q s1) as [(e1 & Hp1 & ->)|(Hp1 & ->)] end;
    cbn [fst snd].
  { repeat split; try (now healthy_tac). left.
    split; eauto using pending_not_healthy. }
  match goal with |- context [execute ?q ?s1] =>
    destruct (execute_cases q s1) as [(e2 & Hp2 & ->)|(Hp2 & ->)] end;
    cbn [fst snd rows set_rows].
  { repeat split; try (now healthy_tac). left. split; [reflexivity|].
    apply not_healthy_next. eapply pending_not_healthy, Hp2. }
  repeat split; try (now healthy_tac). right.
  unfold select_count. now rewrite filter_all.
Qed.

Lemma filter_length_le {A} p (l : list A) :
  (List.length (filter p l) <= List.length l)%nat.
Proof.
  induction l as [|a l IH]; simpl; [lia|]. destruct (p a); simpl; lia.
Qed.

(** X1.  [get_scan_count], whatever the driver does, changes neither the
    table nor the cursor and raises nothing but DatabaseError, and that
    only when the driver fails.  When it returns (total, scanned), total
    is the number of rows, scanned the number of rows with scan_status 1,
    and 0 <= scanned <= total; on an empty table it returns (0, 0).  With
    a healthy driver it returns. *)
Theorem get_scan_count_spec s :
  let p := get_scan_count s in
  rows (final p) = rows s /\ start_id (final p) = start_id s /\
  (forall e, outcome p = Raise e -> e = DatabaseError /\ ~ healthy s) /\
  (forall total scanned, outcome p = Return (total, scanned) ->
     total = Z.of_nat (List.length (rows s)) /\
     scanned = Z.of_nat (List.length
                           (filter (fun r => scan_status r =? 1) (rows s)))
     /\ 0 <= scanned <= total /\
     (rows s = [] -> total = 0 /\ scanned = 0)) /\
  (healthy s -> exists total scanned, outcome p = Return (total, scanned)).
Proof.
  destruct (get_scan_count_run s) as (Hr & Hs & _ & _ & Hcases).
  cbv zeta in *. split; [exact Hr|]. split; [exact Hs|].
  destruct Hcases as [[Hout Hnh]| Hout]; rewrite Hout.
  - split; [intros e [= <-]; auto|]. split; [discriminate|].
    intros Hh. contradiction.
  - split; [discriminate|]. split; [|eauto].
    intros total scanned [= <- <-].
    pose proof (filter_length_le (fun r => scan_status r =? 1) (rows s)).
    repeat split; try lia;
      match goal with H0 : rows s = [] |- _ => now rewrite H0 end.
Qed.

(** The theorem after three records were put and one was scanned. *)
Lemma get_scan_count_spec_witness :
  healthy two_failed_one_scanned /\
  exists total scanned,
    outcome (get_scan_count two_failed_one_scanned)
    = Return (total, scanned).
Proof.
  assert (Hh : healthy two_failed_one_scanned) by (vm_compute; constructor).
  split; [exact Hh|].
  apply (get_scan_count_spec two_failed_one_scanned). exact Hh.
Defined.

Lemma keeps_length t t' :
  keeps t t' -> (List.length t <= List.length t')%nat.
Proof.
  intros (kept & added & -> & H). apply Forall2_length in H.
  rewrite length_app. lia.
Qed.

Lemma run_no_put_length ops s :
  forallb (fun o => match o with Put _ _ => false | _ => true end) ops
  = true ->
  List.length (rows (run ops s)) = List.length (rows s).
Proof.
  revert s. induction ops as [|o ops IH]; intros s Hops; [reflexivity|].
  cbn in Hops. apply andb_true_iff in Hops. destruct Hops as [Ho Hops].
  cbn [run fold_left].
  change (fold_left (fun s o => step o s) ops (step o s))
    with (run ops (step o s)).
  rewrite (IH (step o s) Hops).
  destruct o as [r ts|n|last failed|]; [discriminate| | |]; cbn [step];
    symmetry; eapply Forall2_length.
  - apply get_new_scan_same.
  - apply mark_result_same.
  - apply reset_unscanned_item_same.
Qed.

(** X2.  The total that [get_scan_count] reports never goes down: over
    any sequence of calls, whatever the driver does in between, a later
    total is at least an earlier one; and the three status-changing
    methods leave the total as it is. *)
Theorem scan_count_total_monotone ops s total scanned total' scanned' :
  outcome (get_scan_count s) = Return (total, scanned) ->
  outcome (get_scan_count (run ops s)) = Return (total', scanned') ->
  total <= total' /\
  (forallb (fun o => match o with Put _ _ => false | _ => true end) ops
   = true -> total' = total).
Proof.
  intros H1 H2.
  destruct (get_scan_count_run s) as (_ & _ & _ & _ & [[E _]|E]);
    cbv zeta in E; rewrite E in H1; [discriminate|].
  destruct (get_scan_count_run (run ops s)) as (_ & _ & _ & _ & [[E' _]|E']);
    cbv zeta in E'; rewrite E' in H2; [discriminate|].
  injection H1 as <- _. injection H2 as <- _.
  split.
  - pose proof (keeps_length _ _ (run_keeps ops s)). lia.
  - intros Hops. now rewrite (run_no_put_length ops s Hops).
Qed.

(** The theorem around scenario S2: a dispatch and a completion between
    two readings. *)
Lemma scan_count_total_monotone_witness :
  outcome (get_scan_count S2_inserted) = Return (5, 0) /\
  outcome (get_scan_count
             (run [GetNewScan 3; MarkResult 3 []] S2_inserted))
  = Return (5, 3) /\
  5 <= 5.
Proof.
  split; [reflexivity|]. split; [reflexivity|].
  apply (scan_count_total_monotone [GetNewScan 3; MarkResult 3 []]
           S2_inserted 5 0 5 3); reflexivity.
Defined.

(** *** get_last_time *)

Lemma insert_by_time_desc_head r l :
  match insert_by_time_desc r l with
  | [] => False
  | h :: _ =>
      match l with
      | [] => h = r
      | x :: _ => (h = r /\ time x <= time r) \/ (h = x /\ time r < time x)
      end
  end.
Proof.
  destruct l as [|x l]; simpl; [reflexivity|].
  destruct (Z.leb_spec (time x) (time r)); auto.
Qed.

(** The first row in descending time order carries the largest time. *)
Lemma order_by_time_desc_head t :
  match order_by_time_desc t with
  | [] => t = []
  | x :: _ => In x t /\ forall y, In y t -> time y <= time x
  end.
Proof.
  induction t as [|a t IH]; [reflexivity|].
  change (order_by_time_desc (a :: t))
    with (insert_by_time_desc a (order_by_time_desc t)).
  pose proof (insert_by_time_desc_head a (order_by_time_desc t)) as H.
  destruct (insert_by_time_desc a (order_by_time_desc t)) as [|h l];
    [contradiction|].
  destruct (order_by_time_desc t) as [|x l'].
  - subst. split; [now left|]. intros y [->|[]]. lia.
  - destruct IH as [Hx Hmax]. destruct H as [[-> Hle]|[-> Hlt]].
    + split; [now left|]. intros y [->|Hy]; [lia|].
      specialize (Hmax y Hy). lia.
    + split; [now right|]. intros y [->|Hy]; [lia | now apply Hmax].
Qed.

(** [get_last_time] under any behaviour of the driver. *)
Lemma get_last_time_run s :
  let p := get_last_time s in
  rows (final p) = rows s /\
  start_id (final p) = start_id s /\
  (healthy s -> healthy (final p)) /\
  ((outcome p = Raise DatabaseError /\ ~ healthy s /\
    (pending s = None -> pending (next_statement s) <> None)) \/
   (pending s = None /\ pending (next_statement s) = None /\
    outcome p =
      Return match order_by_time_desc (rows s) with
             | [] => 0
             | first :: _ => time first
             end)).
Proof.
  unfold final, outcome, get_last_time. unfold_method.
  match goal with |- context [execute ?q ?s1] =>
    destruct (execute_cases q s1) as [(e1 & Hp1 & ->)|(Hp1 & ->)] end;
    cbn [fst snd].
  { repeat split; try (now healthy_tac). left.
    repeat split; eauto using pending_not_healthy. congruence. }
  match goal with |- context [execute ?q ?s1] =>
    destruct (execute_cases q s1) as [(e2 & Hp2 & ->)|(Hp2 & ->)] end;
    cbn [fst snd rows set_rows].
  { repeat split; try (now healthy_tac). left. split; [reflexivity|].
    split.
    - apply not_healthy_next. eapply pending_not_healthy, Hp2.
    - intros _. change (pending (next_statement s) = Some e2) in Hp2.
      congruence. }
  change (pending (next_statement s) = None) in Hp2.
  destruct (order_by_time_desc (rows s)) as [|x l]; cbn;
    (repeat split; try (now healthy_tac)); right; auto.
Qed.

(** X3.  [get_last_time], whatever the driver does, changes neither the
    table nor the cursor and raises nothing but DatabaseError.  When it
    returns, it returns 0 on an empty table and otherwise the largest
    [time] of any row.  It sends its query twice: when the driver fails
    on the second statement it raises DatabaseError although the first
    SELECT went through.  With a healthy driver it returns. *)
Theorem get_last_time_spec s :
  let p := get_last_time s in
  rows (final p) = rows s /\ start_id (final p) = start_id s /\
  (forall e, outcome p = Raise e -> e = DatabaseError /\ ~ healthy s) /\
  (forall v, outcome p = Return v ->
     (rows s = [] /\ v = 0) \/
     ((exists r, In r (rows s) /\ time r = v) /\
      forall r, In r (rows s) -> time r <= v)) /\
  (forall e f, faults s = None :: Some e :: f ->
               outcome p = Raise DatabaseError) /\
  (healthy s -> exists v, outcome p = Return v).
Proof.
  destruct (get_last_time_run s) as (Hr & Hs & _ & Hcases).
  cbv zeta in *. split; [exact Hr|]. split; [exact Hs|].
  destruct Hcases as [(Hout & Hnh & Hsecond)|(Hp1 & Hp2 & Hout)];
    rewrite Hout.
  - split; [intros e [= <-]; auto|]. split; [discriminate|].
    split; [reflexivity|]. intros Hh. contradiction.
  - split; [discriminate|]. split; [|split; [|eauto]].
    + intros v [= <-].
      pose proof (order_by_time_desc_head (rows s)) as H.
      destruct (order_by_time_desc (rows s)) as [|x l]; [now left|].
      right. destruct H as [Hx Hmax]. split; [eauto | assumption].
    + intros e f Hf. exfalso. unfold pending, next_statement in Hp2.
      cbn in Hp2. rewrite Hf in Hp2. discriminate.
Qed.

(** The theorem when the second execution of the query fails. *)
Lemma get_last_time_spec_witness :
  faults (set_faults [None; Some OperationalError] two_failed_one_scanned)
  = [None; Some OperationalError] /\
  outcome (get_last_time
             (set_faults [None; Some OperationalError]
                two_failed_one_scanned))
  = Raise DatabaseError.
Proof.
  split; [reflexivity|].
  destruct (get_last_time_spec
              (set_faults [None; Some OperationalError]
                 two_failed_one_scanned))
    as (_ & _ & _ & _ & H & _).
  apply (H OperationalError []). reflexivity.
Defined.

(** X4.  A record put with a timestamp that is not older than any row's
    is what [get_last_time] reports next: with a healthy driver and a hash
    not yet in the table, [put] followed by [get_last_time] returns the
    timestamp of the [put]. *)
Theorem put_then_get_last_time r ts s :
  healthy s ->
  has_hash (get_hash r) (rows s) = false ->
  (forall x, In x (rows s) -> time x <= ts) ->
  outcome (put r ts s) = Return true /\
  outcome (get_last_time (final (put r ts s))) = Return ts.
Proof.
  intros Hh Hfresh Hold.
  destruct (put_healthy r ts s Hh) as (Hh1 & Hout1 & Hrows1).
  rewrite Hfresh in Hout1, Hrows1. split; [exact Hout1|].
  destruct (get_last_time_run (final (put r ts s)))
    as (_ & _ & _ & [(_ & Hnh & _)|(_ & _ & Hout)]); [contradiction|].
  cbv zeta in Hout. rewrite Hout. f_equal.
  pose proof (order_by_time_desc_head (rows (final (put r ts s)))) as H.
  destruct (order_by_time_desc (rows (final (put r ts s)))) as [|x l].
  - rewrite Hrows1 in H. now destruct (rows s).
  - destruct H as [Hx Hmax]. rewrite Hrows1 in Hx, Hmax.
    assert (Hge : ts <= time x).
    { apply (Hmax {| id := auto_increment s; data := dump r;
                     data_hash := get_hash r; scan_status := 0;
                     time := ts |}).
      apply in_or_app. right. now left. }
    apply in_app_or in Hx. destruct Hx as [Hx|[<-|[]]]; [|reflexivity].
    specialize (Hold x Hx). lia.
Qed.

(** The theorem on the five records of scenario S2. *)
Lemma put_then_get_last_time_witness :
  healthy S2_inserted /\
  has_hash (get_hash (sample "f")) (rows S2_inserted) = false /\
  outcome (get_last_time (final (put (sample "f") 200 S2_inserted)))
  = Return 200.
Proof.
  assert (Hh : healthy S2_inserted) by (vm_compute; constructor).
  split; [exact Hh|]. split; [reflexivity|].
  apply (put_then_get_last_time (sample "f") 200 S2_inserted Hh eq_refl).
  intros x Hx. vm_compute in Hx.
  destruct Hx as [<-|[<-|[<-|[<-|[<-|[]]]]]]; cbn [time]; lia.
Defined.

(** *** Exact dispatch *)

(** Under the invariant a healthy [get_new_scan n] returns the first [n]
    UNSCANNED records and marks exactly those. *)
Lemma get_new_scan_claims n s :
  queue_inv s -> healthy s ->
  exists l,
    outcome (get_new_scan n s) = Return l /\
    map item_id l
    = firstn n (map id (filter (fun r => scan_status r =? 0) (rows s))) /\
    map item_data l
    = firstn n (map data (filter (fun r => scan_status r =? 0) (rows s)))
    /\
    rows (final (get_new_scan n s))
    = map (fun r => if mem (id r) (map item_id l)
                    then set_status 2 r else r) (rows s).
Proof.
  intros Hinv Hh. pose proof Hinv as (Hwf & _ & Hcur & _ & Hclm).
  assert (Hsame : filter (claimable (start_id s)) (rows s)
                  = filter (fun r => scan_status r =? 0) (rows s)).
  { apply filter_ext_in. intros r Hr.
    destruct (Z.eqb_spec (scan_status r) 0) as [E|E]; [|reflexivity].
    destruct (Z.gtb_spec (id r) (start_id s)) as [|Hle]; [reflexivity|].
    destruct (Hcur r Hr Hle) as [Hs|Hs]; statuses; lia. }
  destruct (get_new_scan_dispatch n s Hwf Hh) as (l & Hout & Hids & Hdata).
  { intros r u Hr Hu Hst Hc. apply andb_true_iff in Hc.
    destruct Hc as [Hc _]. apply Z.eqb_eq in Hc. now apply (Hclm u r). }
  exists l. rewrite Hsame in Hids, Hdata.
  split; [exact Hout|]. split; [exact Hids|]. split; [exact Hdata|].
  assert (Hu : snd (update_limit (claimable (start_id s)) 2 n (rows s))
               = map (fun r => if mem (id r) (map item_id l)
                               then set_status 2 r else r) (rows s)).
  { rewrite (update_limit_by_ids _ 2 n 0 (rows s)) by apply Hwf.
    now rewrite Hsame, Hids, firstn_map. }
  destruct (get_new_scan_run n s) as (_ & _ & _ & Hcases).
  cbv zeta in Hcases.
  destruct Hcases as [(_ & Hnh & _)|[(Hprobe & _ & Hrows)
                                    |(first & rest & _ & Hrows & _)]].
  - contradiction.
  - rewrite Hrows, <- Hu.
    assert (Hnone : filter (claimable (start_id s)) (rows s) = []).
    { rewrite <- Hprobe. unfold select_where. apply filter_ext.
      intros r. apply andb_comm. }
    rewrite (update_limit_by_ids _ 2 n 0 (rows s)) by apply Hwf.
    rewrite Hnone. destruct n; cbn [firstn map]; symmetry;
      apply (map_unchanged [] 2 (rows s)); reflexivity.
  - now rewrite Hrows.
Qed.

(** X5.  Under the queue invariant and with a healthy driver,
    [get_new_scan count] returns exactly the first [count] UNSCANNED
    records of the table in id order (all of them when there are fewer),
    with their ids and data, and the records it has set to IN_PROGRESS
    are exactly the ones it returns: no record is claimed and not handed
    out. *)
Theorem get_new_scan_exact count s :
  queue_inv s -> healthy s ->
  exists l,
    outcome (get_new_scan count s) = Return l /\
    map item_id l
    = firstn count
        (map id (filter (fun r => scan_status r =? UNSCANNED) (rows s))) /\
    map item_data l
    = firstn count
        (map data (filter (fun r => scan_status r =? UNSCANNED) (rows s)))
    /\
    rows (final (get_new_scan count s))
    = map (fun r => if mem (id r) (map item_id l)
                    then set_status IN_PROGRESS r else r) (rows s).
Proof. intros Hinv Hh. exact (get_new_scan_claims count s Hinv Hh). Qed.

Lemma queue_inv_empty_queue : queue_inv empty_queue.
Proof.
  split_inv.
  - apply wf_rowsb_sound. reflexivity.
  - reflexivity.
  - intros r [].
  - intros u r [].
  - intros u r [].
Qed.

(** The theorem at scenario S2. *)
Lemma get_new_scan_exact_witness :
  queue_inv S2_inserted /\ healthy S2_inserted /\
  exists l, outcome (get_new_scan 3 S2_inserted) = Return l /\
            map item_id l = [1; 2; 3].
Proof.
  assert (Hinv : queue_inv S2_inserted)
    by (apply queue_inv_run; [reflexivity | apply queue_inv_empty_queue]).
  assert (Hh : healthy S2_inserted) by (vm_compute; constructor).
  split; [exact Hinv|]. split; [exact Hh|].
  destruct (get_new_scan_exact 3 S2_inserted Hinv Hh) as (l & H1 & H2 & _).
  exists l. split; [exact H1|]. rewrite H2. reflexivity.
Defined.

(** X12.  [get_new_scan 0] hands out nothing and claims nothing: whatever
    the driver does the table is as it was, a returned list is empty, and
    with a healthy driver the empty list is returned. *)
Theorem get_new_scan_zero s :
  rows (final (get_new_scan 0 s)) = rows s /\
  (forall l, outcome (get_new_scan 0 s) = Return l -> l = []) /\
  (healthy s -> outcome (get_new_scan 0 s) = Return []).
Proof.
  destruct (get_new_scan_run 0 s) as (_ & _ & _ & Hcases).
  cbv zeta in Hcases. rewrite update_limit_O in Hcases.
  cbn [fst snd Nat.eqb] in Hcases.
  destruct Hcases as [(Hout & Hnh & Hrows)|[(_ & Hout & Hrows)
                                           |(first & rest & _ & Hrows & Hout)]];
    rewrite Hout.
  - split; [now destruct Hrows|]. split; [discriminate|].
    intros Hh. contradiction.
  - split; [exact Hrows|]. split; [now intros l [= <-] | reflexivity].
  - split; [exact Hrows|]. split; [now intros l [= <-] | reflexivity].
Qed.

(** The theorem at scenario S2. *)
Lemma get_new_scan_zero_witness :
  healthy S2_inserted /\
  outcome (get_new_scan 0 S2_inserted) = Return [].
Proof.
  assert (Hh : healthy S2_inserted) by (vm_compute; constructor).
  split; [exact Hh|].
  apply (get_new_scan_zero S2_inserted). exact Hh.
Defined.

(** *** What a call may do to a record *)

Lemma Forall2_weaken {A B} (R R' : A -> B -> Prop) l l' :
  (forall x y, R x y -> R' x y) -> Forall2 R l l' -> Forall2 R' l l'.
Proof. intros H F. induction F; constructor; auto. Qed.

Lemma Forall2_refl_on {A} (R : A -> A -> Prop) l :
  (forall x, R x x) -> Forall2 R l l.
Proof. intros H. induction l; constructor; auto. Qed.

Lemma Forall2_in_l {A B} (R : A -> B -> Prop) l l' x :
  Forall2 R l l' -> In x l -> exists y, In y l' /\ R x y.
Proof.
  intros F. induction F as [|a b l l' Hab F IH]; intros Hx; [easy|].
  destruct Hx as [<-|Hx].
  - exists b. split; [now left | assumption].
  - destruct (IH Hx) as (y & Hy & Hr). exists y. split; [now right|auto].
Qed.

Lemma row_step_refl o start r : row_step o start r r.
Proof.
  unfold row_step, transition. split; [apply same_record_refl|].
  split; [now left|]. now destruct o.
Qed.

(** The claim of [get_new_scan] on one row. *)
Lemma claim_row_step n start (b : bool) r :
  (b = true -> claimable start r = true) ->
  row_step (GetNewScan n) start r (if b then set_status 2 r else r).
Proof.
  intros Hb. destruct b; [|apply row_step_refl].
  specialize (Hb eq_refl). apply andb_true_iff in Hb.
  destruct Hb as [Hst Hgt]. apply Z.eqb_eq in Hst. apply Z.gtb_lt in Hgt.
  unfold row_step, transition, same_record. cbn. statuses.
  repeat split; auto. lia.
Qed.

Lemma update_limit_row_step p v n t (R : ResultList -> ResultList -> Prop) :
  (forall r, R r r) ->
  (forall r, p r = true -> R r (set_status v r)) ->
  Forall2 R t (snd (update_limit p v n t)).
Proof.
  intros Hrefl Hset. revert n.
  induction t as [|a t IH]; intros [|n];
    rewrite ?update_limit_O; cbn [snd];
    try (apply Forall2_refl_on; assumption).
  rewrite update_limit_S. destruct (p a) eqn:Ea.
  - specialize (IH n). destruct (update_limit p v n t) as [k u].
    constructor; auto.
  - specialize (IH (S n)). destruct (update_limit p v (S n) t) as [k u].
    constructor; auto.
Qed.

(** The two updates of [mark_result] on one row, and the first alone. *)
Lemma mark_row_step start last failed r :
  let r1 := if failed_in_range start last failed r
            then set_status 3 r else r in
  let r2 := if in_progress_in_range start last r1
            then set_status 1 r1 else r1 in
  row_step (MarkResult last failed) start r r1 /\
  row_step (MarkResult last failed) start r r2.
Proof.
  cbv zeta. unfold row_step, transition, same_record. statuses.
  destruct (mem (id r) failed);
    destruct (Z.leb_spec (id r) last), (Z.gtb_spec (id r) start);
    cbn; rewrite ?andb_false_r; cbn;
    try (destruct (Z.leb_spec (id r) last); [|lia]);
    try (destruct (Z.gtb_spec (id r) start); [|lia]);
    try (destruct (Z.leb_spec (id r) last); [lia|]);
    try (destruct (Z.gtb_spec (id r) start); [lia|]);
    cbn;
    destruct (Z.eqb_spec (scan_status r) 2); cbn;
    repeat split; auto; try lia; intros; try lia; auto.
Qed.

(** Every call, whatever the driver does, keeps the rows it found, in
    place, each changed as [row_step] allows, and [put] alone may add one
    UNSCANNED row at the end. *)
Lemma step_rows o s :
  exists kept added,
    rows (step o s) = kept ++ added /\
    Forall2 (row_step o (start_id s)) (rows s) kept /\
    (added = [] \/
     exists r ts a, o = Put r ts /\ added = [a] /\
                    id a = auto_increment s /\ data a = dump r /\
                    data_hash a = get_hash r /\
                    scan_status a = UNSCANNED /\ time a = ts).
Proof.
  destruct o as [r ts|n|last failed|]; cbn [step].
  - destruct (put_run r ts s) as (_ & _ & Hcases). cbv zeta in Hcases.
    destruct (pending s); [|destruct (has_hash _ (rows s))];
      destruct Hcases as (_ & -> & _).
    1,2: exists (rows s), []; rewrite app_nil_r;
      repeat split; auto; apply Forall2_refl_on; apply row_step_refl.
    eexists (rows s), _. split; [reflexivity|].
    split; [apply Forall2_refl_on; apply row_step_refl|].
    right. eexists r, ts, _. repeat split.
  - exists (rows (final (get_new_scan n s))), []. rewrite app_nil_r.
    split; [reflexivity|]. split; [|now left].
    destruct (get_new_scan_run n s) as (_ & _ & _ & Hcases).
    cbv zeta in Hcases.
    assert (Hu : Forall2 (row_step (GetNewScan n) (start_id s)) (rows s)
                   (snd (update_limit (claimable (start_id s)) 2 n
                           (rows s)))).
    { apply update_limit_row_step; [apply row_step_refl|].
      intros r Hr. apply (claim_row_step n (start_id s) true r). auto. }
    destruct Hcases as [(_ & _ & [->| ->])|[(_ & _ & ->)
                                           |(first & rest & _ & -> & _)]];
      auto; apply Forall2_refl_on; apply row_step_refl.
  - exists (rows (final (mark_result last failed s))), [].
    rewrite app_nil_r. split; [reflexivity|]. split; [|now left].
    destruct (mark_result_run s last failed) as (_ & _ & Hcases).
    cbv zeta in Hcases.
    assert (H1 : Forall2 (row_step (MarkResult last failed) (start_id s))
                   (rows s)
                   (update_where
                      (failed_in_range (start_id s) last failed) 3
                      (rows s))).
    { unfold update_where. apply Forall2_map_r. intros r _.
      apply (mark_row_step (start_id s) last failed r). }
    assert (H2 : Forall2 (row_step (MarkResult last failed) (start_id s))
                   (rows s)
                   (update_where (in_progress_in_range (start_id s) last) 1
                      (update_where
                         (failed_in_range (start_id s) last failed) 3
                         (rows s)))).
    { unfold update_where. rewrite map_map. apply Forall2_map_r.
      intros r _. apply (mark_row_step (start_id s) last failed r). }
    destruct Hcases as [(_ & _ & ->)
                       |[(_ & _ & _ & _ & [->|[->| ->]])|(_ & _ & -> & _)]];
      auto; apply Forall2_refl_on; apply row_step_refl.
  - exists (rows (final (reset_unscanned_item s))), [].
    rewrite app_nil_r. split; [reflexivity|]. split; [|now left].
    destruct (reset_unscanned_item_run s) as (_ & _ & _ & Hcases).
    destruct Hcases as [(_ & _ & ->)|(_ & ->)];
      [apply Forall2_refl_on; apply row_step_refl|].
    unfold update_where. apply Forall2_map_r. intros r _.
    unfold row_step, transition, same_record. statuses.
    destruct (Z.gtb_spec (scan_status r) 1); cbn; repeat split; auto.
Qed.

(** X11.  The status changes one call can make, whatever the driver
    does.  [put] changes no existing record and adds at most one, which
    is UNSCANNED.  [get_new_scan] only turns UNSCANNED into IN_PROGRESS.
    [mark_result] only sets FAILED, or turns IN_PROGRESS into SCANNED.
    [reset_unscanned_item] only turns a status above 1 (IN_PROGRESS,
    FAILED) into UNSCANNED.  In particular no single call takes a record
    from SCANNED back to UNSCANNED or IN_PROGRESS. *)
Theorem status_transitions o s :
  exists kept added,
    rows (step o s) = kept ++ added /\
    Forall2
      (fun r r' =>
         same_record r r' /\
         transition o (scan_status r) (scan_status r') /\
         (scan_status r = SCANNED ->
          scan_status r' <> UNSCANNED /\ scan_status r' <> IN_PROGRESS))
      (rows s) kept /\
    Forall (fun a => scan_status a = UNSCANNED) added /\
    (List.length added <= 1)%nat /\
    (added <> [] -> exists r ts, o = Put r ts).
Proof.
  destruct (step_rows o s) as (kept & added & Hrows & Hkept & Hadded).
  exists kept, added. split; [exact Hrows|]. split.
  - eapply Forall2_weaken; [|exact Hkept].
    intros r r' (Hsame & Htr & _).
    split; [exact Hsame|]. split; [exact Htr|].
    intros E. unfold transition in Htr. statuses.
    destruct Htr as [Htr|Htr]; [lia|].
    destruct o; try contradiction; lia.
  - destruct Hadded as [->|(r & ts & a & -> & -> & _ & _ & _ & Hst & _)].
    + repeat split; [constructor | cbn; lia | congruence].
    + repeat split; [repeat constructor; exact Hst | cbn; lia | eauto].
Qed.

(** X8.  [get_new_scan] and [mark_result] never touch a record at or
    below the cursor, whatever the driver does and whatever the
    arguments: every row whose id is at most [start_id] is the same row
    afterwards. *)
Theorem rows_below_cursor_untouched s :
  (forall count,
     Forall2 (fun r r' => id r <= start_id s -> r' = r)
       (rows s) (rows (final (get_new_scan count s)))) /\
  (forall last_id failed_list,
     Forall2 (fun r r' => id r <= start_id s -> r' = r)
       (rows s) (rows (final (mark_result last_id failed_list s)))).
Proof.
  split.
  - intros n.
    destruct (step_rows (GetNewScan n) s)
      as (kept & added & Hrows & Hkept & [->|(r & ts & a & Ho & _)]);
      [|discriminate].
    cbn [step] in Hrows. rewrite Hrows, app_nil_r.
    eapply Forall2_weaken; [|exact Hkept]. now intros r r' (_ & _ & H).
  - intros last failed.
    destruct (step_rows (MarkResult last failed) s)
      as (kept & added & Hrows & Hkept & [->|(r & ts & a & Ho & _)]);
      [|discriminate].
    cbn [step] in Hrows. rewrite Hrows, app_nil_r.
    eapply Forall2_weaken; [|exact Hkept]. now intros r r' (_ & _ & H).
Qed.

(** The theorem at scenario S3: record 1 lies below the cursor after the
    completion and a further completion leaves it alone. *)
Lemma rows_below_cursor_untouched_witness :
  start_id (final (mark_result 4 [3; 4] S3_dispatched)) = 2 /\
  Forall2
    (fun r r' =>
       id r <= start_id (final (mark_result 4 [3; 4] S3_dispatched)) ->
       r' = r)
    (rows (final (mark_result 4 [3; 4] S3_dispatched)))
    (rows (final (mark_result 4 [1; 2]
                    (final (mark_result 4 [3; 4] S3_dispatched))))).
Proof.
  split; [reflexivity|].
  apply (rows_below_cursor_untouched
           (final (mark_result 4 [3; 4] S3_dispatched))).
Defined.

(** The theorem at the completion of scenario S3. *)
Lemma status_transitions_witness :
  exists kept added,
    rows (step (MarkResult 4 [3; 4]) S3_dispatched) = kept ++ added /\
    Forall (fun a => scan_status a = UNSCANNED) added /\
    (added <> [] -> exists r ts, MarkResult 4 [3; 4] = Put r ts).
Proof.
  destruct (status_transitions (MarkResult 4 [3; 4]) S3_dispatched)
    as (kept & added & H1 & _ & H3 & _ & H5).
  exists kept, added. auto.
Defined.

(** *** A record is dispatched once *)

Lemma healthy_step o s : healthy s -> healthy (step o s).
Proof.
  destruct o as [r ts|n|last failed|]; cbn [step].
  - now destruct (put_run r ts s) as (_ & H & _).
  - now destruct (get_new_scan_run n s) as (_ & _ & H & _).
  - now destruct (mark_result_run s last failed) as (_ & H & _).
  - now destruct (reset_unscanned_item_run s) as (_ & _ & H & _).
Qed.

Lemma healthy_run ops s : healthy s -> healthy (run ops s).
Proof.
  revert s. induction ops as [|o ops IH]; intros s H; [assumption|].
  cbn. apply IH. now apply healthy_step.
Qed.

(** Without a reset, a record that is not UNSCANNED never becomes
    UNSCANNED again. *)
Lemma step_not_unscanned o s r :
  is_reset o = false -> In r (rows s) -> scan_status r <> 0 ->
  exists r', In r' (rows (step o s)) /\ id r' = id r /\
             scan_status r' <> 0.
Proof.
  intros Ho Hr Hst.
  destruct (step_rows o s) as (kept & added & Hrows & Hkept & _).
  destruct (Forall2_in_l _ _ _ _ Hkept Hr) as (r' & Hr' & Hsame & Htr & _).
  exists r'. rewrite Hrows. split; [apply in_or_app; now left|].
  split; [apply Hsame|].
  unfold transition in Htr. statuses. destruct Htr as [Htr|Htr]; [lia|].
  destruct o; try contradiction; try discriminate; lia.
Qed.

Lemma run_not_unscanned ops s r :
  forallb (fun o => negb (is_reset o)) ops = true ->
  In r (rows s) -> scan_status r <> 0 ->
  exists r', In r' (rows (run ops s)) /\ id r' = id r /\
             scan_status r' <> 0.
Proof.
  revert s r. induction ops as [|o ops IH]; intros s r Hops Hr Hst.
  - exists r. auto.
  - cbn in Hops. apply andb_true_iff in Hops. destruct Hops as [Ho Hops].
    apply negb_true_iff in Ho.
    destruct (step_not_unscanned o s r Ho Hr Hst) as (r1 & Hr1 & Hid1 & Hst1).
    destruct (IH (step o s) r1 Hops Hr1 Hst1) as (r' & Hr' & Hid & Hst').
    exists r'. cbn. repeat split; auto. congruence.
Qed.

(** X6.  A record handed out by [get_new_scan] is not handed out again:
    under the queue invariant and with a healthy driver, after any
    further calls of [put], [get_new_scan] and [mark_result] (no
    [reset_unscanned_item]), the list a later [get_new_scan] returns
    shares no id with the list the earlier one returned. *)
Theorem dispatched_once s count ops count' l l' :
  queue_inv s -> healthy s ->
  forallb (fun o => negb (is_reset o)) ops = true ->
  outcome (get_new_scan count s) = Return l ->
  outcome (get_new_scan count' (run ops (final (get_new_scan count s))))
  = Return l' ->
  forall i j, In i l -> In j l' -> item_id i <> item_id j.
Proof.
  intros Hinv Hh Hops Hl Hl' i j Hi Hj Heq.
  set (s1 := final (get_new_scan count s)) in *.
  set (s2 := run ops s1) in *.
  assert (Hinv1 : queue_inv s1)
    by (apply (queue_inv_step (GetNewScan count) s); auto).
  assert (Hinv2 : queue_inv s2) by (apply queue_inv_run; assumption).
  assert (Hh2 : healthy s2)
    by (apply healthy_run; apply (healthy_step (GetNewScan count) s Hh)).
  (* the first batch is IN_PROGRESS in s1 *)
  destruct (get_new_scan_claims count s Hinv Hh)
    as (l0 & Hout & Hids & _ & Hrows).
  rewrite Hl in Hout. injection Hout as <-.
  assert (Hi1 : exists r1, In r1 (rows s1) /\ id r1 = item_id i /\
                           scan_status r1 <> 0).
  { assert (Hin : In (item_id i) (map item_id l)) by now apply in_map.
    pose proof Hin as Hmem. apply mem_In in Hmem.
    rewrite Hids in Hin. apply firstn_incl, in_map_iff in Hin.
    destruct Hin as (r & Hid & Hr). apply filter_In in Hr.
    destruct Hr as [Hr _].
    exists (set_status 2 r). unfold s1. rewrite Hrows.
    split; [|split; [exact Hid | cbn; lia]].
    apply in_map_iff. exists r. split; [|exact Hr].
    now rewrite Hid, Hmem. }
  destruct Hi1 as (r1 & Hr1 & Hid1 & Hst1).
  destruct (run_not_unscanned ops s1 r1 Hops Hr1 Hst1)
    as (r2 & Hr2 & Hid2 & Hst2).
  (* the second batch was UNSCANNED in s2 *)
  destruct (get_new_scan_claims count' s2 Hinv2 Hh2)
    as (l0 & Hout & Hids' & _).
  rewrite Hl' in Hout. injection Hout as <-.
  assert (Hin : In (item_id j) (map item_id l')) by now apply in_map.
  rewrite Hids' in Hin. apply firstn_incl, in_map_iff in Hin.
  destruct Hin as (u & Hidu & Hu). apply filter_In in Hu.
  destruct Hu as [Hu Hstu]. apply Z.eqb_eq in Hstu.
  assert (r2 = u).
  { destruct Hinv2 as ((Hasc & _) & _).
    apply (ascending_inj 0 (rows s2)); auto. congruence. }
  subst u. contradiction.
Qed.

(** The theorem at scenario S2, with a completion in between. *)
Lemma dispatched_once_witness :
  queue_inv S2_inserted /\ healthy S2_inserted /\
  forall i j,
    In i [{| item_id := 1; item_data := "request a" |};
          {| item_id := 2; item_data := "request b" |};
          {| item_id := 3; item_data := "request c" |}] ->
    In j [{| item_id := 4; item_data := "request d" |};
          {| item_id := 5; item_data := "request e" |}] ->
    item_id i <> item_id j.
Proof.
  assert (Hinv : queue_inv S2_inserted)
    by (apply queue_inv_run; [reflexivity | apply queue_inv_empty_queue]).
  assert (Hh : healthy S2_inserted) by (vm_compute; constructor).
  split; [exact Hinv|]. split; [exact Hh|].
  apply (dispatched_once S2_inserted 3 [MarkResult 3 []] 10 _ _ Hinv Hh);
    reflexivity.
Defined.

(** X7.  What is put comes out: under the queue invariant and with a
    healthy driver, after a [put] of a record whose hash is new,
    [get_new_scan count] returns the first [count] of the records that
    were UNSCANNED followed by the new record, which carries the next
    AUTO_INCREMENT id and the [dump()] of what was put. *)
Theorem put_then_get_new_scan r ts count s :
  queue_inv s -> healthy s ->
  has_hash (get_hash r) (rows s) = false ->
  exists l,
    outcome (get_new_scan count (final (put r ts s))) = Return l /\
    map item_id l
    = firstn count
        (map id (filter (fun x => scan_status x =? UNSCANNED) (rows s))
         ++ [auto_increment s]) /\
    map item_data l
    = firstn count
        (map data (filter (fun x => scan_status x =? UNSCANNED) (rows s))
         ++ [dump r]).
Proof.
  intros Hinv Hh Hfresh.
  destruct (put_healthy r ts s Hh) as (Hh1 & _ & Hrows1).
  rewrite Hfresh in Hrows1.
  assert (Hinv1 : queue_inv (final (put r ts s)))
    by (apply (queue_inv_step (Put r ts) s); auto).
  destruct (get_new_scan_claims count _ Hinv1 Hh1)
    as (l & Hout & Hids & Hdata & _).
  exists l. split; [exact Hout|].
  rewrite Hrows1, filter_app, map_app in Hids, Hdata. auto.
Qed.

(** The theorem on the five records of scenario S2: the sixth comes out
    after them. *)
Lemma put_then_get_new_scan_witness :
  queue_inv S2_inserted /\ healthy S2_inserted /\
  has_hash (get_hash (sample "f")) (rows S2_inserted) = false /\
  exists l,
    outcome (get_new_scan 6 (final (put (sample "f") 200 S2_inserted)))
    = Return l /\
    map item_id l = [1; 2; 3; 4; 5; 6] /\
    map item_data l
    = map dump [sample "a"; sample "b"; sample "c"; sample "d";
                sample "e"; sample "f"].
Proof.
  assert (Hinv : queue_inv S2_inserted)
    by (apply queue_inv_run; [reflexivity | apply queue_inv_empty_queue]).
  assert (Hh : healthy S2_inserted) by (vm_compute; constructor).
  split; [exact Hinv|]. split; [exact Hh|]. split; [reflexivity|].
  destruct (put_then_get_new_scan (sample "f") 200 6 S2_inserted
              Hinv Hh eq_refl)
    as (l & H1 & H2 & H3).
  exists l. split; [exact H1|]. rewrite H2, H3. split; reflexivity.
Defined.

(** X18.  A record that is not UNSCANNED is never handed out: under the
    queue invariant, whatever calls of [put], [get_new_scan] and
    [mark_result] come in between and whatever the driver did during
    them, a [get_new_scan] that finds the driver healthy returns no record
    that was IN_PROGRESS, SCANNED or FAILED.  So the records claimed by a
    [get_new_scan] whose fetch then failed in the driver stay
    IN_PROGRESS and are not handed out until a reset. *)
Theorem not_unscanned_not_dispatched s x ops count l :
  queue_inv s ->
  In x (rows s) -> scan_status x <> UNSCANNED ->
  forallb (fun o => negb (is_reset o)) ops = true ->
  healthy (run ops s) ->
  outcome (get_new_scan count (run ops s)) = Return l ->
  forall j, In j l -> item_id j <> id x.
Proof.
  intros Hinv Hx Hst Hops Hh Hl j Hj Heq.
  destruct (run_not_unscanned ops s x Hops Hx Hst)
    as (x2 & Hx2 & Hid2 & Hst2).
  assert (Hinv2 : queue_inv (run ops s)) by now apply queue_inv_run.
  destruct (get_new_scan_claims count _ Hinv2 Hh) as (l0 & Hout & Hids & _).
  rewrite Hl in Hout. injection Hout as <-.
  assert (Hin : In (item_id j) (map item_id l)) by now apply in_map.
  rewrite Hids in Hin. apply firstn_incl, in_map_iff in Hin.
  destruct Hin as (u & Hidu & Hu). apply filter_In in Hu.
  destruct Hu as [Hu Hstu]. apply Z.eqb_eq in Hstu.
  assert (x2 = u).
  { destruct Hinv2 as ((Hasc & _) & _).
    apply (ascending_inj 0 (rows (run ops s))); auto. congruence. }
  subst u. contradiction.
Qed.

(** The theorem after a [get_new_scan 2] whose claim went through and
    whose fetch failed: record 1 was claimed, not returned, and the next
    call does not return it. *)
Lemma not_unscanned_not_dispatched_witness :
  let s := final (get_new_scan 2
                    (set_faults [None; None; Some OperationalError]
                       S2_inserted)) in
  outcome (get_new_scan 2
             (set_faults [None; None; Some OperationalError] S2_inserted))
  = Raise DatabaseError /\
  map scan_status (rows s) = [2; 2; 0; 0; 0] /\
  forall j,
    In j [{| item_id := 3; item_data := "request c" |};
          {| item_id := 4; item_data := "request d" |};
          {| item_id := 5; item_data := "request e" |}] ->
    item_id j <> 1.
Proof.
  cbv zeta. split; [reflexivity|]. split; [reflexivity|].
  set (s := final (get_new_scan 2
                     (set_faults [None; None; Some OperationalError]
                        S2_inserted))).
  assert (Hinv : queue_inv s).
  { apply (queue_inv_step (GetNewScan 2)); [reflexivity|].
    apply (queue_inv_run _ empty_queue); [reflexivity|].
    apply queue_inv_empty_queue. }
  apply (not_unscanned_not_dispatched s
           {| id := 1; data := "request a"; data_hash := "a";
              scan_status := 2; time := 100 |} [] 5 _ Hinv).
  - vm_compute. auto.
  - discriminate.
  - reflexivity.
  - vm_compute. constructor.
  - reflexivity.
Defined.

(** *** The table stays well formed *)

Lemma ascending_NoDup lo l : ascending lo l -> NoDup l.
Proof.
  revert lo. induction l as [|a l IH]; intros lo H; constructor.
  - destruct H as [_ H]. intros Hin.
    pose proof (ascending_In _ _ _ H Hin). lia.
  - destruct H as [_ H]. eauto.
Qed.

Lemma same_record_hashes t t' :
  Forall2 same_record t t' -> map data_hash t' = map data_hash t.
Proof.
  intros H. induction H as [|a b l l' Hab H IH]; [reflexivity|].
  cbn. f_equal; [apply Hab | exact IH].
Qed.

Lemma same_record_ids t t' :
  Forall2 same_record t t' -> map id t' = map id t.
Proof.
  intros H. induction H as [|a b l l' Hab H IH]; [reflexivity|].
  cbn. f_equal; [apply Hab | exact IH].
Qed.

Lemma wf_step o s : wf s -> wf (step o s).
Proof.
  unfold wf. intros Hwf.
  destruct (step_rows o s) as (kept & added & Hrows & Hkept & Hadded).
  assert (Hauto : added = [] ->
                  auto_increment (step o s) = auto_increment s).
  { intros ->. rewrite app_nil_r in Hrows.
    destruct o as [r ts|n|last failed|]; cbn [step] in *.
    - destruct (put_run r ts s) as (_ & _ & Hcases). cbv zeta in Hcases.
      destruct (pending s); [|destruct (has_hash _ (rows s))];
        destruct Hcases as (_ & Hr & Ha); try exact Ha.
      exfalso. rewrite Hr in Hrows.
      apply Forall2_length in Hkept. apply (f_equal (@List.length _)) in Hrows.
      rewrite length_app in Hrows. cbn in Hrows. lia.
    - now destruct (get_new_scan_run n s) as (-> & _).
    - now destruct (mark_result_run s last failed) as (-> & _).
    - now destruct (reset_unscanned_item_run s) as (-> & _). }
  assert (Hkept_wf : wf_rows kept (auto_increment s)).
  { apply wf_rows_restatus with (rows s); [| |exact Hwf].
    - apply same_record_ids. eapply Forall2_weaken; [|exact Hkept].
      now intros r r' (H & _).
    - intros r' Hr'.
      assert (Hk : Forall2 (fun a b => row_step o (start_id s) b a) kept
                     (rows s)).
      { clear -Hkept. induction Hkept; constructor; auto. }
      destruct (Forall2_in_l _ _ _ _ Hk Hr') as (r & Hr & _ & Htr & _).
      destruct Hwf as (_ & _ & _ & Hrange). specialize (Hrange r Hr).
      unfold transition in Htr. statuses.
      destruct Htr as [Htr|Htr]; [lia|].
      destruct o; try contradiction; lia. }
  rewrite Hrows.
  destruct Hadded as [->|(r & ts & a & -> & -> & Hid & _ & _ & Hst & _)].
  - rewrite app_nil_r, Hauto by reflexivity. exact Hkept_wf.
  - cbn [step] in *.
    destruct (put_run r ts s) as (_ & _ & Hcases). cbv zeta in Hcases.
    assert (Ha : auto_increment (final (put r ts s))
                 = auto_increment s + 1).
    { destruct (pending s); [|destruct (has_hash _ (rows s))];
        destruct Hcases as (_ & Hr & Ha); try exact Ha;
        exfalso; rewrite Hr in Hrows;
        apply Forall2_length in Hkept;
        apply (f_equal (@List.length _)) in Hrows;
        rewrite length_app in Hrows; cbn in Hrows; lia. }
    rewrite Ha. destruct Hkept_wf as (Hasc & Hpos & Hids & Hrange).
    split; [|split; [|split]].
    + rewrite map_app. cbn [map]. rewrite Hid.
      apply ascending_snoc; [assumption | lia |].
      intros y Hy. apply in_map_iff in Hy. destruct Hy as (x & <- & Hx).
      now apply Hids.
    + lia.
    + intros x Hx. apply in_app_or in Hx. destruct Hx as [Hx|[<-|[]]].
      * specialize (Hids x Hx). lia.
      * lia.
    + intros x Hx. apply in_app_or in Hx. destruct Hx as [Hx|[<-|[]]].
      * now apply Hrange.
      * statuses. lia.
Qed.

Lemma unique_hashes_step o s :
  unique_hashes (rows s) -> unique_hashes (rows (step o s)).
Proof.
  unfold unique_hashes. intros Hu.
  destruct o as [r ts|n|last failed|]; cbn [step].
  - destruct (put_run r ts s) as (_ & _ & Hcases). cbv zeta in Hcases.
    destruct (pending s); [|destruct (has_hash _ (rows s)) eqn:Eh];
      destruct Hcases as (_ & -> & _); try assumption.
    rewrite map_app. cbn [map data_hash]. apply NoDup_app.
    + assumption.
    + repeat constructor. intros [].
    + intros h Hin [<-|[]]. apply in_map_iff in Hin.
      destruct Hin as (x & Hx & Hin).
      apply (proj1 (has_hash_false _ _) Eh x Hin Hx).
  - now rewrite (same_record_hashes _ _ (get_new_scan_same n s)).
  - now rewrite (same_record_hashes _ _ (mark_result_same last failed s)).
  - now rewrite (same_record_hashes _ _ (reset_unscanned_item_same s)).
Qed.

(** X10.  A well-formed table with distinct hashes stays so under every
    sequence of calls, [reset_unscanned_item] included, whatever the
    driver does: the ids stay positive, ascending (so distinct) and below
    the AUTO_INCREMENT counter, every scan_status stays one of 0, 1, 2, 3,
    and no two rows share a data_hash. *)
Theorem table_stays_well_formed ops s :
  wf s -> unique_hashes (rows s) ->
  wf (run ops s) /\
  NoDup (map id (rows (run ops s))) /\
  (forall r, In r (rows (run ops s)) ->
     scan_status r = UNSCANNED \/ scan_status r = SCANNED \/
     scan_status r = IN_PROGRESS \/ scan_status r = FAILED) /\
  unique_hashes (rows (run ops s)).
Proof.
  revert s. induction ops as [|o ops IH]; intros s Hwf Hu.
  - cbn. split; [exact Hwf|]. split; [|split; [|exact Hu]].
    + destruct Hwf as (Hasc & _). eapply ascending_NoDup, Hasc.
    + intros r Hr. destruct Hwf as (_ & _ & _ & Hrange).
      specialize (Hrange r Hr). statuses. lia.
  - cbn. apply IH; [now apply wf_step | now apply unique_hashes_step].
Qed.

(** The theorem on an empty table and the calls of scenario S3, followed
    by a reset. *)
Lemma table_stays_well_formed_witness :
  wf empty_queue /\ unique_hashes (rows empty_queue) /\
  unique_hashes
    (rows (run [Put (sample "a") 100; Put (sample "a") 101;
                GetNewScan 4; MarkResult 4 [1]; ResetUnscannedItem]
             empty_queue)).
Proof.
  assert (Hwf : wf empty_queue) by (apply wf_rowsb_sound; reflexivity).
  assert (Hu : unique_hashes (rows empty_queue)) by constructor.
  split; [exact Hwf|]. split; [exact Hu|].
  apply (table_stays_well_formed _ empty_queue Hwf Hu).
Defined.

(** *** mark_result twice *)

Lemma set_status_same r : set_status (scan_status r) r = r.
Proof. now destruct r. Qed.

Lemma update_where_fixed p v t :
  (forall r, In r t -> p r = true -> scan_status r = v) ->
  update_where p v t = t.
Proof.
  intros H. unfold update_where. induction t as [|a t IH]; [reflexivity|].
  cbn [map]. rewrite IH by (intros r Hr; apply H; now right). f_equal.
  destruct (p a) eqn:Ea; [|reflexivity].
  rewrite <- (H a (or_introl eq_refl) Ea). apply set_status_same.
Qed.

(** X9.  [mark_result] is idempotent: with a healthy driver, repeating a
    call with the same arguments returns normally and leaves the table
    and the cursor exactly as the first call left them. *)
Theorem mark_result_idempotent last_id failed_list s :
  healthy s ->
  let s1 := final (mark_result last_id failed_list s) in
  let p2 := mark_result last_id failed_list s1 in
  outcome p2 = Return tt /\
  rows (final p2) = rows s1 /\
  start_id (final p2) = start_id s1.
Proof.
  intros Hh s1 p2.
  destruct (mark_result_run s last_id failed_list) as (_ & Hh1 & Hc1).
  cbv zeta in Hc1. fold s1 in Hh1, Hc1. specialize (Hh1 Hh).
  destruct (mark_result_run s1 last_id failed_list) as (_ & _ & Hc2).
  cbv zeta in Hc2. fold p2 in Hc2.
  destruct Hc2 as [(Hout & _ & Hfin)|[(_ & _ & Hnh & _)|
                                      (Hlt2 & Hout2 & Hrows2 & Hst2)]].
  - rewrite Hfin. auto.
  - contradiction.
  - (* the second call goes through its three statements *)
    destruct Hc1 as [(_ & Hle & Hfin)|[(_ & _ & Hnh & _)|
                                       (Hlt1 & _ & Hrows1 & Hst1)]].
    + (* the first call was a no-op: last_id <= start_id *)
      rewrite Hfin in Hlt2. lia.
    + contradiction.
    + assert (Hle : start_id s <= start_id s1).
      { rewrite Hst1. destruct (select_max_id _ _) as [m|] eqn:E; [|lia].
        apply select_max_id_Some in E. destruct E as [(r & _ & Hp & <-) _].
        apply andb_true_iff in Hp. destruct Hp as [Hp _].
        apply Z.gtb_lt in Hp. lia. }
      (* rows of s1 inside the range: FAILED where failed, never
         IN_PROGRESS *)
      assert (Hin1 : forall x, In x (rows s1) ->
                start_id s < id x <= last_id ->
                (In (id x) failed_list -> scan_status x = 3) /\
                scan_status x <> 2).
      { intros x Hx Hrange. rewrite Hrows1 in Hx.
        unfold update_where in Hx. rewrite map_map in Hx.
        apply in_map_iff in Hx. destruct Hx as (r & <- & _).
        pose proof (mark_row (start_id s) last_id failed_list r) as Hm.
        cbv zeta in Hm. destruct Hm as (Hsame & Hf & Hs & Hk).
        destruct Hsame as (Hid & _). rewrite Hid in Hrange.
        split.
        - intros Hfl. rewrite Hid in Hfl. statuses. now apply Hf.
        - destruct (in_dec Z.eq_dec (id r) failed_list) as [Hi|Hni].
          + statuses. rewrite Hf by auto. lia.
          + destruct (Z.eq_dec (scan_status r) 2) as [E2|E2].
            * statuses. rewrite Hs by auto. lia.
            * rewrite Hk; [exact E2|]. intros (_ & [Hi|Hi]); auto. }
      assert (Hfix1 : update_where
                        (failed_in_range (start_id s1) last_id failed_list)
                        3 (rows s1) = rows s1).
      { apply update_where_fixed. intros x Hx Hp.
        apply andb_true_iff in Hp. destruct Hp as [Hp Hm].
        apply andb_true_iff in Hp. destruct Hp as [Hp1 Hp2].
        apply Z.leb_le in Hp1. apply Z.gtb_lt in Hp2. apply mem_In in Hm.
        apply (Hin1 x Hx); [lia | exact Hm]. }
      assert (Hfix2 : update_where
                        (in_progress_in_range (start_id s1) last_id) 1
                        (rows s1) = rows s1).
      { apply update_where_fixed. intros x Hx Hp. exfalso.
        apply andb_true_iff in Hp. destruct Hp as [Hp Hm].
        apply andb_true_iff in Hp. destruct Hp as [Hp1 Hp2].
        apply Z.leb_le in Hp1. apply Z.gtb_lt in Hp2. apply Z.eqb_eq in Hm.
        apply (Hin1 x Hx); [lia | exact Hm]. }
      rewrite Hfix1, Hfix2 in Hrows2, Hst2.
      split; [exact Hout2|]. split; [exact Hrows2|].
      rewrite Hst2.
      destruct (select_max_id (scanned_above (start_id s1)) (rows s1))
        as [m|] eqn:E2; [|reflexivity].
      exfalso. apply select_max_id_Some in E2.
      destruct E2 as [(x & Hx & Hp & _) _].
      apply andb_true_iff in Hp. destruct Hp as [Hgt Hst].
      apply Z.gtb_lt in Hgt.
      rewrite <- Hrows1 in Hst1.
      destruct (select_max_id (scanned_above (start_id s)) (rows s1))
        as [m1|] eqn:E1.
      * apply select_max_id_Some in E1. destruct E1 as [_ Hmax].
        assert (Hp : scanned_above (start_id s) x = true).
        { apply andb_true_iff. split; [apply Z.gtb_lt; lia | exact Hst]. }
        specialize (Hmax x Hx Hp). lia.
      * rewrite select_max_id_None in E1. specialize (E1 x Hx).
        cbv beta in E1. rewrite Hst, andb_true_r in E1.
        destruct (Z.gtb_spec (id x) (start_id s)); [discriminate | lia].
Qed.

(** The rows the two updates of [mark_result] leave are fixed points of
    both updates. *)
Lemma mark_result_rows_fixed start last failed t :
  let t2 := update_where (in_progress_in_range start last) 1
              (update_where (failed_in_range start last failed) 3 t) in
  update_where (failed_in_range start last failed) 3 t2 = t2 /\
  update_where (in_progress_in_range start last) 1 t2 = t2 /\
  update_where (in_progress_in_range start last) 1
    (update_where (failed_in_range start last failed) 3
       (update_where (failed_in_range start last failed) 3 t)) = t2.
Proof.
  cbv zeta.
  assert (Hrow : forall x,
            In x (update_where (in_progress_in_range start last) 1
                    (update_where (failed_in_range start last failed) 3 t))
            -> start < id x <= last ->
            (In (id x) failed -> scan_status x = 3) /\ scan_status x <> 2).
  { intros x Hx Hrange. unfold update_where in Hx. rewrite map_map in Hx.
    apply in_map_iff in Hx. destruct Hx as (r & <- & _).
    pose proof (mark_row start last failed r) as Hm.
    cbv zeta in Hm. destruct Hm as (Hsame & Hf & Hs & Hk).
    destruct Hsame as (Hid & _). rewrite Hid in Hrange.
    split.
    - intros Hfl. rewrite Hid in Hfl. statuses. now apply Hf.
    - destruct (in_dec Z.eq_dec (id r) failed) as [Hi|Hni].
      + statuses. rewrite Hf by auto. lia.
      + destruct (Z.eq_dec (scan_status r) 2) as [E2|E2].
        * statuses. rewrite Hs by auto. lia.
        * rewrite Hk; [exact E2|]. intros (_ & [Hi|Hi]); auto. }
  split; [|split].
  - apply update_where_fixed. intros x Hx Hp.
    apply andb_true_iff in Hp. destruct Hp as [Hp Hm].
    apply andb_true_iff in Hp. destruct Hp as [Hp1 Hp2].
    apply Z.leb_le in Hp1. apply Z.gtb_lt in Hp2. apply mem_In in Hm.
    apply (Hrow x Hx); [lia | exact Hm].
  - apply update_where_fixed. intros x Hx Hp. exfalso.
    apply andb_true_iff in Hp. destruct Hp as [Hp Hm].
    apply andb_true_iff in Hp. destruct Hp as [Hp1 Hp2].
    apply Z.leb_le in Hp1. apply Z.gtb_lt in Hp2. apply Z.eqb_eq in Hm.
    apply (Hrow x Hx); [lia | exact Hm].
  - f_equal. apply update_where_fixed. intros x Hx Hp.
    apply update_where_In in Hx. destruct Hx as (r & _ & ->).
    rewrite id_cond in Hp. cbv beta in Hp. now rewrite Hp.
Qed.

(** X17.  A [mark_result] that died of a driver failure can simply be
    repeated: whichever of its three statements failed, the cursor has
    not moved, and repeating the call with a healthy driver returns
    normally and leaves the table and the cursor exactly as one
    undisturbed call would have left them. *)
Theorem mark_result_retry last_id failed_list s :
  outcome (mark_result last_id failed_list s) = Raise DatabaseError ->
  healthy (final (mark_result last_id failed_list s)) ->
  let s1 := final (mark_result last_id failed_list s) in
  let p := mark_result last_id failed_list s1 in
  let t2 := update_where (in_progress_in_range (start_id s) last_id) 1
              (update_where
                 (failed_in_range (start_id s) last_id failed_list) 3
                 (rows s)) in
  start_id s1 = start_id s /\
  outcome p = Return tt /\
  rows (final p) = t2 /\
  start_id (final p)
  = match select_max_id (scanned_above (start_id s)) t2 with
    | Some m => m
    | None => start_id s
    end.
Proof.
  intros Hraise Hh1. cbv zeta.
  destruct (mark_result_run s last_id failed_list) as (_ & _ & Hc1).
  cbv zeta in Hc1.
  destruct Hc1 as [(Hout & _)|[(Hlt & _ & _ & Hst1 & Hrows1)|(_ & Hout & _)]];
    [rewrite Hout in Hraise; discriminate | | rewrite Hout in Hraise;
                                              discriminate].
  split; [exact Hst1|].
  destruct (mark_result_run (final (mark_result last_id failed_list s))
              last_id failed_list) as (_ & _ & Hc2).
  cbv zeta in Hc2. rewrite Hst1 in Hc2.
  destruct Hc2 as [(_ & Hle & _)|[(_ & _ & Hnh & _)|
                                  (_ & Hout2 & Hrows2 & Hst2)]];
    [lia | contradiction |].
  destruct (mark_result_rows_fixed (start_id s) last_id failed_list (rows s))
    as (F1 & F2 & F3).
  cbv zeta in F1, F2, F3.
  assert (Hsame : update_where (in_progress_in_range (start_id s) last_id) 1
                    (update_where
                       (failed_in_range (start_id s) last_id failed_list) 3
                       (rows (final (mark_result last_id failed_list s))))
                  = update_where
                      (in_progress_in_range (start_id s) last_id) 1
                      (update_where
                         (failed_in_range (start_id s) last_id failed_list)
                         3 (rows s))).
  { destruct Hrows1 as [->|[->| ->]];
      [reflexivity | exact F3 | now rewrite F1, F2]. }
  rewrite Hsame in Hrows2, Hst2. auto.
Qed.

(** The theorem at scenario S3, the MAX query failing the first time. *)
Lemma mark_result_retry_witness :
  let s := set_faults [None; None; Some OperationalError] S3_dispatched in
  outcome (mark_result 4 [3; 4] s) = Raise DatabaseError /\
  start_id (final (mark_result 4 [3; 4] s)) = start_id s /\
  start_id (final (mark_result 4 [3; 4] (final (mark_result 4 [3; 4] s))))
  = 2.
Proof.
  cbv zeta. split; [reflexivity|].
  destruct (mark_result_retry 4 [3; 4]
              (set_faults [None; None; Some OperationalError] S3_dispatched))
    as (H1 & _ & _ & H4).
  - reflexivity.
  - vm_compute. constructor.
  - split; [exact H1|]. rewrite H4. reflexivity.
Defined.

(** The theorem at scenario S3. *)
Lemma mark_result_idempotent_witness :
  healthy S3_dispatched /\
  rows (final (mark_result 4 [3; 4]
                 (final (mark_result 4 [3; 4] S3_dispatched))))
  = rows (final (mark_result 4 [3; 4] S3_dispatched)).
Proof.
  assert (Hh : healthy S3_dispatched) by (vm_compute; constructor).
  split; [exact Hh|].
  apply (mark_result_idempotent 4 [3; 4] S3_dispatched Hh).
Defined.

(** *** _create_model *)

Lemma append_length a b :
  String.length (String.append a b)
  = (String.length a + String.length b)%nat.
Proof. induction a as [|c a IH]; cbn; [reflexivity | now rewrite IH]. Qed.

Lemma append_cancel_r a b t :
  String.append a t = String.append b t -> a = b.
Proof.
  revert b. induction a as [|c a IH]; intros [|d b] H; cbn in H.
  - reflexivity.
  - apply (f_equal String.length) in H. cbn in H.
    rewrite append_length in H. lia.
  - apply (f_equal String.length) in H. cbn in H.
    rewrite append_length in H. lia.
  - injection H as -> H. f_equal. now apply IH.
Qed.

(** X13.  Models built for different prefixes are backed by different
    tables: the table name [_create_model] derives from a prefix
    determines the prefix. *)
Theorem table_name_injective p q :
  table_name p = table_name q -> p = q.
Proof.
  unfold table_name. intros H.
  apply append_cancel_r in H. now apply append_cancel_r in H.
Qed.

(** The theorem at a host-and-port prefix. *)
Lemma table_name_injective_witness :
  table_name "127.0.0.1_80" = "127.0.0.1_80_ResultList"%string /\
  "127.0.0.1_80"%string = "127.0.0.1_80"%string.
Proof.
  split; [reflexivity|].
  apply (table_name_injective "127.0.0.1_80" "127.0.0.1_80"). reflexivity.
Defined.

End NewRequestModelFacts.

(** ** Properties of the probe session *)

Module SessionFacts.
Import Session.

Lemma except_clause_run e w :
  except_clause e w =
    (Return tt,
     {| session := session w; retry_times_config := retry_times_config w;
        transport := transport w; on_wire := on_wire w;
        attempts := attempts w;
        requests_sent := requests_sent w; slept := slept w + 1;
        log := log w ++ [if is_transport_error e then Info else Error] |}).
Proof.
  unfold except_clause, Logger, sleep, bind, modify.
  destruct (is_transport_error e); reflexivity.
Qed.

(** The loop is not entered with a negative [retry_times]. *)
Lemma while_retry_skip a rt resp w :
  rt < 0 -> while_retry a rt resp w = (Return (rt, resp), w).
Proof.
  intros H. rewrite while_retry_equation.
  destruct (Z.geb_spec rt 0); [lia | reflexivity].
Qed.

(** The request is answered: [break]. *)
Lemma while_retry_responds rt resp w r :
  0 <= rt -> transport w (attempts w) = Responds r ->
  while_retry HttpVerb rt resp w =
    (Return (rt, Some r),
     {| session := session w; retry_times_config := retry_times_config w;
        transport := transport w; on_wire := on_wire w;
        attempts := S (attempts w);
        requests_sent := requests_sent w + on_wire w (attempts w);
        slept := slept w; log := log w |}).
Proof.
  intros H Ht. rewrite while_retry_equation.
  destruct (Z.geb_spec rt 0); [|lia].
  unfold call. now rewrite Ht.
Qed.

(** The request fails: log, sleep, one retry less. *)
Lemma while_retry_breaks rt resp w e :
  0 <= rt -> transport w (attempts w) = Breaks e ->
  while_retry HttpVerb rt resp w =
    while_retry HttpVerb (rt - 1) resp
      (failed_attempt (on_wire w (attempts w)) e w).
Proof.
  intros H Ht. rewrite while_retry_equation.
  destruct (Z.geb_spec rt 0); [|lia].
  unfold call. rewrite Ht. now rewrite except_clause_run.
Qed.

(** What is not a verb cannot be called as one: TypeError, no request. *)
Lemma while_retry_not_callable a rt resp w :
  a <> HttpVerb -> 0 <= rt ->
  while_retry a rt resp w =
    while_retry a (rt - 1) resp (failed_attempt 0 TypeError w).
Proof.
  intros Ha H. rewrite while_retry_equation.
  destruct (Z.geb_spec rt 0); [|lia].
  destruct a; [contradiction| |]; unfold call, failed_attempt;
    now rewrite except_clause_run, Nat.add_0_r.
Qed.

Lemma while_retry_succeeds k :
  forall rt resp w r,
    Z.of_nat k <= rt ->
    (forall j, (j < k)%nat ->
       exists e, transport w (attempts w + j)%nat = Breaks e) ->
    transport w (attempts w + k)%nat = Responds r ->
    exists w',
      while_retry HttpVerb rt resp w = (Return (rt - Z.of_nat k, Some r), w')
      /\ attempts w' = (attempts w + S k)%nat
      /\ slept w' = slept w + Z.of_nat k.
Proof.
  induction k as [|k IH]; intros rt resp w r Hk Hfail Hok.
  - rewrite Nat.add_0_r in Hok.
    rewrite (while_retry_responds rt resp w r) by (assumption || lia).
    replace (rt - Z.of_nat 0) with rt by lia.
    eexists. split; [reflexivity|]. cbn. repeat split; lia.
  - destruct (Hfail O) as [e He]; [lia|]. rewrite Nat.add_0_r in He.
    rewrite (while_retry_breaks rt resp w e) by (assumption || lia).
    destruct (IH (rt - 1) resp
                (failed_attempt (on_wire w (attempts w)) e w) r)
      as (w' & Hrun & Ha & Hz).
    + lia.
    + intros j Hj. cbn. destruct (Hfail (S j)) as [e' He']; [lia|].
      exists e'. rewrite <- He'. f_equal. lia.
    + cbn. rewrite <- Hok. f_equal. lia.
    + exists w'. rewrite Hrun. cbn in Ha, Hz.
      replace (rt - Z.of_nat (S k)) with (rt - 1 - Z.of_nat k) by lia.
      split; [reflexivity|]. repeat split; lia.
Qed.

Lemma while_retry_exhausted n :
  forall rt resp w,
    rt + 1 = Z.of_nat n ->
    (forall j, (j < n)%nat ->
       exists e, transport w (attempts w + j)%nat = Breaks e) ->
    exists w',
      while_retry HttpVerb rt resp w = (Return (-1, resp), w')
      /\ attempts w' = (attempts w + n)%nat
      /\ slept w' = slept w + Z.of_nat n.
Proof.
  induction n as [|n IH]; intros rt resp w Hn Hfail.
  - rewrite while_retry_skip by lia. exists w.
    replace rt with (-1) by lia.
    split; [reflexivity|]. repeat split; lia.
  - destruct (Hfail O) as [e He]; [lia|]. rewrite Nat.add_0_r in He.
    rewrite (while_retry_breaks rt resp w e) by (assumption || lia).
    destruct (IH (rt - 1) resp
                (failed_attempt (on_wire w (attempts w)) e w))
      as (w' & Hrun & Ha & Hz).
    + lia.
    + intros j Hj. cbn. destruct (Hfail (S j)) as [e' He']; [lia|].
      exists e'. rewrite <- He'. f_equal. lia.
    + exists w'. rewrite Hrun. cbn in Ha, Hz.
      split; [reflexivity|]. repeat split; lia.
Qed.

Lemma while_retry_never_called n :
  forall a rt resp w,
    a <> HttpVerb -> rt + 1 = Z.of_nat n ->
    exists w',
      while_retry a rt resp w = (Return (-1, resp), w')
      /\ attempts w' = (attempts w + n)%nat
      /\ requests_sent w' = requests_sent w
      /\ slept w' = slept w + Z.of_nat n.
Proof.
  induction n as [|n IH]; intros a rt resp w Ha Hn.
  - rewrite while_retry_skip by lia. exists w.
    replace rt with (-1) by lia.
    split; [reflexivity|]. repeat split; lia.
  - rewrite (while_retry_not_callable a rt resp w) by (assumption || lia).
    destruct (IH a (rt - 1) resp (failed_attempt 0 TypeError w) Ha)
      as (w' & Hrun & H1 & H2 & H3); [lia|].
    exists w'. rewrite Hrun. cbn in H1, H2, H3.
    split; [reflexivity|]. repeat split; lia.
Qed.

Lemma call_attempts a w :
  attempts (snd (call a w)) = S (attempts w).
Proof.
  unfold call. destruct a; [destruct (transport w _)| |]; reflexivity.
Qed.

(** However the requests fare, the loop calls [http_func] at most
    [retry_times + 1] times, and leaves with a response exactly when
    [retry_times] is still non-negative. *)
Lemma while_retry_bound a rt resp w :
  (attempts (snd (while_retry a rt resp w))
   <= attempts w + Z.to_nat (rt + 1))%nat /\
  exists rt' resp',
    fst (while_retry a rt resp w) = Return (rt', resp') /\
    ((0 <= rt' /\ exists r, resp' = Some r) \/ (rt' < 0 /\ resp' = resp)).
Proof.
  functional induction (while_retry a rt resp w).
  - match goal with H : (_ >=? 0) = true |- _ => apply Z.geb_le in H end.
    match goal with H : call ?f ?x = _ |- _ =>
      pose proof (call_attempts f x) as Ha; rewrite H in Ha end.
    cbn in *. split; [lia|]. eexists _, _. split; [reflexivity|].
    left. split; [lia | eauto].
  - match goal with H : (_ >=? 0) = true |- _ => apply Z.geb_le in H end.
    match goal with H : call ?f ?x = _ |- _ =>
      pose proof (call_attempts f x) as Ha; rewrite H in Ha end.
    match goal with H : except_clause _ _ = _ |- _ =>
      rewrite except_clause_run in H; inversion H; subst; clear H end.
    cbn in *. destruct IHp as [IH1 IH2]. split; [|exact IH2].
    cbn in IH1. lia.
  - match goal with H : except_clause _ _ = _ |- _ =>
      rewrite except_clause_run in H; discriminate end.
  - match goal with H : (_ >=? 0) = false |- _ =>
      destruct (Z.geb_spec retry_times 0); [discriminate|] end.
    cbn. split; [lia|]. eexists _, _. split; [reflexivity|].
    right. split; [lia | reflexivity].
Qed.

(** [send_request] once [getattr] has found the attribute [a]. *)
Lemma send_request_found req w a :
  session w (get_method req) = Some a ->
  send_request req w =
    match while_retry a (retry_times_config w) None
            (final (Logger Debug w)) with
    | (Return p, w') =>
        if fst p >=? 0 then
          match snd p with
          | Some response => (Return response, w')
          | None => (Raise UnboundLocalError, w')
          end
        else (Raise ScanRequestFailed, w')
    | (Raise e, w') => (Raise e, w')
    end.
Proof.
  intros Ha. unfold send_request, getattr, get_config_retry_times, bind,
    get, ret, raise, final.
  rewrite Ha. cbn [Logger modify snd retry_times_config].
  destruct (while_retry a _ None _) as [[p|e] w']; [|reflexivity].
  destruct (fst p >=? 0); [|reflexivity]. now destruct (snd p).
Qed.

(** C7.  [send_request] on a verb the session has.  It calls [http_func]
    at most [retry_times + 1] times, and either returns a response dict or
    raises ScanRequestFailed.  When the first k calls fail and the next
    one is answered, with k <= retry_times, it returns the status, headers
    and body of that answer after k + 1 calls and k seconds of sleep.  When
    all of the [retry_times + 1] calls fail it raises ScanRequestFailed
    after exactly that many calls; with [retry_times = 0] one failing
    call is enough.  In scenario S5 (two timeouts, then 200) it returns
    status 200 with [retry_times = 2] and raises ScanRequestFailed with
    [retry_times = 1]. *)
Theorem send_request_retries req w :
  session w (get_method req) = Some HttpVerb ->
  let retry_times := retry_times_config w in
  let p := send_request req w in
  (attempts (final p) <= attempts w + Z.to_nat (retry_times + 1))%nat /\
  ((exists r, outcome p = Return r) \/ outcome p = Raise ScanRequestFailed) /\
  (forall k r,
     Z.of_nat k <= retry_times ->
     (forall j, (j < k)%nat ->
        exists e, transport w (attempts w + j)%nat = Breaks e) ->
     transport w (attempts w + k)%nat = Responds r ->
     outcome p = Return r /\
     attempts (final p) = (attempts w + S k)%nat /\
     slept (final p) = slept w + Z.of_nat k) /\
  (0 <= retry_times ->
   (forall j, Z.of_nat j <= retry_times ->
      exists e, transport w (attempts w + j)%nat = Breaks e) ->
   outcome p = Raise ScanRequestFailed /\
   attempts (final p) = (attempts w + Z.to_nat (retry_times + 1))%nat) /\
  (retry_times = 0 ->
   (exists e, transport w (attempts w) = Breaks e) ->
   outcome p = Raise ScanRequestFailed /\
   attempts (final p) = S (attempts w)) /\
  (let p2 := send_request (request "get") (S5_world 2) in
   let p1 := send_request (request "get") (S5_world 1) in
   outcome p2 = Return ok_200 /\ status ok_200 = 200 /\
   attempts (final p2) = 3%nat /\ slept (final p2) = 2 /\
   outcome p1 = Raise ScanRequestFailed /\ attempts (final p1) = 2%nat).
Proof.
  intros Hverb retry_times p.
  assert (Hp : p = _) by exact (send_request_found req w HttpVerb Hverb).
  fold retry_times in Hp.
  set (w1 := final (Logger Debug w)) in *.
  assert (Hexh : forall n, retry_times + 1 = Z.of_nat n ->
            (forall j, (j < n)%nat ->
               exists e, transport w (attempts w + j)%nat = Breaks e) ->
            outcome p = Raise ScanRequestFailed /\
            attempts (final p) = (attempts w + n)%nat).
  { intros n Hn Hfail.
    destruct (while_retry_exhausted n retry_times None w1 Hn Hfail)
      as (w' & Hrun & Ha & _).
    rewrite Hp, Hrun. cbn. auto. }
  split; [|split; [|split; [|split; [|split]]]].
  - destruct (while_retry_bound HttpVerb retry_times None w1) as [Hb _].
    rewrite Hp. destruct (while_retry _ _ _ _) as [[q|e] w'];
      cbn in Hb |- *; [|exact Hb].
    destruct (fst q >=? 0); [destruct (snd q)|]; exact Hb.
  - destruct (while_retry_bound HttpVerb retry_times None w1)
      as [_ (rt' & resp' & Hres & Hcase)].
    rewrite Hp. destruct (while_retry _ _ _ _) as [[q|e] w'];
      cbn in Hres; [|discriminate].
    injection Hres as ->. cbn [fst snd].
    destruct Hcase as [[Hge [r ->]]|[Hlt ->]].
    + destruct (Z.geb_spec rt' 0); [|lia]. left. now exists r.
    + destruct (Z.geb_spec rt' 0); [lia|]. now right.
  - intros k r Hk Hfail Hok.
    destruct (while_retry_succeeds k retry_times None w1 r Hk Hfail Hok)
      as (w' & Hrun & Ha & Hz).
    rewrite Hp, Hrun. cbn [fst snd].
    destruct (Z.geb_spec (retry_times - Z.of_nat k) 0); [|lia].
    cbn. auto.
  - intros Hge Hfail.
    destruct (Hexh (Z.to_nat (retry_times + 1))) as [H1 H2]; [lia| |auto].
    intros j Hj. apply Hfail. lia.
  - intros H0 [e He]. destruct (Hexh 1%nat) as [H1 H2]; [lia| |].
    + intros j Hj. exists e. replace j with O by lia.
      now rewrite Nat.add_0_r.
    + split; [exact H1 | lia].
  - vm_compute. repeat split; reflexivity.
Qed.

(** The theorem at scenario S5 with two retries. *)
Lemma send_request_retries_witness :
  session (S5_world 2) (get_method (request "get")) = Some HttpVerb /\
  (attempts (final (send_request (request "get") (S5_world 2)))
   <= attempts (S5_world 2) + Z.to_nat (2 + 1))%nat.
Proof.
  split; [reflexivity|].
  apply (send_request_retries (request "get") (S5_world 2) eq_refl).
Defined.

(** C8, as the code has it.  A method that names no attribute of the
    session object makes [getattr] raise the builtin AttributeError:
    [send_request] raises it at once, with no call, no request on the
    wire, no sleep and no log record.  A method that names an attribute
    which is not a verb passes the lookup: no request reaches the wire,
    but every pass through the loop raises TypeError inside the [try],
    and with a non-negative [retry_times] the call ends in
    ScanRequestFailed after [retry_times + 1] passes and as many seconds
    of sleep. *)
Theorem send_request_unknown_method req w :
  (session w (get_method req) = None ->
   send_request req w = (Raise AttributeError, w)) /\
  (forall a, session w (get_method req) = Some a -> a <> HttpVerb ->
     0 <= retry_times_config w ->
     let p := send_request req w in
     outcome p = Raise ScanRequestFailed /\
     requests_sent (final p) = requests_sent w /\
     attempts (final p)
     = (attempts w + Z.to_nat (retry_times_config w + 1))%nat /\
     slept (final p) = slept w + (retry_times_config w + 1)).
Proof.
  split.
  - intros Hnone. unfold send_request, getattr, bind. now rewrite Hnone.
  - intros a Ha Hnv Hge p. subst p.
    rewrite (send_request_found req w a Ha).
    destruct (while_retry_never_called
                (Z.to_nat (retry_times_config w + 1)) a
                (retry_times_config w) None (final (Logger Debug w)) Hnv)
      as (w' & Hrun & H1 & H2 & H3); [lia|].
    rewrite Hrun. cbn in H1, H2, H3 |- *. repeat split; auto. lia.
Qed.

(** The theorem at the methods TRACE, which aiohttp's session does not
    have, and CLOSE, which names its [close] method. *)
Lemma send_request_unknown_method_witness :
  session (S5_world 2) (get_method (request "trace")) = None /\
  send_request (request "trace") (S5_world 2)
  = (Raise AttributeError, S5_world 2) /\
  outcome (send_request (request "close") (S5_world 2))
  = Raise ScanRequestFailed.
Proof.
  destruct (send_request_unknown_method (request "trace") (S5_world 2))
    as [H _].
  destruct (send_request_unknown_method (request "close") (S5_world 2))
    as [_ H'].
  split; [reflexivity|]. split; [apply H; reflexivity|].
  apply (H' BoundMethod);
    [reflexivity | discriminate | vm_compute; discriminate].
Defined.

(** C8 as stated fails.  The error a missing method raises is the builtin
    AttributeError, not UnknownHTTPMethod; and the method CLOSE, which is
    not a verb the session can issue, raises nothing before the loop:
    three passes are made and three seconds slept before ScanRequestFailed
    is raised. *)
Lemma send_request_unknown_method_counterexample :
  session (S5_world 2) "trace"%string = None /\
  session (S5_world 2) "close"%string = Some BoundMethod /\
  outcome (send_request (request "trace") (S5_world 2))
  <> Raise UnknownHTTPMethod /\
  outcome (send_request (request "trace") (S5_world 2))
  = Raise AttributeError /\
  (let p := send_request (request "close") (S5_world 2) in
   outcome p <> Raise UnknownHTTPMethod /\
   outcome p = Raise ScanRequestFailed /\
   attempts (final p) = 3%nat /\ slept (final p) = 3 /\
   log (final p) = [Debug; Error; Error; Error]).
Proof.
  vm_compute. repeat split; try reflexivity; discriminate.
Qed.

(** *** Accounting for a call *)

Lemma call_returns a w r w1 :
  call a w = (Return r, w1) ->
  a = HttpVerb /\ transport w (attempts w) = Responds r /\
  same_surroundings w w1 /\
  attempts w1 = S (attempts w) /\
  requests_sent w1 = (requests_sent w + on_wire w (attempts w))%nat /\
  slept w1 = slept w /\ log w1 = log w.
Proof.
  unfold call, same_surroundings. destruct a; try discriminate.
  destruct (transport w (attempts w)) as [r0|e]; [|discriminate].
  intros [= <- <-]. cbn. repeat split.
Qed.

Lemma call_raises a w e w1 :
  call a w = (Raise e, w1) ->
  failed_attempt (match a with
                  | HttpVerb => on_wire w (attempts w)
                  | _ => O
                  end) e w
  = final (except_clause e w1) /\
  level_of a (transport w (attempts w))
  = (if is_transport_error e then Info else Error) /\
  (a = HttpVerb -> transport w (attempts w) = Breaks e).
Proof.
  unfold call, failed_attempt. rewrite except_clause_run.
  destruct a.
  - destruct (transport w (attempts w)) as [r0|e0] eqn:Et;
      [discriminate|].
    intros [= <- <-]. unfold level_of. cbn. auto.
  - intros [= <- <-]. cbn. rewrite Nat.add_0_r.
    split; [reflexivity|]. split; [reflexivity | discriminate].
  - intros [= <- <-]. cbn. rewrite Nat.add_0_r.
    split; [reflexivity|]. split; [reflexivity | discriminate].
Qed.

Lemma seq_levels (g : nat -> level) f :
  map g (seq 0 (S f)) = g O :: map (fun j => g (S j)) (seq 0 f).
Proof. cbn [seq map]. f_equal. now rewrite <- seq_shift, map_map. Qed.

Lemma requests_of_S w n k :
  requests_of w n (S k) = (on_wire w n + requests_of w (S n) k)%nat.
Proof.
  unfold requests_of. cbn [seq map].
  rewrite Nat.add_0_r, <- seq_shift, map_map.
  unfold list_sum. cbn [fold_right]. do 2 f_equal.
  apply map_ext. intros j. f_equal. lia.
Qed.

(** The whole course of the loop: [f] failed passes, each with its log
    record and its second of sleep, then either an answer or exhaustion. *)
Lemma while_retry_trace a rt resp w :
  exists f,
    let p := while_retry a rt resp w in
    same_surroundings w (snd p) /\
    slept (snd p) = slept w + Z.of_nat f /\
    log (snd p)
    = log w ++ map (fun j => level_of a
                               (transport w (attempts w + j)%nat))
                 (seq 0 f) /\
    (forall j, (j < f)%nat -> a = HttpVerb ->
       exists e, transport w (attempts w + j)%nat = Breaks e) /\
    requests_sent (snd p)
    = (requests_sent w
       + match a with
         | HttpVerb => requests_of w (attempts w)
                         (attempts (snd p) - attempts w)
         | _ => O
         end)%nat /\
    ((exists r,
        fst p = Return (rt - Z.of_nat f, Some r) /\
        Z.of_nat f <= rt /\ a = HttpVerb /\
        transport w (attempts w + f)%nat = Responds r /\
        attempts (snd p) = (attempts w + S f)%nat) \/
     (fst p = Return (rt - Z.of_nat f, resp) /\
      rt - Z.of_nat f < 0 /\ f = Z.to_nat (rt + 1) /\
      attempts (snd p) = (attempts w + f)%nat)).
Proof.
  functional induction (while_retry a rt resp w).
  - (* answered *)
    match goal with H : (_ >=? 0) = true |- _ => apply Z.geb_le in H end.
    match goal with H : call _ _ = _ |- _ =>
      apply call_returns in H;
      destruct H as (-> & Ht & Hsur & Ha & Hs & Hz & Hl) end.
    exists O. cbn [fst snd seq map]. rewrite app_nil_r, !Nat.add_0_r.
    split; [exact Hsur|]. split; [lia|]. split; [now symmetry|].
    split; [intros j Hj; lia|]. split.
    + rewrite Hs, Ha.
      replace (S (attempts w) - attempts w)%nat with 1%nat by lia.
      rewrite requests_of_S. unfold requests_of. cbn. lia.
    + left. exists r. rewrite Z.sub_0_r. repeat split; auto; lia.
  - (* failed, and once more *)
    match goal with H : (_ >=? 0) = true |- _ => apply Z.geb_le in H end.
    match goal with H : call _ _ = _ |- _ =>
      pose proof (call_attempts a w) as Hatt; rewrite H in Hatt;
      cbn [snd] in Hatt;
      apply call_raises in H; destruct H as (Hw2 & Hlvl & Hbrk) end.
    match goal with H : except_clause _ _ = _ |- _ =>
      rewrite H in Hw2; cbn [final snd] in Hw2; subst w2 end.
    destruct IHp as (f & IH). cbv zeta in IH.
    destruct IH as (Hsur & Hz & Hl & Hfail & Hreq & Hend).
    exists (S f). cbv zeta.
    set (p := while_retry a (retry_times - 1) response _) in *.
    cbn [failed_attempt session retry_times_config transport on_wire
           attempts requests_sent slept log] in *.
    assert (Hshift : forall j,
              (S (attempts w) + j = attempts w + S j)%nat)
      by (intros j; lia).
    assert (Hmore : (S (attempts w) <= attempts (snd p))%nat)
      by (destruct Hend as [(r & _ & _ & _ & _ & H)|(_ & _ & _ & H)]; lia).
    split; [|split; [|split; [|split; [|split]]]].
    + destruct Hsur as (H1 & H2 & H3 & H4). cbn in H1, H2, H3, H4.
      unfold same_surroundings. auto.
    + rewrite Hz. lia.
    + rewrite Hl, seq_levels.
      rewrite <- app_assoc. cbn [app]. rewrite Nat.add_0_r, Hlvl.
      do 2 f_equal. apply map_ext. intros j. now rewrite Hshift.
    + intros [|j] Hj Hv.
      * rewrite Nat.add_0_r. eauto.
      * destruct (Hfail j) as [e' He']; [lia | exact Hv |].
        exists e'. now rewrite <- Hshift.
    + rewrite Hreq. destruct a; try lia.
      replace (attempts (snd p) - attempts w)%nat
        with (S (attempts (snd p) - S (attempts w)))%nat by lia.
      rewrite requests_of_S. unfold requests_of.
      cbn [failed_attempt on_wire]. lia.
    + destruct Hend as [(r & Hr & Hle & Hv & Ht & Ha)
                       |(Hr & Hneg & Hf & Ha)].
      * left. exists r.
        replace (retry_times - Z.of_nat (S f))
          with (retry_times - 1 - Z.of_nat f) by lia.
        repeat split; auto; try lia.
        now rewrite <- Hshift.
      * right.
        replace (retry_times - Z.of_nat (S f))
          with (retry_times - 1 - Z.of_nat f) by lia.
        repeat split; auto; lia.
  - match goal with H : except_clause _ _ = _ |- _ =>
      rewrite except_clause_run in H; discriminate end.
  - (* the loop is not entered *)
    match goal with H : (_ >=? 0) = false |- _ =>
      destruct (Z.geb_spec retry_times 0); [discriminate|] end.
    exists O. cbn [fst snd seq map]. rewrite app_nil_r, !Nat.add_0_r.
    unfold same_surroundings. repeat split; try lia.
    + rewrite Nat.sub_diag. destruct a; reflexivity || (cbn; lia).
    + right. cbn [Z.of_nat]. rewrite Z.sub_0_r. repeat split; lia.
Qed.

(** [send_request] from the lookup to the end, for an attribute that
    exists. *)
Lemma send_request_trace req w a :
  session w (get_method req) = Some a ->
  exists f,
    let p := send_request req w in
    same_surroundings w (final p) /\
    slept (final p) = slept w + Z.of_nat f /\
    log (final p)
    = log w ++ Debug ::
        map (fun j => level_of a (transport w (attempts w + j)%nat))
          (seq 0 f) /\
    (forall j, (j < f)%nat -> a = HttpVerb ->
       exists e, transport w (attempts w + j)%nat = Breaks e) /\
    requests_sent (final p)
    = (requests_sent w
       + match a with
         | HttpVerb => requests_of w (attempts w)
                         (attempts (final p) - attempts w)
         | _ => O
         end)%nat /\
    ((exists r,
        outcome p = Return r /\ Z.of_nat f <= retry_times_config w /\
        a = HttpVerb /\
        transport w (attempts w + f)%nat = Responds r /\
        attempts (final p) = (attempts w + S f)%nat) \/
     (outcome p = Raise ScanRequestFailed /\
      f = Z.to_nat (retry_times_config w + 1) /\
      attempts (final p) = (attempts w + f)%nat)).
Proof.
  intros Ha. rewrite (send_request_found req w a Ha).
  destruct (while_retry_trace a (retry_times_config w) None
              (final (Logger Debug w))) as (f & Ht).
  cbv zeta in Ht. exists f. cbv zeta.
  destruct (while_retry a (retry_times_config w) None
              (final (Logger Debug w))) as [[q|e] w'];
    cbn [fst snd] in Ht;
    destruct Ht as (Hsur & Hz & Hl & Hfail & Hreq & Hend).
  - assert (Hrest : same_surroundings w w' /\
              slept w' = slept w + Z.of_nat f /\
              log w' = log w ++ Debug ::
                map (fun j => level_of a
                                (transport w (attempts w + j)%nat))
                  (seq 0 f)).
    { split; [exact Hsur|]. split; [exact Hz|].
      rewrite Hl. cbn. now rewrite <- app_assoc. }
    destruct Hrest as (H1 & H2 & H3).
    destruct Hend as [(r & Hr & Hle & Hv & Htr & Hat)
                     |(Hr & Hneg & Hf & Hat)];
      injection Hr as ->; cbn [fst snd].
    + destruct (Z.geb_spec (retry_times_config w - Z.of_nat f) 0); [|lia].
      unfold final, outcome. cbn [fst snd].
      split; [exact H1|]. split; [exact H2|]. split; [exact H3|].
      split; [exact Hfail|]. split; [exact Hreq|].
      left. exists r. cbn in Htr, Hat.
      repeat split; assumption.
    + destruct (Z.geb_spec (retry_times_config w - Z.of_nat f) 0); [lia|].
      unfold final, outcome. cbn [fst snd].
      split; [exact H1|]. split; [exact H2|]. split; [exact H3|].
      split; [exact Hfail|]. split; [exact Hreq|].
      right. cbn in Hat.
      repeat split; assumption.
  - destruct Hend as [(r & Hr & _)|(Hr & _)]; discriminate.
Qed.

(** X14.  [send_request] ends in one of three ways only: it returns a
    response that the network produced for one of the calls of this
    [send_request], or raises ScanRequestFailed, or raises AttributeError,
    the last exactly when the session has no attribute of the method's
    name.  It never reads [response] while unbound (UnboundLocalError),
    and it leaves session object, configuration and network as they
    are. *)
Theorem send_request_outcomes req w :
  let p := send_request req w in
  same_surroundings w (final p) /\
  (outcome p = Raise AttributeError <-> session w (get_method req) = None)
  /\
  ((exists r n, outcome p = Return r /\ transport w n = Responds r /\
                (attempts w <= n < attempts (final p))%nat) \/
   outcome p = Raise ScanRequestFailed \/
   outcome p = Raise AttributeError) /\
  outcome p <> Raise UnboundLocalError.
Proof.
  cbv zeta. destruct (session w (get_method req)) as [a|] eqn:Ha.
  - destruct (send_request_trace req w a Ha) as (f & Ht). cbv zeta in Ht.
    destruct Ht as (Hsur & _ & _ & _ & _ & Hend).
    split; [exact Hsur|].
    destruct Hend as [(r & Hr & _ & _ & Htr & Hat)|(Hr & _)];
      rewrite Hr.
    + split; [split; discriminate|]. split; [|discriminate].
      left. exists r, (attempts w + f)%nat.
      split; [reflexivity|]. split; [exact Htr | lia].
    + split; [split; discriminate|]. split; [auto | discriminate].
  - assert (Hp : send_request req w = (Raise AttributeError, w)).
    { unfold send_request, getattr, bind. now rewrite Ha. }
    rewrite Hp. unfold outcome, final, same_surroundings. cbn.
    repeat split; auto. discriminate.
Qed.

(** The theorem at the method TRACE, which the session does not have, and
    at scenario S5. *)
Lemma send_request_outcomes_witness :
  session (S5_world 2) (get_method (request "trace")) = None /\
  outcome (send_request (request "trace") (S5_world 2))
  = Raise AttributeError /\
  outcome (send_request (request "get") (S5_world 2))
  <> Raise UnboundLocalError.
Proof.
  split; [reflexivity|]. split.
  - apply (send_request_outcomes (request "trace") (S5_world 2)).
    reflexivity.
  - apply (send_request_outcomes (request "get") (S5_world 2)).
Defined.

(** X15.  With a negative "scanner.retry_times" the request is never
    tried: once the method's attribute is found, [send_request] raises
    ScanRequestFailed with no call of it, nothing on the wire and no
    sleep; the debug record is all that is logged. *)
Theorem send_request_negative_retry req w a :
  session w (get_method req) = Some a ->
  retry_times_config w < 0 ->
  let p := send_request req w in
  outcome p = Raise ScanRequestFailed /\
  attempts (final p) = attempts w /\
  requests_sent (final p) = requests_sent w /\
  slept (final p) = slept w /\
  log (final p) = log w ++ [Debug].
Proof.
  intros Ha Hneg. cbv zeta.
  destruct (send_request_trace req w a Ha) as (f & Ht). cbv zeta in Ht.
  destruct Ht as (_ & Hz & Hl & _ & Hreq & Hend).
  destruct Hend as [(r & _ & Hle & _)|(Hr & Hf & Hat)]; [lia|].
  assert (H0 : Z.to_nat (retry_times_config w + 1) = O) by lia.
  rewrite Hf, H0 in *. rewrite Hat, Nat.add_0_r, Nat.sub_diag in Hreq.
  rewrite Hr, Hz, Hl, Hat, Hreq. cbn.
  repeat split; try lia. destruct a; cbn; lia.
Qed.

(** The theorem at scenario S5 with "scanner.retry_times" = -1. *)
Lemma send_request_negative_retry_witness :
  session (S5_world (-1)) (get_method (request "get")) = Some HttpVerb /\
  retry_times_config (S5_world (-1)) < 0 /\
  outcome (send_request (request "get") (S5_world (-1)))
  = Raise ScanRequestFailed.
Proof.
  split; [reflexivity|]. split; [reflexivity|].
  apply (send_request_negative_retry (request "get") (S5_world (-1))
           HttpVerb eq_refl eq_refl).
Defined.

(** X16.  What a call costs.  When the method's attribute exists there is
    a number f of failed passes such that [send_request] has slept exactly
    f seconds (one after every failed pass, the last one included), has
    logged the debug record followed by one record per failed pass (INFO
    for a timeout or client error of the call of a verb, ERROR
    otherwise), and has either returned after f + 1 calls, with
    f <= retry_times, or raised ScanRequestFailed after
    f = retry_times + 1 calls (0 when negative).  The loop itself sends
    nothing: the requests on the wire are those of its calls of the verb,
    whatever number aiohttp and the network make of each, and an
    attribute that is not a verb puts none there. *)
Theorem send_request_accounting req w a :
  session w (get_method req) = Some a ->
  let p := send_request req w in
  exists f,
    slept (final p) = slept w + Z.of_nat f /\
    log (final p)
    = log w ++ Debug ::
        map (fun j => level_of a (transport w (attempts w + j)%nat))
          (seq 0 f) /\
    (((exists r, outcome p = Return r) /\
      Z.of_nat f <= retry_times_config w /\
      attempts (final p) = (attempts w + S f)%nat) \/
     (outcome p = Raise ScanRequestFailed /\
      f = Z.to_nat (retry_times_config w + 1) /\
      attempts (final p) = (attempts w + f)%nat)) /\
    (a = HttpVerb ->
     requests_sent (final p)
     = (requests_sent w
        + requests_of w (attempts w)
            (attempts (final p) - attempts w))%nat) /\
    (a <> HttpVerb -> requests_sent (final p) = requests_sent w).
Proof.
  intros Ha. cbv zeta.
  destruct (send_request_trace req w a Ha) as (f & Ht). cbv zeta in Ht.
  destruct Ht as (_ & Hz & Hl & _ & Hreq & Hend).
  exists f. split; [exact Hz|]. split; [exact Hl|].
  split.
  - destruct Hend as [(r & Hr & Hle & Hv & _ & Hat)|(Hr & Hf & Hat)].
    + left; eauto.
    + right; auto.
  - split.
    + intros ->. exact Hreq.
    + intros Hn. rewrite Hreq. destruct a; [contradiction| |]; lia.
Qed.

(** The theorem at scenario S5, two seconds of sleep and two INFO records
    before the answer, and where the first call raises before anything is
    sent and the request of the second is sent twice: two calls, two
    requests on the wire. *)
Lemma send_request_accounting_witness :
  session (S5_world 2) (get_method (request "get")) = Some HttpVerb /\
  slept (final (send_request (request "get") (S5_world 2))) = 2 /\
  log (final (send_request (request "get") (S5_world 2)))
  = [Debug; Info; Info] /\
  (let p := send_request (request "get") uneven_world in
   outcome p = Return ok_200 /\
   attempts (final p) = 2%nat /\ log (final p) = [Debug; Error] /\
   requests_sent (final p)
   = (requests_sent uneven_world
      + requests_of uneven_world (attempts uneven_world)
          (attempts (final p) - attempts uneven_world))%nat /\
   requests_sent (final p) = 2%nat) /\
  exists f,
    slept (final (send_request (request "get") (S5_world 2)))
    = slept (S5_world 2) + Z.of_nat f.
Proof.
  split; [reflexivity|]. split; [reflexivity|]. split; [reflexivity|].
  split.
  - cbv zeta. split; [reflexivity|]. split; [reflexivity|].
    split; [reflexivity|]. split; [|reflexivity].
    destruct (send_request_accounting (request "get") uneven_world HttpVerb
                eq_refl) as (f & _ & _ & _ & H & _).
    apply H. reflexivity.
  - destruct (send_request_accounting (request "get") (S5_world 2) HttpVerb
                eq_refl) as (f & H & _).
    exists f. exact H.
Defined.

End SessionFacts.
